(** * FixedLayer: a shallow embedding of src/service/fixed-layer.js

    The class [FixedLayer] tracks elements that may be [position:fixed],
    measures them in the measure phase of a cycle and, in the mutate phase,
    adjusts their [top] and moves them between their place in the document and
    a separate fixed layer.

    The embedding follows the source method by method.  The document, the
    host's selector engine and computed styles, and the frame scheduler are
    the environment of the class: the document is a tree of nodes with an
    inline-style store, the selector engine and the computed styles are a
    record of host functions, and the scheduler runs a task when it is
    scheduled.  Calls to the logger ([log.fine], [console.warn]) have no effect
    on the state modelled here and are left out. *)

From stdpp Require Import base numbers option list strings gmap pretty.
From Stdlib Require Import ZArith Ascii String Lia.

Local Open Scope string_scope.
Local Open Scope Z_scope.

(* ===================================================================== *)
(** ** JavaScript values used by the class *)
(* ===================================================================== *)

Module Js.

(** Exceptions that the host or the language can raise. *)
Inductive Exn :=
| TypeError
| SyntaxError
| NotFoundError
| HierarchyRequestError
| InvalidAccessError.

(** The result of a host call that may raise. *)
Inductive Fallible (A : Type) :=
| Returns (a : A)
| Raises (e : Exn).
Arguments Returns {A} a.
Arguments Raises {A} e.

(** [!!s] for a string: only the empty string is falsy. *)
Definition truthy (s : string) : bool :=
  match s with
  | EmptyString => false
  | String _ _ => true
  end.

(** White space skipped by [parseInt] and [parseFloat] (the ASCII part of
    StrWhiteSpaceChar: TAB, LF, VT, FF, CR, SP). *)
Definition isWhiteSpace (c : ascii) : bool :=
  let n := nat_of_ascii c in
  ((9 <=? n)%nat && (n <=? 13)%nat) || (n =? 32)%nat.

Fixpoint trimStart (s : string) : string :=
  match s with
  | String c r => if isWhiteSpace c then trimStart r else s
  | EmptyString => s
  end.

Definition digitValue (c : ascii) : option Z :=
  let n := nat_of_ascii c in
  if ((48 <=? n)%nat && (n <=? 57)%nat)%bool then Some (Z.of_nat (n - 48)) else None.

(** Reads the longest prefix of decimal digits: the digits read so far
    ([acc], [count]) and the rest of the string. *)
Fixpoint readDigits (s : string) (acc : Z) (count : nat) : Z * nat * string :=
  match s with
  | String c r =>
      match digitValue c with
      | Some d => readDigits r (10 * acc + d) (S count)
      | None => (acc, count, s)
      end
  | EmptyString => (acc, count, s)
  end.

(** An optional sign: [true] for a minus. *)
Definition readSign (s : string) : bool * string :=
  match s with
  | String "-"%char r => (true, r)
  | String "+"%char r => (false, r)
  | _ => (false, s)
  end.

(** [parseInt(s, 10)]: [None] is NaN.  The sign of a zero is not kept:
    [-0 == 0] holds in JavaScript. *)
Definition parseInt (s : string) : option Z :=
  let '(neg, r) := readSign (trimStart s) in
  let '(v, count, _) := readDigits r 0 0 in
  match count with
  | O => None
  | S _ => Some (if neg then - v else v)
  end.

(** A JavaScript number as [parseFloat] returns it, kept as the exact decimal
    [mantissa * 10 ^ exponent]; the rounding to a double is not modelled. *)
Inductive Number :=
| NaN
| Infinity (negative : bool)
| Dec (mantissa : Z) (exponent : Z).

Definition startsWith (p s : string) : bool :=
  String.prefix p s.

(** The exponent part [e[+-]digits] of a decimal literal, when present. *)
Definition readExponent (s : string) : Z :=
  match s with
  | String c r =>
      if (Ascii.eqb c "e" || Ascii.eqb c "E")%bool then
        let '(neg, r') := readSign r in
        let '(v, count, _) := readDigits r' 0 0 in
        match count with
        | O => 0
        | S _ => if neg then - v else v
        end
      else 0
  | EmptyString => 0
  end.

(** [parseFloat(s)]: the longest prefix that is a StrDecimalLiteral. *)
Definition parseFloat (s : string) : Number :=
  let '(neg, r) := readSign (trimStart s) in
  if startsWith "Infinity" r then Infinity neg
  else
    let '(ip, icount, r1) := readDigits r 0 0 in
    let '(m, fcount, r2) :=
      match r1 with
      | String "."%char r1' =>
          let '(m, fcount, r2) := readDigits r1' ip 0 in
          (* a lone "." is not part of the literal *)
          match icount, fcount with
          | O, O => (ip, O, r1)
          | _, _ => (m, fcount, r2)
          end
      | _ => (ip, O, r1)
      end in
    match icount, fcount with
    | O, O => NaN
    | _, _ =>
        let e := readExponent r2 in
        Dec (if neg then - m else m) (e - Z.of_nat fcount)
    end.

(** [x > 0] on numbers; every comparison with NaN is false. *)
Definition gtZero (x : Number) : bool :=
  match x with
  | NaN => false
  | Infinity negative => negb negative
  | Dec m _ => 0 <? m
  end.

(** [x == 0] on numbers. *)
Definition isZero (x : Number) : bool :=
  match x with
  | Dec m _ => m =? 0
  | _ => false
  end.

(** The number to string conversion of template literals, for integers. *)
Definition toString (z : Z) : string := pretty z.

Definition natToString (n : nat) : string := pretty n.

End Js.

Import Js.

(* ===================================================================== *)
(** ** The document *)
(* ===================================================================== *)

Module Dom.

(** Nodes are identified by a number; [createElement] hands out the next
    unused one. *)
Abbreviation node := nat.

(** An element with its children, in order. *)
#[local] Unset Elimination Schemes.
Inductive tree := Node (nid : node) (kids : list tree).
#[local] Set Elimination Schemes.

(** Induction on trees: the property holds for a node when it holds for
    all its children. *)
Fixpoint tree_ind (P : tree -> Prop)
    (step : forall n ks, Forall P ks -> P (Node n ks)) (t : tree) : P t :=
  match t with
  | Node n ks =>
      step n ks
        ((fix go (l : list tree) : Forall P l :=
            match l with
            | [] => List.Forall_nil P
            | k :: r => List.Forall_cons P k r (tree_ind P step k) (go r)
            end) ks)
  end.

Definition rootId (t : tree) : node :=
  match t with Node n _ => n end.

Definition children (t : tree) : list tree :=
  match t with Node _ ks => ks end.

(** The nodes of a tree in document order (depth first, parents first). *)
Fixpoint nodes (t : tree) : list node :=
  match t with
  | Node n ks => n :: flat_map nodes ks
  end.

Definition hasRoot (n : node) (t : tree) : bool := Nat.eqb (rootId t) n.

Definition firstSome {A} (l : list (option A)) : option A :=
  List.fold_right (fun o acc => match o with Some _ => o | None => acc end) None l.

(** The subtree rooted at [n]. *)
Fixpoint subtree (n : node) (t : tree) : option tree :=
  match t with
  | Node m ks => if Nat.eqb m n then Some t else firstSome (List.map (subtree n) ks)
  end.

(** The parent of [n] inside [t]. *)
Fixpoint parentIn (n : node) (t : tree) : option node :=
  match t with
  | Node m ks =>
      if List.existsb (hasRoot n) ks then Some m
      else firstSome (List.map (parentIn n) ks)
  end.

(** [t] without the subtree rooted at [n] (the root itself stays). *)
Fixpoint prune (n : node) (t : tree) : tree :=
  match t with
  | Node m ks =>
      Node m (List.filter (fun k => negb (hasRoot n k)) (List.map (prune n) ks))
  end.

(** [t] with [new] in the place of the child rooted at [old]. *)
Fixpoint graft (old : node) (new : tree) (t : tree) : tree :=
  match t with
  | Node m ks =>
      Node m (List.map (fun k => if hasRoot old k then new else graft old new k) ks)
  end.

(** [t] with [c] added as the last child of [p]. *)
Fixpoint appendTo (p : node) (c : tree) (t : tree) : tree :=
  match t with
  | Node m ks =>
      if Nat.eqb m p then Node m (ks ++ [c])
      else Node m (List.map (appendTo p c) ks)
  end.

Definition memb (n : node) (l : list node) : bool := List.existsb (Nat.eqb n) l.

(** A style sheet rule: a style rule (type 1) with its selector and declared
    position, a media rule (type 4) or a supports rule (type 12) with the
    rules inside, or a rule of another type. *)
#[local] Unset Elimination Schemes.
Inductive CSSRule :=
| CSSStyleRule (selectorText : string) (position : string)
| CSSMediaRule (cssRules : list CSSRule)
| CSSSupportsRule (cssRules : list CSSRule)
| CSSOtherRule (type : Z).
#[local] Set Elimination Schemes.

(** The element that owns a style sheet, as far as [setup] looks at it. *)
Record OwnerNode := {
  tagName : string;
  ownerAttributes : list string;
}.

(** A style sheet.  Reading [cssRules] is a host getter and may raise (a
    sheet whose rules are not available yet). *)
Record StyleSheet := {
  disabled : bool;
  ownerNode : option OwnerNode;
  sheetRules : Fallible (list CSSRule);
}.

(** The document: the tree under [documentElement], the subtrees that were
    removed from it, inline styles, attributes and class names of the nodes,
    and a log of the inline style writes. *)
Record Document := {
  documentElement : tree;
  detached : list tree;
  body : node;
  styleSheets : option (list StyleSheet);
  inlineStyle : gmap (nat * string) string;
  attributes : gmap (nat * string) string;
  classNames : gmap nat string;
  nextNode : node;
  styleWrites : list (nat * string * string);
}.

Definition withTrees (d : Document) (t : tree) (dt : list tree) : Document :=
  {| documentElement := t; detached := dt; body := body d;
     styleSheets := styleSheets d; inlineStyle := inlineStyle d;
     attributes := attributes d; classNames := classNames d;
     nextNode := nextNode d; styleWrites := styleWrites d |}.

(** [doc.contains(n)] *)
Definition contains (d : Document) (n : node) : bool :=
  memb n (nodes (documentElement d)).

Definition allTrees (d : Document) : list tree :=
  documentElement d :: detached d.

(** [n.parentElement]; [None] is null. *)
Definition parentElement (d : Document) (n : node) : option node :=
  firstSome (List.map (parentIn n) (allTrees d)).

(** The subtree that moves with [n]; a node that was created and never
    inserted has no children. *)
Definition subtreeOf (d : Document) (n : node) : tree :=
  default (Node n []) (firstSome (List.map (subtree n) (allTrees d))).

(** Takes [n] out of whatever holds it. *)
Definition detach (n : node) (d : Document) : Document :=
  withTrees d
    (prune n (documentElement d))
    (List.map (prune n) (List.filter (fun t => negb (hasRoot n t)) (detached d))).

Definition isRoot (d : Document) (n : node) : bool :=
  hasRoot n (documentElement d).

(** [p.replaceChild(new, old)] *)
Definition replaceChild (p new old : node) (d : Document) : Fallible Document :=
  if (memb p (nodes (subtreeOf d new)) || isRoot d new)%bool then Raises HierarchyRequestError
  else if negb (bool_decide (parentElement d old = Some p)) then Raises NotFoundError
  else if Nat.eqb new old then Returns d
  else
    let sub := subtreeOf d new in
    let d1 := detach new d in
    let oldsub := subtreeOf d1 old in
    Returns (withTrees d1
               (graft old sub (documentElement d1))
               (List.map (graft old sub) (detached d1) ++ [oldsub])).

(** [p.appendChild(c)] *)
Definition appendChild (p c : node) (d : Document) : Fallible Document :=
  if (memb p (nodes (subtreeOf d c)) || isRoot d c)%bool then Raises HierarchyRequestError
  else
    let sub := subtreeOf d c in
    let d1 := detach c d in
    if List.existsb (fun t => memb p (nodes t)) (allTrees d1) then
      Returns (withTrees d1
                 (appendTo p sub (documentElement d1))
                 (List.map (appendTo p sub) (detached d1)))
    else
      Returns (withTrees d1 (documentElement d1) (detached d1 ++ [Node p [sub]])).

(** [p.removeChild(c)] *)
Definition removeChild (p c : node) (d : Document) : Fallible Document :=
  if negb (bool_decide (parentElement d c = Some p)) then Raises NotFoundError
  else
    let sub := subtreeOf d c in
    let d1 := detach c d in
    Returns (withTrees d1 (documentElement d1) (detached d1 ++ [sub])).

(** [doc.createElement(tag)]: a new node, not yet in any tree. *)
Definition createElement (d : Document) : node * Document :=
  (nextNode d,
   {| documentElement := documentElement d; detached := detached d; body := body d;
      styleSheets := styleSheets d; inlineStyle := inlineStyle d;
      attributes := attributes d; classNames := classNames d;
      nextNode := S (nextNode d); styleWrites := styleWrites d |}).

(** [n.style[prop]]; a property that is not set reads as the empty string. *)
Definition getStyle (d : Document) (n : node) (prop : string) : string :=
  default "" (inlineStyle d !! (n, prop)).

(** [n.style[prop] = value] *)
Definition putStyle (n : node) (prop value : string) (d : Document) : Document :=
  {| documentElement := documentElement d; detached := detached d; body := body d;
     styleSheets := styleSheets d;
     inlineStyle := <[(n, prop) := value]> (inlineStyle d);
     attributes := attributes d; classNames := classNames d;
     nextNode := nextNode d;
     styleWrites := styleWrites d ++ [(n, prop, value)] |}.

(** [n.setAttribute(name, value)] *)
Definition setAttribute (n : node) (name value : string) (d : Document) : Document :=
  {| documentElement := documentElement d; detached := detached d; body := body d;
     styleSheets := styleSheets d; inlineStyle := inlineStyle d;
     attributes := <[(n, name) := value]> (attributes d);
     classNames := classNames d; nextNode := nextNode d;
     styleWrites := styleWrites d |}.

(** [n.className] *)
Definition getClassName (d : Document) (n : node) : string :=
  default "" (classNames d !! n).

(** [n.className = value] *)
Definition putClassName (n : node) (value : string) (d : Document) : Document :=
  {| documentElement := documentElement d; detached := detached d; body := body d;
     styleSheets := styleSheets d; inlineStyle := inlineStyle d;
     attributes := attributes d;
     classNames := <[n := value]> (classNames d);
     nextNode := nextNode d; styleWrites := styleWrites d |}.

(** Bits of [compareDocumentPosition]. *)
Definition DOCUMENT_POSITION_DISCONNECTED : Z := 1.
Definition DOCUMENT_POSITION_PRECEDING : Z := 2.
Definition DOCUMENT_POSITION_FOLLOWING : Z := 4.
Definition DOCUMENT_POSITION_CONTAINS : Z := 8.
Definition DOCUMENT_POSITION_CONTAINED_BY : Z := 16.
Definition DOCUMENT_POSITION_IMPLEMENTATION_SPECIFIC : Z := 32.

(** The position of [n] in the document order of [l]. *)
Fixpoint indexOf (n : node) (l : list node) : option nat :=
  match l with
  | [] => None
  | m :: r => if Nat.eqb m n then Some O else S <$> indexOf n r
  end.

(** The tree that holds [n]. *)
Definition treeOf (d : Document) (n : node) : tree :=
  default (Node n []) (List.find (fun t => memb n (nodes t)) (allTrees d)).

(** [a.compareDocumentPosition(b)]: where [b] lies relative to [a]. *)
Definition compareDocumentPosition (d : Document) (a b : node) : Z :=
  if Nat.eqb a b then 0
  else
    let ta := treeOf d a in
    if negb (memb b (nodes ta)) then
      Z.lor DOCUMENT_POSITION_DISCONNECTED
        (Z.lor DOCUMENT_POSITION_IMPLEMENTATION_SPECIFIC
           (if (b <? a)%nat then DOCUMENT_POSITION_PRECEDING
            else DOCUMENT_POSITION_FOLLOWING))
    else if memb a (nodes (default (Node b []) (subtree b ta))) then
      Z.lor DOCUMENT_POSITION_CONTAINS DOCUMENT_POSITION_PRECEDING
    else if memb b (nodes (default (Node a []) (subtree a ta))) then
      Z.lor DOCUMENT_POSITION_CONTAINED_BY DOCUMENT_POSITION_FOLLOWING
    else
      match indexOf a (nodes ta), indexOf b (nodes ta) with
      | Some ia, Some ib =>
          if (ib <? ia)%nat then DOCUMENT_POSITION_PRECEDING
          else DOCUMENT_POSITION_FOLLOWING
      | _, _ => DOCUMENT_POSITION_FOLLOWING
      end.

End Dom.

Import Dom.

(* ===================================================================== *)
(** ** The host and the state of a FixedLayer *)
(* ===================================================================== *)

(** The computed style properties that the measure phase reads. *)
Record ComputedStyle := {
  cssPosition : string;
  cssTop : string;
  cssBottom : string;
  cssOpacity : string;
  cssVisibility : string;
  cssZIndex : string;
}.

(** What the class asks of the browser.  All of it may depend on the
    document as it is at the time of the call.  [matcher] is the function
    found under [element.matches] or one of its prefixed names; [None] when
    the element has none. *)
Record Host := {
  getComputedStyle : Document -> node -> ComputedStyle;
  offsetWidth : Document -> node -> Z;
  offsetHeight : Document -> node -> Z;
  querySelectorAll : Document -> string -> Fallible (list node);
  matcher : Document -> node -> option (string -> Fallible bool);
  isIos : bool;
}.

(** [FixedElementDef]; an absent [placeholder] or [fixedNow] is [None]. *)
Record FixedElementDef := {
  id : string;
  element : node;
  selectors : list string;
  placeholder : option node;
  fixedNow : option bool;
}.

(** [FixedElementStateDef] *)
Record FixedElementStateDef := {
  fixed : bool;
  transferrable : bool;
  top : string;
  zIndex : string;
}.

#[global] Instance FixedElementDef_inhabited : Inhabited FixedElementDef :=
  populate {| id := ""; element := O; selectors := []; placeholder := None;
              fixedNow := None |}.

(** The [FixedElementDef] objects live in a store and the array
    [fixedElements_] holds references to them, so that a change to an object
    is seen through every reference. *)
Abbreviation ref := nat.

(** The fields of a [FixedLayer], the store of its [FixedElementDef] objects
    and the errors that were thrown outside of the call stack of a method (by
    a callback queued with [setTimeout], or inside a task of the
    scheduler). *)
Record FixedLayer := {
  doc : Document;
  paddingTop_ : Z;
  transfer_ : bool;
  fixedLayer_ : option node;
  counter_ : nat;
  fixedElements_ : list ref;
  objects : gmap nat FixedElementDef;
  uncaught : list Exn;
}.

Definition withDoc (d : Document) (s : FixedLayer) : FixedLayer :=
  {| doc := d; paddingTop_ := paddingTop_ s; transfer_ := transfer_ s;
     fixedLayer_ := fixedLayer_ s; counter_ := counter_ s;
     fixedElements_ := fixedElements_ s; objects := objects s;
     uncaught := uncaught s |}.

Definition withPaddingTop (p : Z) (s : FixedLayer) : FixedLayer :=
  {| doc := doc s; paddingTop_ := p; transfer_ := transfer_ s;
     fixedLayer_ := fixedLayer_ s; counter_ := counter_ s;
     fixedElements_ := fixedElements_ s; objects := objects s;
     uncaught := uncaught s |}.

Definition withFixedLayer (l : option node) (s : FixedLayer) : FixedLayer :=
  {| doc := doc s; paddingTop_ := paddingTop_ s; transfer_ := transfer_ s;
     fixedLayer_ := l; counter_ := counter_ s;
     fixedElements_ := fixedElements_ s; objects := objects s;
     uncaught := uncaught s |}.

Definition withCounter (c : nat) (s : FixedLayer) : FixedLayer :=
  {| doc := doc s; paddingTop_ := paddingTop_ s; transfer_ := transfer_ s;
     fixedLayer_ := fixedLayer_ s; counter_ := c;
     fixedElements_ := fixedElements_ s; objects := objects s;
     uncaught := uncaught s |}.

Definition withFixedElements (l : list ref) (s : FixedLayer) : FixedLayer :=
  {| doc := doc s; paddingTop_ := paddingTop_ s; transfer_ := transfer_ s;
     fixedLayer_ := fixedLayer_ s; counter_ := counter_ s;
     fixedElements_ := l; objects := objects s;
     uncaught := uncaught s |}.

Definition withObjects (o : gmap nat FixedElementDef) (s : FixedLayer) : FixedLayer :=
  {| doc := doc s; paddingTop_ := paddingTop_ s; transfer_ := transfer_ s;
     fixedLayer_ := fixedLayer_ s; counter_ := counter_ s;
     fixedElements_ := fixedElements_ s; objects := o;
     uncaught := uncaught s |}.

Definition withUncaught (u : list Exn) (s : FixedLayer) : FixedLayer :=
  {| doc := doc s; paddingTop_ := paddingTop_ s; transfer_ := transfer_ s;
     fixedLayer_ := fixedLayer_ s; counter_ := counter_ s;
     fixedElements_ := fixedElements_ s; objects := objects s;
     uncaught := u |}.

(** The object behind a reference. *)
Definition deref (s : FixedLayer) (fe : ref) : FixedElementDef :=
  objects s !!! fe.

(* ===================================================================== *)
(** ** Running a method: a state and exception monad *)
(* ===================================================================== *)

(** How a piece of code ends: it returns, or it throws.  Either way the
    changes it made to the state stay. *)
Inductive Completion (A : Type) :=
| Normal (a : A) (s : FixedLayer)
| Throw (e : Exn) (s : FixedLayer).
Arguments Normal {A} a s.
Arguments Throw {A} e s.

Definition JS (A : Type) : Type := FixedLayer -> Completion A.

Definition ret {A} (a : A) : JS A := fun s => Normal a s.

Definition bind {A B} (m : JS A) (k : A -> JS B) : JS B :=
  fun s =>
    match m s with
    | Normal a s' => k a s'
    | Throw e s' => Throw e s'
    end.

Definition throw {A} (e : Exn) : JS A := fun s => Throw e s.

Definition get : JS FixedLayer := fun s => Normal s s.

Definition modify (f : FixedLayer -> FixedLayer) : JS unit := fun s => Normal tt (f s).

(** [try { body } catch (e) { handler(e) }] *)
Definition tryCatch {A} (body : JS A) (handler : Exn -> JS A) : JS A :=
  fun s =>
    match body s with
    | Normal a s' => Normal a s'
    | Throw e s' => handler e s'
    end.

(** [setTimeout(() => {throw e;})]: the error is thrown later, outside of
    the call that queues it. *)
Definition setTimeoutThrow (e : Exn) : JS unit :=
  modify (fun s => withUncaught (uncaught s ++ [e]) s).

(** A change of the document. *)
Definition modifyDoc (f : Document -> Document) : JS unit :=
  modify (fun s => withDoc (f (doc s)) s).

(** A host operation on the document that may raise. *)
Definition domCall (f : Document -> Fallible Document) : JS unit :=
  fun s =>
    match f (doc s) with
    | Returns d => Normal tt (withDoc d s)
    | Raises e => Throw e s
    end.

(** The state in which a piece of code ends. *)
Definition finalState {A} (c : Completion A) : FixedLayer :=
  match c with
  | Normal _ s => s
  | Throw _ s => s
  end.

Definition threw {A} (c : Completion A) : bool :=
  match c with
  | Normal _ _ => false
  | Throw _ _ => true
  end.

Declare Scope js_scope.
Delimit Scope js_scope with js.
Notation "'let*' x ':=' m 'in' k" := (bind m (fun x => k))
  (at level 10, x name, m at level 100, k at level 200) : js_scope.
Notation "m ';;' k" := (bind m (fun _ => k))
  (at level 100, k at level 200, right associativity) : js_scope.
Local Open Scope js_scope.

(** Modelled from the spec: [setStyle] of [../style], one of the style-set
    primitives; it writes one inline style property. *)
Definition setStyle (n : node) (prop value : string) : JS unit :=
  modifyDoc (putStyle n prop value).

(** Modelled from the spec: [setStyles] of [../style], the bulk form of
    [setStyle]; the properties are written in the order of the object. *)
Fixpoint setStyles (n : node) (styles : list (string * string)) : JS unit :=
  match styles with
  | [] => ret tt
  | (prop, value) :: rest => setStyle n prop value ;; setStyles n rest
  end.

(** Modelled from the spec: the scheduler ([Vsync]).  [mutate] runs the task
    it is given; an error of the task is thrown in the scheduler's frame, not
    in the caller's. *)
Definition vsyncMutate (task : JS unit) : JS unit :=
  tryCatch task setTimeoutThrow.

(** Modelled from the spec: [runPromise] of the scheduler runs the measure
    callback and then the mutate callback on one shared state object; the
    promise is rejected when one of them throws, which is the [Throw] of the
    result. *)
Definition vsyncRunPromise {St} (measure : JS St) (mutate : St -> JS unit) : JS unit :=
  let* state := measure in mutate state.

(* ===================================================================== *)
(** ** The class FixedLayer *)
(* ===================================================================== *)

(** [new FixedLayer(doc, vsync, paddingTop, transfer)] *)
Definition constructor (d : Document) (paddingTop : Z) (transfer : bool) : FixedLayer :=
  {| doc := d; paddingTop_ := paddingTop; transfer_ := transfer;
     fixedLayer_ := None; counter_ := O; fixedElements_ := [];
     objects := ∅; uncaught := [] |}.

(** What [returnFromFixedLayer_] is called with: a [FixedElementDef], or (in
    [removeElement]) an element. *)
Inductive Arg :=
| ArgFixedElement (fe : ref)
| ArgElement (el : node).

(** [arg.placeholder]: an element has no property of that name. *)
Definition argPlaceholder (s : FixedLayer) (a : Arg) : option node :=
  match a with
  | ArgFixedElement fe => placeholder (deref s fe)
  | ArgElement _ => None
  end.

(** [arg.element]: an element has no property of that name. *)
Definition argElement (s : FixedLayer) (a : Arg) : option node :=
  match a with
  | ArgFixedElement fe => Some (element (deref s fe))
  | ArgElement _ => None
  end.

(** [isAllowedCoord_(s)]: [!!s && parseInt(s, 10) == 0] *)
Definition isAllowedCoord_ (s : string) : bool :=
  truthy s && bool_decide (parseInt s = Some 0).

(** The body of the measure callback for one element: the flags and the
    values kept in [state[fe.id]]. *)
Definition measureElement (h : Host) (d : Document) (el : node) : FixedElementStateDef :=
  let styles := getComputedStyle h d el in
  let position := cssPosition styles in
  let top := cssTop styles in
  let bottom := cssBottom styles in
  let opacity := parseFloat (cssOpacity styles) in
  let visibility := cssVisibility styles in
  let isFixed :=
    String.eqb position "fixed" &&
    (0 <? offsetWidth h d el) &&
    (0 <? offsetHeight h d el) in
  let isTransferrable :=
    isFixed &&
    negb (String.eqb visibility "hidden") &&
    gtZero opacity &&
    (offsetHeight h d el <? 300) &&
    (isAllowedCoord_ top || isAllowedCoord_ bottom) in
  {| fixed := isFixed; transferrable := isTransferrable; top := top;
     zIndex := cssZIndex styles |}.

(** The first entry of [fixedElements_] whose element is [el], with its
    index. *)
Fixpoint findElement (s : FixedLayer) (el : node) (l : list ref) (i : nat)
  : option (nat * ref) :=
  match l with
  | [] => None
  | fe :: rest =>
      if Nat.eqb (element (deref s fe)) el then Some (i, fe)
      else findElement s el rest (S i)
  end.

(** [setupFixedElement_(element, selector)] *)
Definition setupFixedElement_ (el : node) (selector : string) : JS unit :=
  fun s =>
    match findElement s el (fixedElements_ s) O with
    | Some (_, fe) =>
        (* Already seen. *)
        let o := deref s fe in
        Normal tt
          (withObjects
             (<[fe := {| id := id o; element := element o;
                         selectors := selectors o ++ [selector];
                         placeholder := placeholder o;
                         fixedNow := fixedNow o |}]> (objects s)) s)
    | None =>
        (* A new entry. *)
        let fixedId := "F" ++ natToString (counter_ s) in
        let fe := counter_ s in
        let s1 := withCounter (S (counter_ s)) s in
        let s2 := withDoc (setAttribute el "i-amp-fixedid" fixedId (doc s1)) s1 in
        let s3 :=
          withObjects
            (<[fe := {| id := fixedId; element := el; selectors := [selector];
                        placeholder := None; fixedNow := None |}]> (objects s2)) s2 in
        Normal tt (withFixedElements (fixedElements_ s3 ++ [fe]) s3)
    end.

(** [array.splice(i, 1)] *)
Definition splice1 {A} (i : nat) (l : list A) : list A :=
  take i l ++ drop (S i) l.

(** [removeFixedElement_(element)] *)
Definition removeFixedElement_ (el : node) : JS unit :=
  fun s =>
    match findElement s el (fixedElements_ s) O with
    | Some (i, _) => Normal tt (withFixedElements (splice1 i (fixedElements_ s)) s)
    | None => Normal tt s
    end.

(** The comparison function of [sortInDomOrder_].  In
    [compareDocumentPosition(..) & 0x0A != 0] the comparison [0x0A != 0] is
    evaluated first and its result, [true], is the right operand of [&], as
    the number 1. *)
Definition domOrderCompare (s : FixedLayer) (fe1 fe2 : ref) : Z :=
  let mask := Z.b2z (negb (10 =? 0)) in
  if negb (Z.land
             (compareDocumentPosition (doc s) (element (deref s fe1))
                (element (deref s fe2)))
             mask =? 0)
  then 1
  else -1.

(** [Array.prototype.sort] as an insertion sort, the way it runs on a short
    array: each element moves left past the elements that the comparison
    function puts after it.  [sorted] is the sorted part, last element first. *)
Fixpoint sortInsert {A} (cmp : A -> A -> Z) (x : A) (sorted : list A) : list A :=
  match sorted with
  | [] => [x]
  | tmp :: rest =>
      if 0 <? cmp tmp x then tmp :: sortInsert cmp x rest
      else x :: sorted
  end.

Definition arraySort {A} (cmp : A -> A -> Z) (l : list A) : list A :=
  rev (fold_left (fun sorted x => sortInsert cmp x sorted) l []).

(** [sortInDomOrder_()] *)
Definition sortInDomOrder_ : JS unit :=
  modify (fun s => withFixedElements (arraySort (domOrderCompare s) (fixedElements_ s)) s).

(** The style of the fixed layer, as [getFixedLayer_] sets it. *)
Definition fixedLayerStyles : list (string * string) :=
  [ ("position", "absolute"); ("top", "0"); ("left", "0"); ("height", "0");
    ("width", "0"); ("pointerEvents", "none"); ("overflow", "hidden");
    ("animation", "none"); ("background", "none"); ("border", "none");
    ("borderImage", "none"); ("boxSizing", "border-box"); ("boxShadow", "none");
    ("display", "block"); ("float", "none"); ("margin", "0"); ("opacity", "1");
    ("outline", "none"); ("padding", "none"); ("transform", "none");
    ("transition", "none"); ("visibility", "visible") ].

(** [doc.createElement(tag)] *)
Definition docCreateElement : JS node :=
  fun s => let '(p, d) := createElement (doc s) in Normal p (withDoc d s).

(** [getFixedLayer_()] *)
Definition getFixedLayer_ : JS (option node) :=
  let* s := get in
  if (negb (transfer_ s) || bool_decide (is_Some (fixedLayer_ s)))%bool then
    ret (fixedLayer_ s)
  else
    let* layer := docCreateElement in
    modify (withFixedLayer (Some layer)) ;;
    modifyDoc (setAttribute layer "id" "-amp-fixedlayer") ;;
    setStyles layer fixedLayerStyles ;;
    let* s := get in
    domCall (appendChild (rootId (documentElement (doc s))) layer) ;;
    ret (Some layer).

Section WithHost.

Variable h : Host.

(** [matches_(element, selector)] *)
Definition matches_ (el : node) (selector : string) : JS bool :=
  let* s := get in
  match matcher h (doc s) el with
  | Some matcherFn =>
      match matcherFn selector with
      | Returns b => ret b
      | Raises e =>
          (* Fail silently. *)
          setTimeoutThrow e ;; ret false
      end
  | None => ret false
  end.

(** [selectors.some(selector => this.matches_(element, selector))] *)
Fixpoint someMatches (el : node) (sels : list string) : JS bool :=
  match sels with
  | [] => ret false
  | selector :: rest =>
      let* m := matches_ el selector in
      if m then ret true else someMatches el rest
  end.

(** [node.parentElement.replaceChild(new, old)] and
    [node.parentElement.removeChild(old)]: a property of null is read when
    the node has no parent element. *)
Definition viaParentElement (n : node) (call : node -> Document -> Fallible Document)
  : JS unit :=
  let* s := get in
  match parentElement (doc s) n with
  | None => throw TypeError
  | Some parent => domCall (call parent)
  end.

(** [returnFromFixedLayer_(fe)] *)
Definition returnFromFixedLayer_ (fe : Arg) : JS unit :=
  let* s := get in
  match argPlaceholder s fe with
  | None => ret tt
  | Some ph =>
      if negb (contains (doc s) ph) then ret tt
      else
        match argElement s fe with
        | None => throw TypeError
        | Some el =>
            if contains (doc s) el then
              (if truthy (getStyle (doc s) el "zIndex")
               then modifyDoc (putStyle el "zIndex" "")
               else ret tt) ;;
              viaParentElement ph (fun parent => replaceChild parent el ph)
            else
              viaParentElement ph (fun parent => removeChild parent ph)
        end
  end.

(** The value written to [element.style.zIndex]:
    [calc(${10000 + index} + ${state.zIndex || 0})] *)
Definition transferZIndex (index : nat) (state : FixedElementStateDef) : string :=
  "calc(" ++ natToString (10000 + index) ++ " + " ++
  (if truthy (zIndex state) then zIndex state else "0") ++ ")".

(** [fe.placeholder = p] *)
Definition setPlaceholder (fe : ref) (p : node) : JS unit :=
  modify (fun s =>
    let o := deref s fe in
    withObjects
      (<[fe := {| id := id o; element := element o; selectors := selectors o;
                  placeholder := Some p; fixedNow := fixedNow o |}]> (objects s)) s).

(** [fe.fixedNow = b] *)
Definition setFixedNow (fe : ref) (b : bool) : JS unit :=
  modify (fun s =>
    let o := deref s fe in
    withObjects
      (<[fe := {| id := id o; element := element o; selectors := selectors o;
                  placeholder := placeholder o; fixedNow := Some b |}]> (objects s)) s).

(** The first part of [transferToFixedLayer_], after the test of the parent:
    the placeholder is made ready, the z-index is written and the element is
    moved. *)
Definition transferMove (fe : ref) (index : nat) (state : FixedElementStateDef)
  : JS unit :=
  let* s := get in
  let el := element (deref s fe) in
  let* ph :=
    match placeholder (deref s fe) with
    | Some p => ret p
    | None =>
        (* Never been transfered before: ensure that it's properly
           configured. *)
        setStyle el "pointer-events" "initial" ;;
        let* p := docCreateElement in
        setPlaceholder fe p ;;
        modifyDoc (setAttribute p "i-amp-fixedid" (id (deref s fe))) ;;
        setStyle p "display" "none" ;;
        ret p
    end in
  (* Calculate z-index based on the declared z-index and DOM position. *)
  modifyDoc (putStyle el "zIndex" (transferZIndex index state)) ;;
  viaParentElement el (fun parent => replaceChild parent ph el) ;;
  let* layer := getFixedLayer_ in
  match layer with
  | None => throw TypeError
  | Some layer => domCall (appendChild layer el)
  end.

(** The last part of [transferToFixedLayer_]: test if the element still
    matches one of the `fixed ` selectors; if not return it back to BODY. *)
Definition transferRematch (fe : ref) : JS unit :=
  let* s := get in
  let* matches := someMatches (element (deref s fe)) (selectors (deref s fe)) in
  if negb matches then returnFromFixedLayer_ (ArgFixedElement fe)
  else ret tt.

(** [transferToFixedLayer_(fe, index, state)] *)
Definition transferToFixedLayer_ (fe : ref) (index : nat) (state : FixedElementStateDef)
  : JS unit :=
  let* s := get in
  let el := element (deref s fe) in
  if bool_decide (parentElement (doc s) el = fixedLayer_ s) then ret tt
  else transferMove fe index state ;; transferRematch fe.

(** The value written to [element.style.top]:
    [calc(${state.top} + ${this.paddingTop_}px)] *)
Definition adjustedTop (state : FixedElementStateDef) (paddingTop : Z) : string :=
  "calc(" ++ top state ++ " + " ++ toString paddingTop ++ "px)".

(** [mutateFixedElement_(fe, index, state)] *)
Definition mutateFixedElement_ (fe : ref) (index : nat) (state : FixedElementStateDef)
  : JS unit :=
  let* s := get in
  let el := element (deref s fe) in
  let oldFixed := fixedNow (deref s fe) in
  if bool_decide (oldFixed = Some (fixed state)) then ret tt
  else
    setFixedNow fe (fixed state) ;;
    if fixed state then
      (* Update `top`. This is necessary to adjust position to the viewer's
         paddingTop. *)
      (if truthy (top state)
       then modifyDoc (putStyle el "top" (adjustedTop state (paddingTop_ s)))
       else ret tt) ;;
      (* Move element to the fixed layer. *)
      if transfer_ s then
        if transferrable state then transferToFixedLayer_ fe index state
        else returnFromFixedLayer_ (ArgFixedElement fe)
      else ret tt
    else
      (* Reset `top` which was assigned above. *)
      (if truthy (getStyle (doc s) el "top")
       then modifyDoc (putStyle el "top" "")
       else ret tt) ;;
      (* Move back to the BODY layer and reset transfer z-index. *)
      returnFromFixedLayer_ (ArgFixedElement fe).

(** The object that the two callbacks of a cycle share: [state], indexed by
    [fe.id], and the variable [hasTransferables] of the enclosing call. *)
Record CycleState := {
  state : gmap string FixedElementStateDef;
  hasTransferables : bool;
}.

(** The measure callback of [update]:
    [this.fixedElements_.forEach(fe => ...)] *)
Definition measure : JS CycleState :=
  let* s := get in
  ret (fold_left
         (fun (st : CycleState) (fe : ref) =>
            let m := measureElement h (doc s) (element (deref s fe)) in
            {| state := <[id (deref s fe) := m]> (state st);
               hasTransferables := hasTransferables st || transferrable m |})
         (fixedElements_ s)
         {| state := ∅; hasTransferables := false |}).

(** [this.fixedElements_.forEach((fe, i) => f(fe, i))]: the indices below the
    length that the array had at the start are visited in order, and the
    entry is read when its index is reached. *)
Fixpoint forEachFrom (count i : nat) (f : ref -> nat -> JS unit) : JS unit :=
  match count with
  | O => ret tt
  | S count' =>
      let* s := get in
      match fixedElements_ s !! i with
      | Some fe => f fe i ;; forEachFrom count' (S i) f
      | None => forEachFrom count' (S i) f
      end
  end.

Definition forEachFixedElement (f : ref -> nat -> JS unit) : JS unit :=
  let* s := get in forEachFrom (List.length (fixedElements_ s)) O f.

(** The start of the mutate callback: the fixed layer is created when it is
    needed and takes the class of the body. *)
Definition prepareFixedLayer (st : CycleState) : JS unit :=
  let* s := get in
  if hasTransferables st && transfer_ s then
    let* fixedLayer := getFixedLayer_ in
    match fixedLayer with
    | None => throw TypeError
    | Some layer =>
        let* s := get in
        if negb (String.eqb (getClassName (doc s) layer)
                   (getClassName (doc s) (body (doc s))))
        then modifyDoc (putClassName layer (getClassName (doc s) (body (doc s))))
        else ret tt
    end
  else ret tt.

(** The body of the loop of the mutate callback. *)
Definition mutateEach (st : CycleState) (fe : ref) (i : nat) : JS unit :=
  let* s := get in
  match state st !! id (deref s fe) with
  | Some feState => mutateFixedElement_ fe i feState
  | None => ret tt
  end.

(** The mutate callback of [update]. *)
Definition mutate (st : CycleState) : JS unit :=
  prepareFixedLayer st ;;
  forEachFixedElement (mutateEach st).

(** [toRemove.forEach(fe => this.removeFixedElement_(fe.element))] *)
Fixpoint removeAll (toRemove : list ref) : JS unit :=
  match toRemove with
  | [] => ret tt
  | fe :: rest =>
      let* s := get in
      removeFixedElement_ (element (deref s fe)) ;; removeAll rest
  end.

(** The start of [update]: some of the elements may no longer be in DOM. *)
Definition removeDetached : JS unit :=
  let* s := get in
  let toRemove :=
    List.filter (fun fe => negb (contains (doc s) (element (deref s fe))))
      (fixedElements_ s) in
  removeAll toRemove.

(** [update()]; the promise it returns is not modelled, the call ends when
    the cycle has run. *)
Definition update : JS unit :=
  let* s := get in
  if Nat.eqb (List.length (fixedElements_ s)) 0 then ret tt
  else
    removeDetached ;;
    tryCatch (vsyncRunPromise measure mutate)
      (fun error =>
         (* Fail silently. *)
         setTimeoutThrow error).

(** [discoverFixedSelectors_(rules, foundSelectors)]; the selectors found are
    added at the end of [found]. *)
Fixpoint discoverRule (rule : CSSRule) (found : list string) : list string :=
  match rule with
  | CSSStyleRule selectorText position =>
      if negb (String.eqb selectorText "*") && String.eqb position "fixed"
      then found ++ [selectorText]
      else found
  | CSSMediaRule cssRules =>
      fold_left (fun acc r => discoverRule r acc) cssRules found
  | CSSSupportsRule cssRules =>
      fold_left (fun acc r => discoverRule r acc) cssRules found
  | CSSOtherRule _ => found
  end.

Definition discoverFixedSelectors_ (rules : list CSSRule) (found : list string)
  : list string :=
  fold_left (fun acc r => discoverRule r acc) rules found.

(** The test of [setup] that skips a style sheet. *)
Definition skipsStyleSheet (sheet : StyleSheet) : bool :=
  disabled sheet ||
  match ownerNode sheet with
  | None => true
  | Some owner =>
      negb (String.eqb (tagName owner) "STYLE") ||
      bool_decide ("amp-boilerplate" ∈ ownerAttributes owner) ||
      bool_decide ("amp-runtime" ∈ ownerAttributes owner) ||
      bool_decide ("amp-extension" ∈ ownerAttributes owner)
  end.

(** The first loop of [setup], over the style sheets; reading
    [stylesheet.cssRules] may raise. *)
Fixpoint discoverAll (sheets : list StyleSheet) (found : list string)
  : JS (list string) :=
  match sheets with
  | [] => ret found
  | stylesheet :: rest =>
      if skipsStyleSheet stylesheet then discoverAll rest found
      else
        match sheetRules stylesheet with
        | Raises e => throw e
        | Returns rules =>
            discoverAll rest (discoverFixedSelectors_ rules found)
        end
  end.

(** The loop of [setup] over the elements that a selector matches; [rest] is
    what is left of [elements] from index [i] on. *)
Fixpoint registerMatches (rest : list node) (i : nat) (selector : string) : JS unit :=
  match rest with
  | [] => ret tt
  | el :: rest' =>
      if (10 <? i)%nat then
        (* We shouldn't have too many of `fixed` elements. *)
        ret tt
      else
        setupFixedElement_ el selector ;; registerMatches rest' (S i) selector
  end.

(** [fixedSelectors.forEach(selector => ...)] of [setup] *)
Fixpoint registerSelectors (fixedSelectors : list string) : JS unit :=
  match fixedSelectors with
  | [] => ret tt
  | selector :: rest =>
      let* s := get in
      match querySelectorAll h (doc s) selector with
      | Raises e => throw e
      | Returns elements =>
          registerMatches elements O selector ;; registerSelectors rest
      end
  end.

(** [setup()] *)
Definition setup : JS unit :=
  let* s := get in
  match styleSheets (doc s) with
  | None => ret tt
  | Some stylesheets =>
      (* Find all `position:fixed` elements. *)
      let* fixedSelectors := discoverAll stylesheets [] in
      tryCatch (registerSelectors fixedSelectors)
        (fun e =>
           (* Fail quietly. *)
           setTimeoutThrow e) ;;
      (* Sort in document order. *)
      sortInDomOrder_ ;;
      update
  end.

(** [updatePaddingTop(paddingTop)] *)
Definition updatePaddingTop (paddingTop : Z) : JS unit :=
  modify (withPaddingTop paddingTop) ;;
  update.

(** [addElement(element)] *)
Definition addElement (el : node) : JS unit :=
  setupFixedElement_ el "*" ;;
  sortInDomOrder_ ;;
  update.

(** [removeElement(element)] *)
Definition removeElement (el : node) : JS unit :=
  removeFixedElement_ el ;;
  let* s := get in
  if bool_decide (is_Some (fixedLayer_ s)) then
    vsyncMutate (returnFromFixedLayer_ (ArgElement el))
  else ret tt.

(** [setVisible(visible)] *)
Definition setVisible (visible : bool) : JS unit :=
  let* s := get in
  match fixedLayer_ s with
  | Some layer =>
      vsyncMutate
        (setStyle layer "visibility" (if visible then "visible" else "hidden"))
  | None => ret tt
  end.

End WithHost.

(* ===================================================================== *)
(** ** Notions used to state the properties *)
(* ===================================================================== *)

(** The length that an offset string denotes is zero. *)
Definition denotesZero (s : string) : bool := isZero (parseFloat s).

(** A piece of code keeps a property of the state, however it ends. *)
Definition preserves {A} (P : FixedLayer -> Prop) (m : JS A) : Prop :=
  forall s, P s -> P (finalState (m s)).

(** A piece of code never throws. *)
Definition neverThrows {A} (m : JS A) : Prop :=
  forall s, threw (m s) = false.

(** The element [el] is tracked, and [selector] is one of the selectors
    recorded for it. *)
Definition tracks (s : FixedLayer) (el : node) (selector : string) : Prop :=
  exists fe, fe ∈ fixedElements_ s /\ element (deref s fe) = el /\
             selector ∈ selectors (deref s fe).

(** The tracked elements, in the order of [fixedElements_]. *)
Definition trackedElements (s : FixedLayer) : list node :=
  List.map (fun fe => element (deref s fe)) (fixedElements_ s).

(** What a cycle leaves alone: the array of tracked objects, the
    configuration, the identity of every object (its id, element and
    selectors) and the body of the document; a fixed layer that exists stays,
    and nothing is taken back from the reported errors or from the log of
    style writes. *)
Record frame (s0 s : FixedLayer) : Prop := {
  frame_elements : fixedElements_ s = fixedElements_ s0;
  frame_transfer : transfer_ s = transfer_ s0;
  frame_padding : paddingTop_ s = paddingTop_ s0;
  frame_counter : counter_ s = counter_ s0;
  frame_id : forall r, id (deref s r) = id (deref s0 r);
  frame_element : forall r, element (deref s r) = element (deref s0 r);
  frame_selectors : forall r, selectors (deref s r) = selectors (deref s0 r);
  frame_body : body (doc s) = body (doc s0);
  frame_layer : forall l, fixedLayer_ s0 = Some l -> fixedLayer_ s = Some l;
  frame_uncaught : uncaught s0 `prefix_of` uncaught s;
  frame_writes : styleWrites (doc s0) `prefix_of` styleWrites (doc s);
}.

(** Two documents differ in their trees only. *)
Definition sameButTrees (d d' : Document) : Prop :=
  d' = withTrees d (documentElement d') (detached d').

(** Every object that tracks [el] has [selector] as its only selector. *)
Definition soleSelector (s : FixedLayer) (el : node) (selector : string) : Prop :=
  forall fe, fe ∈ fixedElements_ s -> element (deref s fe) = el ->
             selectors (deref s fe) = [selector].

(** The host finds a matcher on [el] and the matcher accepts the universal
    selector, wherever [el] is in the document. *)
Definition matchesUniversal (h : Host) (el : node) : Prop :=
  forall d, exists m, matcher h d el = Some m /\ m "*" = Returns true.

(** The references of the array were handed out by the counter. *)
Definition wfRegistry (s : FixedLayer) : Prop :=
  forall r, r ∈ fixedElements_ s -> (r < counter_ s)%nat.

(** [setupFixedElement_] on every element of a list, in order. *)
Fixpoint registerEach (els : list node) (selector : string) : JS unit :=
  match els with
  | [] => ret tt
  | el :: rest => setupFixedElement_ el selector ;; registerEach rest selector
  end.

(** The latch of the object [r] holds for the measurements [st]: what was
    measured for its id has the value of [fixed] that [fixedNow] records. *)
Definition latchedFor (st : CycleState) (s : FixedLayer) (r : ref) : Prop :=
  exists m, state st !! id (deref s r) = Some m /\
            fixedNow (deref s r) = Some (fixed m).

(** The measurement [m2] has the fixed flag of [m1], and is transferrable
    only if [m1] is. *)
Definition sameFixed (m1 m2 : FixedElementStateDef) : Prop :=
  fixed m2 = fixed m1 /\ (transferrable m2 = true -> transferrable m1 = true).

(** The same, for the measurements of two cycles. *)
Definition sameFixedStates (st1 st2 : CycleState) : Prop :=
  (forall key, option_Forall2 sameFixed (state st1 !! key) (state st2 !! key)) /\
  (hasTransferables st2 = true -> hasTransferables st1 = true).

(** One step of the loop of the measure callback. *)
Definition measureStep (h : Host) (s : FixedLayer) (st : CycleState) (fe : ref)
  : CycleState :=
  let m := measureElement h (doc s) (element (deref s fe)) in
  {| state := <[id (deref s fe) := m]> (state st);
     hasTransferables := hasTransferables st || transferrable m |}.

(** Reading the rules of the style sheets that [setup] looks at does not
    raise. *)
Definition readableSheets (d : Document) : Prop :=
  forall sheets sheet, styleSheets d = Some sheets -> sheet ∈ sheets ->
    skipsStyleSheet sheet = false -> exists rules, sheetRules sheet = Returns rules.

(** The number that the z-index written at a transfer denotes:
    [10000 + index + declared], where an empty declared z-index counts as 0
    and one that is not a number gives no value. *)
Definition stackingValue (index : nat) (declared : string) : option Z :=
  if truthy declared then
    match parseInt declared with
    | Some z => Some (10000 + Z.of_nat index + z)
    | None => None
    end
  else Some (10000 + Z.of_nat index + 0).

(** Every node occurs once in the trees of the document. *)
Definition wfDocument (d : Document) : Prop :=
  NoDup (flat_map nodes (allTrees d)).

(** The host does not report that [el] matches [selector] in the document
    [d]: there is no matcher, or the matcher answers no, or it raises. *)
Definition doesNotMatch (h : Host) (d : Document) (el : node) (selector : string)
  : Prop :=
  match matcher h d el with
  | None => True
  | Some matcherFn => matcherFn selector <> Returns true
  end.

(** A state in which the element of [fe] can be moved to the fixed layer
    [layer]: every node of the document occurs once and was handed out by
    [createElement]; the fixed layer exists, is in the document and not
    inside the element; the element is in the document and not yet a child
    of the layer; its placeholder, if it has one, is a leaf outside of the
    document. *)
Definition readyForTransfer (s : FixedLayer) (fe : ref) (layer : node) : Prop :=
  let d := doc s in
  let el := element (deref s fe) in
  wfDocument d /\
  (forall n, n ∈ flat_map nodes (allTrees d) -> (n < nextNode d)%nat) /\
  fixedLayer_ s = Some layer /\
  contains d layer = true /\
  contains d el = true /\
  memb layer (nodes (subtreeOf d el)) = false /\
  parentElement d el <> Some layer /\
  (forall ph, placeholder (deref s fe) = Some ph ->
              contains d ph = false /\ subtreeOf d ph = Node ph []).

(** The rule declares [position: fixed] for the selector [sel], which is not
    the universal selector: the rule is a style rule of that selector, or a
    [@media] or [@supports] rule that holds such a rule, at any depth. *)
Inductive declaresFixed : CSSRule -> string -> Prop :=
| declaresFixed_style sel :
    sel <> "*" -> declaresFixed (CSSStyleRule sel "fixed") sel
| declaresFixed_media rules rule sel :
    rule ∈ rules -> declaresFixed rule sel ->
    declaresFixed (CSSMediaRule rules) sel
| declaresFixed_supports rules rule sel :
    rule ∈ rules -> declaresFixed rule sel ->
    declaresFixed (CSSSupportsRule rules) sel.

(** The ids of the tracked objects, in the order of [fixedElements_]. *)
Definition trackedIds (s : FixedLayer) : list string :=
  List.map (fun fe => id (deref s fe)) (fixedElements_ s).

(** The array holds no reference twice and tracks no element twice, and
    every tracked object has the id that the counter gave it. *)
Definition registryOk (s : FixedLayer) : Prop :=
  wfRegistry s /\ NoDup (fixedElements_ s) /\ NoDup (trackedElements s) /\
  forall r, r ∈ fixedElements_ s -> id (deref s r) = "F" ++ natToString r.

(** A call of a public method. *)
Inductive Call :=
| CallSetVisible (visible : bool)
| CallSetup
| CallUpdatePaddingTop (paddingTop : Z)
| CallAddElement (el : node)
| CallRemoveElement (el : node)
| CallUpdate.

Definition invoke (h : Host) (c : Call) : JS unit :=
  match c with
  | CallSetVisible visible => setVisible visible
  | CallSetup => setup h
  | CallUpdatePaddingTop paddingTop => updatePaddingTop h paddingTop
  | CallAddElement el => addElement h el
  | CallRemoveElement el => removeElement el
  | CallUpdate => update h
  end.

(** The states that a FixedLayer goes through: it is constructed, its
    methods are called, and between the calls the page and the browser
    change the document. *)
Inductive reachable : FixedLayer -> Prop :=
| reachable_new d paddingTop transfer :
    reachable (constructor d paddingTop transfer)
| reachable_call h c s :
    reachable s -> reachable (finalState (invoke h c s))
| reachable_document d s :
    reachable s -> reachable (withDoc d s).

(** The node [n] was handed out by [createElement] and its inline style
    [prop] has the value [v]. *)
Definition styleIs (n : node) (prop v : string) (s : FixedLayer) : Prop :=
  getStyle (doc s) n prop = v /\ (n < nextNode (doc s))%nat.

(** Transfer is disabled, there is no fixed layer and no object has a
    placeholder. *)
Definition noTransfer (s : FixedLayer) : Prop :=
  transfer_ s = false /\ fixedLayer_ s = None /\
  forall r, placeholder (deref s r) = None.

(** Transfer is disabled and nothing was moved: the trees of the document
    are [T] and [D], and the inline styles written since the log was [W] are
    [top] styles. *)
Definition nothingMoved (T : tree) (D : list tree)
    (W : list (nat * string * string)) (s : FixedLayer) : Prop :=
  noTransfer s /\
  documentElement (doc s) = T /\ detached (doc s) = D /\
  forall n prop value,
    (n, prop, value) ∈ styleWrites (doc s) ->
    (n, prop, value) ∈ W \/ prop = "top".

(** A suffix that does not go on with a digit, as a unit does. *)
Definition noDigitAhead (s : string) : Prop :=
  match s with
  | String c _ => digitValue c = None
  | EmptyString => True
  end.

(** The fixed layer is [layer], the next new node is [next], the tracked
    objects are [objs], the attributes are [attrs] and the inline styles
    other than z-index are those of [styles]. *)
Definition configured (layer : node) (next : nat)
    (attrs : gmap (nat * string) string) (objs : gmap nat FixedElementDef)
    (styles : gmap (nat * string) string) (s : FixedLayer) : Prop :=
  fixedLayer_ s = Some layer /\ nextNode (doc s) = next /\
  attributes (doc s) = attrs /\ objects s = objs /\
  forall n prop, prop <> "zIndex" ->
                 inlineStyle (doc s) !! (n, prop) = styles !! (n, prop).

(* ===================================================================== *)
(** ** Concrete pages and hosts *)
(* ===================================================================== *)

(** A page: [html] (0) holds [body] (1); the body holds a [div] (2) with a
    banner (3) inside, and a footer (4).  Its one style sheet declares
    [.banner { position: fixed }]. *)
Definition authorSheet : StyleSheet :=
  {| disabled := false;
     ownerNode := Some {| tagName := "STYLE"; ownerAttributes := [] |};
     sheetRules := Returns [CSSStyleRule ".banner" "fixed"] |}.

Definition page : Document :=
  {| documentElement := Node 0 [Node 1 [Node 2 [Node 3 []]; Node 4 []]];
     detached := []; body := 1%nat; styleSheets := Some [authorSheet];
     inlineStyle := ∅; attributes := ∅; classNames := ∅; nextNode := 5%nat;
     styleWrites := [] |}.

(** A computed style of an element that is fixed at the top of the
    viewport. *)
Definition fixedAtTop (zIndex : string) : ComputedStyle :=
  {| cssPosition := "fixed"; cssTop := "0px"; cssBottom := "auto";
     cssOpacity := "1"; cssVisibility := "visible"; cssZIndex := zIndex |}.

(** A computed style of an element in the normal flow. *)
Definition inFlow : ComputedStyle :=
  {| cssPosition := "static"; cssTop := "auto"; cssBottom := "auto";
     cssOpacity := "1"; cssVisibility := "visible"; cssZIndex := "auto" |}.

(** A browser in which every element is 100 by 50 pixels, [.banner] selects
    the banner, and every element matches every selector. *)
Definition browserWith (style : Document -> node -> ComputedStyle) : Host :=
  {| getComputedStyle := style;
     offsetWidth := fun _ _ => 100;
     offsetHeight := fun _ _ => 50;
     querySelectorAll := fun _ selector =>
       if String.eqb selector ".banner" then Returns [3%nat] else Returns [];
     matcher := fun _ _ => Some (fun _ => Returns true);
     isIos := false |}.

(** Every element is fixed at the top, with no declared z-index. *)
Definition browser : Host := browserWith (fun _ _ => fixedAtTop "").

(** A new FixedLayer on the page, transfer enabled, no reserved inset. *)
Definition fresh : FixedLayer := constructor page 0 true.

(** A browser that reports the top offset [0.5px]. *)
Definition halfPixelBrowser : Host :=
  browserWith (fun _ _ =>
    {| cssPosition := "fixed"; cssTop := "0.5px"; cssBottom := "auto";
       cssOpacity := "1"; cssVisibility := "visible"; cssZIndex := "" |}).

(** The object that tracks [el], when there is one. *)
Definition trackerOf (s : FixedLayer) (el : node) : option FixedElementDef :=
  match findElement s el (fixedElements_ s) O with
  | Some (_, fe) => Some (deref s fe)
  | None => None
  end.

(** A page whose body holds fifteen items (nodes 2 to 16), and a browser in
    which [.item] selects all of them. *)
Definition fifteenItems : list node := seq 2 15.

Definition listPage : Document :=
  {| documentElement := Node 0 [Node 1 (List.map (fun n => Node n []) fifteenItems)];
     detached := []; body := 1%nat;
     styleSheets := Some [
       {| disabled := false;
          ownerNode := Some {| tagName := "STYLE"; ownerAttributes := [] |};
          sheetRules := Returns [CSSStyleRule ".item" "fixed"] |} ];
     inlineStyle := ∅; attributes := ∅; classNames := ∅; nextNode := 17%nat;
     styleWrites := [] |}.

Definition listBrowser : Host :=
  {| getComputedStyle := fun _ _ => inFlow;
     offsetWidth := fun _ _ => 100;
     offsetHeight := fun _ _ => 50;
     querySelectorAll := fun _ selector =>
       if String.eqb selector ".item" then Returns fifteenItems else Returns [];
     matcher := fun _ _ => Some (fun _ => Returns true);
     isIos := false |}.

(** The banner was registered and the array sorted; no cycle has run. *)
Definition registered : FixedLayer :=
  finalState (bind (setupFixedElement_ 3 "*") (fun _ => sortInDomOrder_) fresh).

(** The page with a second style sheet, whose rules the host does not give
    out. *)
Definition unreadablePage : Document :=
  {| documentElement := documentElement page; detached := []; body := 1%nat;
     styleSheets := Some [
       {| disabled := false;
          ownerNode := Some {| tagName := "STYLE"; ownerAttributes := [] |};
          sheetRules := Raises InvalidAccessError |};
       authorSheet ];
     inlineStyle := ∅; attributes := ∅; classNames := ∅; nextNode := 5%nat;
     styleWrites := [] |}.

(** The page with a rule whose selector the host rejects, before the rule of
    the banner; and the browser that rejects it. *)
Definition badSelectorPage : Document :=
  {| documentElement := documentElement page; detached := []; body := 1%nat;
     styleSheets := Some [
       {| disabled := false;
          ownerNode := Some {| tagName := "STYLE"; ownerAttributes := [] |};
          sheetRules := Returns [CSSStyleRule ":-vendor-thing" "fixed";
                                 CSSStyleRule ".banner" "fixed"] |} ];
     inlineStyle := ∅; attributes := ∅; classNames := ∅; nextNode := 5%nat;
     styleWrites := [] |}.

Definition strictBrowser : Host :=
  {| getComputedStyle := fun _ _ => fixedAtTop "";
     offsetWidth := fun _ _ => 100;
     offsetHeight := fun _ _ => 50;
     querySelectorAll := fun _ selector =>
       if String.eqb selector ".banner" then Returns [3%nat]
       else Raises SyntaxError;
     matcher := fun _ _ => Some (fun selector =>
       if String.eqb selector ".banner" then Returns true else Raises SyntaxError);
     isIos := false |}.

(** What a script of the page does to the document between two calls. *)
Definition pageScript (f : Document -> Fallible Document) (s : FixedLayer)
  : FixedLayer :=
  match f (doc s) with
  | Returns d => withDoc d s
  | Raises _ => s
  end.

(** The banner was added and a cycle has moved it to the fixed layer (node
    5), leaving the placeholder (node 6) in its place. *)
Definition transferred : FixedLayer := finalState (addElement browser 3 fresh).

(** The banner was added with transfer disabled; its top was adjusted for an
    inset of 0. *)
Definition adjusted : FixedLayer :=
  finalState (addElement browser 3 (constructor page 0 false)).

(** A browser in which the banner declares the z-index 5 and the other
    elements none. *)
Definition stackingBrowser : Host :=
  browserWith (fun _ n => fixedAtTop (if Nat.eqb n 3 then "5" else "")).

(** The banner (3) and the footer (4) were added, in document order, and
    both were moved to the fixed layer. *)
Definition stacked : FixedLayer :=
  finalState (addElement stackingBrowser 4
                (finalState (addElement stackingBrowser 3 fresh))).

(** The footer (4) and then the banner (3) were added, with transfer
    disabled. *)
Definition addedInReverse : FixedLayer :=
  finalState (addElement browser 3
                (finalState (addElement browser 4 (constructor page 0 false)))).

(** A browser in which the elements are fixed at the top as long as the
    [div] (node 2) is in the document, and in the normal flow after that. *)
Definition responsiveBrowser : Host :=
  browserWith (fun d _ => if contains d 2 then fixedAtTop "" else inFlow).

(** The banner was moved to the fixed layer; then a script of the page took
    the [div], with the placeholder in it, out of the body; then a cycle
    ran, in which the banner was measured as not fixed. *)
Definition orphaned : FixedLayer :=
  finalState (update responsiveBrowser
                (pageScript (removeChild 1 2)
                   (finalState (addElement responsiveBrowser 3 fresh)))).

(** A browser in which the banner matches the selector [div .banner] as long
    as its parent is the [div] (node 2), and no other selector matches. *)
Definition descendantBrowser : Host :=
  {| getComputedStyle := fun _ _ => fixedAtTop "";
     offsetWidth := fun _ _ => 100;
     offsetHeight := fun _ _ => 50;
     querySelectorAll := fun _ selector =>
       if String.eqb selector "div .banner" then Returns [3%nat] else Returns [];
     matcher := fun d el => Some (fun selector =>
       Returns (String.eqb selector "div .banner" &&
                bool_decide (parentElement d el = Some 2%nat)));
     isIos := false |}.

(** The banner was registered for [div .banner], and the fixed layer (node
    5) was created; the banner is still in the [div]. *)
Definition layered : FixedLayer :=
  finalState (bind (setupFixedElement_ 3 "div .banner") (fun _ =>
              bind sortInDomOrder_ (fun _ => getFixedLayer_)) fresh).

(** The page with the boilerplate style sheet of the runtime before the
    sheet of the author; the host does not give out the rules of the
    boilerplate. *)
Definition boilerplatePage : Document :=
  {| documentElement := documentElement page; detached := []; body := 1%nat;
     styleSheets := Some [
       {| disabled := false;
          ownerNode := Some {| tagName := "STYLE";
                               ownerAttributes := ["amp-boilerplate"] |};
          sheetRules := Raises InvalidAccessError |};
       authorSheet ];
     inlineStyle := ∅; attributes := ∅; classNames := ∅; nextNode := 5%nat;
     styleWrites := [] |}.

(** The document element (node 0) was registered, and the fixed layer
    exists; the document element has no parent element. *)
Definition rootRegistered : FixedLayer :=
  finalState (bind (setupFixedElement_ 0 "*") (fun _ => getFixedLayer_) fresh).

(** The banner was found by [setup] while the browser laid it out in the
    normal flow: it is tracked and recorded as not fixed. *)
Definition foundInFlow : FixedLayer :=
  finalState (setup (browserWith (fun _ _ => inFlow)) fresh).

(** A browser in which the footer (node 4) is fixed at the top and the other
    elements are in the normal flow. *)
Definition footerBrowser : Host :=
  browserWith (fun _ n => if Nat.eqb n 4 then fixedAtTop "" else inFlow).

(** The banner was added and moved to the fixed layer; then the footer was
    added while the browser laid out every element in the normal flow, so
    that the banner went back to its place. *)
Definition footerAdded : FixedLayer :=
  finalState (addElement (browserWith (fun _ _ => inFlow)) 4 transferred).

(* ===================================================================== *)
(** ** The parsing functions on examples *)
(* ===================================================================== *)

Example parseInt_0px : parseInt "0px" = Some 0.
Proof. reflexivity. Qed.

Example parseInt_auto : parseInt "auto" = None.
Proof. reflexivity. Qed.

Example parseInt_minus : parseInt "  -12.5px" = Some (-12).
Proof. reflexivity. Qed.

Example parseFloat_half : parseFloat "0.5" = Dec 5 (-1).
Proof. reflexivity. Qed.

Example parseFloat_exp : parseFloat "1e-7" = Dec 1 (-7).
Proof. reflexivity. Qed.

Example parseFloat_dot : parseFloat ".px" = NaN.
Proof. reflexivity. Qed.

Example toString_ex : toString (-15) = "-15" /\ natToString 10003 = "10003".
Proof. split; reflexivity. Qed.


(* ===================================================================== *)
(** ** Reasoning about the monad *)
(* ===================================================================== *)

Section Preserves.

Context {A B : Type}.
Variable P : FixedLayer -> Prop.

Lemma preserves_ret (a : A) : preserves P (ret a).
Proof. intros s Hs. exact Hs. Qed.

Lemma preserves_throw (e : Exn) : preserves P (@throw A e).
Proof. intros s Hs. exact Hs. Qed.

Lemma preserves_get : preserves P get.
Proof. intros s Hs. exact Hs. Qed.

Lemma preserves_bind (m : JS A) (k : A -> JS B) :
  preserves P m -> (forall a, preserves P (k a)) -> preserves P (bind m k).
Proof.
  intros Hm Hk s Hs. unfold bind. specialize (Hm s Hs).
  destruct (m s) as [a s'|e s']; simpl in *; [apply Hk; exact Hm|exact Hm].
Qed.

Lemma preserves_tryCatch (body : JS A) (handler : Exn -> JS A) :
  preserves P body -> (forall e, preserves P (handler e)) ->
  preserves P (tryCatch body handler).
Proof.
  intros Hm Hk s Hs. unfold tryCatch. specialize (Hm s Hs).
  destruct (body s) as [a s'|e s']; simpl in *; [exact Hm|apply Hk; exact Hm].
Qed.

Lemma preserves_modify (f : FixedLayer -> FixedLayer) :
  (forall s, P s -> P (f s)) -> preserves P (modify f).
Proof. intros Hf s Hs. apply Hf, Hs. Qed.

Lemma preserves_domCall (f : Document -> Fallible Document) :
  (forall s d, P s -> f (doc s) = Returns d -> P (withDoc d s)) ->
  preserves P (domCall f).
Proof.
  intros Hf s Hs. unfold domCall.
  destruct (f (doc s)) as [d|e] eqn:E; simpl; [apply (Hf s d Hs E)|exact Hs].
Qed.

End Preserves.

Lemma preserves_impl {A} (P Q : FixedLayer -> Prop) (m : JS A) s :
  preserves P m -> P s -> (forall s', P s' -> Q s') -> Q (finalState (m s)).
Proof. intros Hm Hs HPQ. apply HPQ, Hm, Hs. Qed.

Lemma bind_normal_inv {A B} (m : JS A) (k : A -> JS B) s b s' :
  bind m k s = Normal b s' ->
  exists a s1, m s = Normal a s1 /\ k a s1 = Normal b s'.
Proof.
  unfold bind. destruct (m s) as [a s1|e s1]; [eauto|discriminate].
Qed.

Lemma bind_normal {A B} (m : JS A) (k : A -> JS B) s a s1 :
  m s = Normal a s1 -> bind m k s = k a s1.
Proof. intros E. unfold bind. rewrite E. reflexivity. Qed.

Lemma preserves_normal {A} (P : FixedLayer -> Prop) (m : JS A) s a s' :
  preserves P m -> P s -> m s = Normal a s' -> P s'.
Proof. intros Hm Hs E. specialize (Hm s Hs). rewrite E in Hm. exact Hm. Qed.

(** Breaks a goal [preserves P m] down along the structure of [m]. *)
Ltac preserves_step :=
  lazymatch goal with
  | |- preserves _ (ret _) => apply preserves_ret
  | |- preserves _ (throw _) => apply preserves_throw
  | |- preserves _ get => apply preserves_get
  | |- preserves _ (bind _ _) => apply preserves_bind; [|intros ?]
  | |- preserves _ (tryCatch _ _) => apply preserves_tryCatch; [|intros ?]
  | |- preserves _ (if ?c then _ else _) => destruct c
  | |- preserves _ (match ?x with _ => _ end) => destruct x eqn:?
  | |- preserves _ (let '(_, _) := ?x in _) => destruct x eqn:?
  end.

Ltac preserves_struct := repeat preserves_step.

(** *** The host operations on the document change its trees only *)

Lemma sameButTrees_refl d : sameButTrees d d.
Proof. destruct d; reflexivity. Qed.

Lemma sameButTrees_withTrees d t dt : sameButTrees d (withTrees d t dt).
Proof. reflexivity. Qed.

Lemma sameButTrees_detach n d : sameButTrees d (detach n d).
Proof. reflexivity. Qed.

Lemma replaceChild_sameButTrees p new old d d' :
  replaceChild p new old d = Returns d' -> sameButTrees d d'.
Proof.
  unfold replaceChild. repeat case_match; intros [= <-];
    solve [apply sameButTrees_refl | reflexivity].
Qed.

Lemma appendChild_sameButTrees p c d d' :
  appendChild p c d = Returns d' -> sameButTrees d d'.
Proof.
  unfold appendChild. repeat case_match; intros [= <-];
    solve [apply sameButTrees_refl | reflexivity].
Qed.

Lemma removeChild_sameButTrees p c d d' :
  removeChild p c d = Returns d' -> sameButTrees d d'.
Proof.
  unfold removeChild. repeat case_match; intros [= <-];
    solve [apply sameButTrees_refl | reflexivity].
Qed.

(** *** Reading through a reference after a write *)

Lemma deref_withObjects_insert s fe o r :
  deref (withObjects (<[fe := o]> (objects s)) s) r =
  if decide (fe = r) then o else deref s r.
Proof.
  unfold deref; simpl. rewrite lookup_total_insert. reflexivity.
Qed.

Lemma frame_refl s : frame s s.
Proof. split; auto. Qed.

Lemma frame_trans s0 s1 s2 : frame s0 s1 -> frame s1 s2 -> frame s0 s2.
Proof.
  intros [] []. split; try congruence; auto; try (etrans; eassumption).
Qed.

(* ===================================================================== *)
(** ** What the methods of a cycle leave alone *)
(* ===================================================================== *)

Create HintDb frame discriminated.

Lemma frame_withDoc s0 s d :
  frame s0 s -> body d = body (doc s) ->
  styleWrites (doc s) `prefix_of` styleWrites d ->
  frame s0 (withDoc d s).
Proof.
  intros [] Hb Hw. split; simpl; auto; try congruence. etrans; eassumption.
Qed.

Lemma preserves_frame_modifyDoc s0 (f : Document -> Document) :
  (forall d, body (f d) = body d /\ styleWrites d `prefix_of` styleWrites (f d)) ->
  preserves (frame s0) (modifyDoc f).
Proof.
  intros Hf. apply preserves_modify. intros s Hs.
  destruct (Hf (doc s)). apply frame_withDoc; auto.
Qed.

Lemma preserves_frame_putStyle s0 n prop value :
  preserves (frame s0) (modifyDoc (putStyle n prop value)).
Proof.
  apply preserves_frame_modifyDoc. intros d. split; [reflexivity|].
  simpl. apply prefix_app_r. reflexivity.
Qed.

Lemma preserves_frame_setStyle s0 n prop value :
  preserves (frame s0) (setStyle n prop value).
Proof. apply preserves_frame_putStyle. Qed.

Lemma preserves_frame_setAttribute s0 n name value :
  preserves (frame s0) (modifyDoc (setAttribute n name value)).
Proof. apply preserves_frame_modifyDoc. intros d. split; reflexivity. Qed.

Lemma preserves_frame_putClassName s0 n value :
  preserves (frame s0) (modifyDoc (putClassName n value)).
Proof. apply preserves_frame_modifyDoc. intros d. split; reflexivity. Qed.

Lemma preserves_frame_setStyles s0 n styles :
  preserves (frame s0) (setStyles n styles).
Proof.
  induction styles as [|[prop value] rest IH]; simpl.
  - apply preserves_ret.
  - apply preserves_bind; [apply preserves_frame_setStyle|intros _; exact IH].
Qed.

Lemma preserves_frame_domCall s0 (f : Document -> Fallible Document) :
  (forall d d', f d = Returns d' -> sameButTrees d d') ->
  preserves (frame s0) (domCall f).
Proof.
  intros Hf. apply preserves_domCall. intros s d Hs E.
  apply Hf in E. apply frame_withDoc; auto; rewrite E; reflexivity.
Qed.

Lemma preserves_frame_setTimeoutThrow s0 e :
  preserves (frame s0) (setTimeoutThrow e).
Proof.
  apply preserves_modify. intros s []. split; simpl; auto.
  etrans; [eassumption|]. apply prefix_app_r. reflexivity.
Qed.

Lemma preserves_frame_setFixedNow s0 fe b :
  preserves (frame s0) (setFixedNow fe b).
Proof.
  apply preserves_modify. intros s []. split; simpl; auto;
    intros r; rewrite deref_withObjects_insert; destruct (decide (fe = r));
    subst; simpl; auto.
Qed.

Lemma preserves_frame_setPlaceholder s0 fe p :
  preserves (frame s0) (setPlaceholder fe p).
Proof.
  apply preserves_modify. intros s []. split; simpl; auto;
    intros r; rewrite deref_withObjects_insert; destruct (decide (fe = r));
    subst; simpl; auto.
Qed.

Lemma preserves_frame_docCreateElement s0 :
  preserves (frame s0) docCreateElement.
Proof.
  intros s Hs. unfold docCreateElement. simpl.
  apply frame_withDoc; [assumption|reflexivity|reflexivity].
Qed.

#[export] Hint Resolve preserves_frame_putStyle preserves_frame_setStyle
  preserves_frame_setAttribute preserves_frame_putClassName
  preserves_frame_setStyles preserves_frame_setTimeoutThrow
  preserves_frame_setFixedNow preserves_frame_setPlaceholder
  preserves_frame_docCreateElement : frame.

Lemma preserves_and_const {A} (P : FixedLayer -> Prop) (C : Prop) (m : JS A) :
  preserves P m -> preserves (fun s => P s /\ C) m.
Proof. intros Hm s [Hs Hc]. split; [apply Hm, Hs|exact Hc]. Qed.

Lemma preserves_frame_appendChild s0 p c :
  preserves (frame s0) (domCall (appendChild p c)).
Proof. apply preserves_frame_domCall. intros d d'. apply appendChild_sameButTrees. Qed.

Lemma frame_getFixedLayer_ s : frame s (finalState (getFixedLayer_ s)).
Proof.
  unfold getFixedLayer_. unfold bind at 1, get at 1.
  destruct (negb (transfer_ s) || bool_decide (is_Some (fixedLayer_ s))) eqn:E;
    [apply frame_refl|].
  apply orb_false_iff in E as [_ E]. apply bool_decide_eq_false in E.
  assert (Hnone : fixedLayer_ s = None).
  { destruct (fixedLayer_ s); [exfalso; apply E; eauto|reflexivity]. }
  apply (preserves_impl (fun s' => frame s s' /\ fixedLayer_ s = None)).
  - preserves_struct;
      try (apply preserves_and_const;
           solve [auto using preserves_frame_appendChild, preserves_get with frame]).
    apply preserves_modify. intros s' [[] Hn]. split; [|exact Hn].
    split; simpl; auto. intros l Hl. congruence.
  - split; [apply frame_refl|exact Hnone].
  - tauto.
Qed.

Lemma preserves_frame_getFixedLayer_ s0 : preserves (frame s0) getFixedLayer_.
Proof. intros s Hs. eapply frame_trans; [exact Hs|apply frame_getFixedLayer_]. Qed.

Lemma preserves_frame_viaParentElement s0 n call :
  (forall parent d d', call parent d = Returns d' -> sameButTrees d d') ->
  preserves (frame s0) (viaParentElement n call).
Proof.
  intros Hc. unfold viaParentElement. preserves_struct.
  apply preserves_frame_domCall, Hc.
Qed.

Lemma preserves_frame_returnFromFixedLayer_ s0 fe :
  preserves (frame s0) (returnFromFixedLayer_ fe).
Proof.
  unfold returnFromFixedLayer_. preserves_struct; auto with frame.
  all: apply preserves_frame_viaParentElement; intros parent d d';
    first [apply replaceChild_sameButTrees | apply removeChild_sameButTrees].
Qed.

#[export] Hint Resolve preserves_frame_getFixedLayer_
  preserves_frame_returnFromFixedLayer_ : frame.

Section FrameWithHost.

Variable h : Host.
Variable s0 : FixedLayer.

Lemma preserves_frame_matches_ el selector :
  preserves (frame s0) (matches_ h el selector).
Proof. unfold matches_. preserves_struct; auto with frame. Qed.

Lemma preserves_frame_someMatches el sels :
  preserves (frame s0) (someMatches h el sels).
Proof.
  induction sels as [|selector rest IH]; simpl.
  - apply preserves_ret.
  - apply preserves_bind; [apply preserves_frame_matches_|].
    intros []; [apply preserves_ret|exact IH].
Qed.

Lemma preserves_frame_transferMove fe index state :
  preserves (frame s0) (transferMove fe index state).
Proof.
  unfold transferMove. preserves_struct;
    auto using preserves_frame_appendChild with frame.
  all: apply preserves_frame_viaParentElement; intros parent d d';
    apply replaceChild_sameButTrees.
Qed.

Lemma preserves_frame_transferRematch fe :
  preserves (frame s0) (transferRematch h fe).
Proof.
  unfold transferRematch. preserves_struct; auto with frame.
  apply preserves_frame_someMatches.
Qed.

Lemma preserves_frame_transferToFixedLayer_ fe index state :
  preserves (frame s0) (transferToFixedLayer_ h fe index state).
Proof.
  unfold transferToFixedLayer_. preserves_struct;
    auto using preserves_frame_transferMove, preserves_frame_transferRematch.
Qed.

Lemma preserves_frame_mutateFixedElement_ fe index state :
  preserves (frame s0) (mutateFixedElement_ h fe index state).
Proof.
  unfold mutateFixedElement_. preserves_struct;
    auto using preserves_frame_transferToFixedLayer_ with frame.
Qed.

Lemma preserves_frame_mutateEach st fe i :
  preserves (frame s0) (mutateEach h st fe i).
Proof.
  unfold mutateEach. preserves_struct.
  apply preserves_frame_mutateFixedElement_.
Qed.

Lemma preserves_frame_forEachFrom count i f :
  (forall fe j, preserves (frame s0) (f fe j)) ->
  preserves (frame s0) (forEachFrom count i f).
Proof.
  intros Hf. revert i. induction count as [|count IH]; intros i; simpl.
  - apply preserves_ret.
  - preserves_struct; auto.
Qed.

Lemma preserves_frame_prepareFixedLayer st :
  preserves (frame s0) (prepareFixedLayer st).
Proof. unfold prepareFixedLayer. preserves_struct; auto with frame. Qed.

Lemma preserves_frame_mutate st : preserves (frame s0) (mutate h st).
Proof.
  unfold mutate, forEachFixedElement. preserves_struct.
  - apply preserves_frame_prepareFixedLayer.
  - apply preserves_frame_forEachFrom. intros. apply preserves_frame_mutateEach.
Qed.

Lemma preserves_frame_measure : preserves (frame s0) (measure h).
Proof. unfold measure. preserves_struct. Qed.

Lemma preserves_frame_cycle :
  preserves (frame s0)
    (tryCatch (vsyncRunPromise (measure h) (mutate h)) setTimeoutThrow).
Proof.
  unfold vsyncRunPromise. preserves_struct; auto with frame.
  - apply preserves_frame_measure.
  - apply preserves_frame_mutate.
Qed.

End FrameWithHost.

(* ===================================================================== *)
(** ** The flags of the measure phase *)
(* ===================================================================== *)

Section Flags.

Variable h : Host.
Variable d : Document.
Variable el : node.

Lemma truthy_nonempty (s : string) : truthy s = true <-> s <> "".
Proof. destruct s; simpl; split; intros; congruence. Qed.

Lemma isAllowedCoord_spec (s : string) :
  isAllowedCoord_ s = true <-> s <> "" /\ parseInt s = Some 0.
Proof.
  unfold isAllowedCoord_.
  rewrite andb_true_iff, truthy_nonempty, bool_decide_eq_true.
  reflexivity.
Qed.

Lemma measureElement_fixed :
  fixed (measureElement h d el) = true <->
  cssPosition (getComputedStyle h d el) = "fixed" /\
  0 < offsetWidth h d el /\
  0 < offsetHeight h d el.
Proof.
  unfold measureElement; simpl.
  rewrite !andb_true_iff, String.eqb_eq, !Z.ltb_lt.
  tauto.
Qed.

Lemma measureElement_transferrable :
  transferrable (measureElement h d el) = true <->
  fixed (measureElement h d el) = true /\
  cssVisibility (getComputedStyle h d el) <> "hidden" /\
  gtZero (parseFloat (cssOpacity (getComputedStyle h d el))) = true /\
  offsetHeight h d el < 300 /\
  (isAllowedCoord_ (cssTop (getComputedStyle h d el)) = true \/
   isAllowedCoord_ (cssBottom (getComputedStyle h d el)) = true).
Proof.
  unfold measureElement; simpl.
  rewrite !andb_true_iff, orb_true_iff, negb_true_iff, <- not_true_iff_false.
  rewrite !String.eqb_eq, !Z.ltb_lt.
  tauto.
Qed.

End Flags.

(** C5: in the measure phase [isFixed] holds exactly when the computed
    position is fixed and the rendered width and height are positive, and
    [isTransferrable] holds exactly when [isFixed] holds, the visibility is
    not hidden, the opacity is positive, the rendered height is below 300 and
    the computed top or bottom is a non-empty string that [parseInt] reads as
    0.  An offset that [parseInt] reads as not-a-number or as a non-zero
    integer never makes the element transferrable. *)
Theorem measure_flags (h : Host) (d : Document) (el : node) :
  let cs := getComputedStyle h d el in
  let m := measureElement h d el in
  (fixed m = true <->
     cssPosition cs = "fixed" /\ 0 < offsetWidth h d el /\ 0 < offsetHeight h d el) /\
  (transferrable m = true <->
     fixed m = true /\
     cssVisibility cs <> "hidden" /\
     gtZero (parseFloat (cssOpacity cs)) = true /\
     offsetHeight h d el < 300 /\
     ((cssTop cs <> "" /\ parseInt (cssTop cs) = Some 0) \/
      (cssBottom cs <> "" /\ parseInt (cssBottom cs) = Some 0))) /\
  (parseInt (cssTop cs) <> Some 0 -> parseInt (cssBottom cs) <> Some 0 ->
     transferrable m = false).
Proof.
  intros cs m. split; [apply measureElement_fixed|].
  assert (Ht := measureElement_transferrable h d el).
  rewrite !isAllowedCoord_spec in Ht. fold cs m in Ht.
  split; [exact Ht|].
  intros Htop Hbottom. apply not_true_iff_false. rewrite Ht.
  intros (_ & _ & _ & _ & [[_ H] | [_ H]]); contradiction.
Qed.

(** C5, on an input: the flags of the banner in a browser that reports it
    fixed at the top. *)
Lemma measure_flags_witness :
  transferrable (measureElement browser page 3) = true <->
  fixed (measureElement browser page 3) = true /\
  cssVisibility (getComputedStyle browser page 3) <> "hidden" /\
  gtZero (parseFloat (cssOpacity (getComputedStyle browser page 3))) = true /\
  offsetHeight browser page 3 < 300 /\
  ((cssTop (getComputedStyle browser page 3) <> "" /\
    parseInt (cssTop (getComputedStyle browser page 3)) = Some 0) \/
   (cssBottom (getComputedStyle browser page 3) <> "" /\
    parseInt (cssBottom (getComputedStyle browser page 3)) = Some 0)).
Proof. exact (proj1 (proj2 (measure_flags browser page 3))). Defined.

(** C5 as stated fails: the top offset [0.5px] is not zero, and neither is the
    bottom offset [auto], yet the element is transferrable, because
    [parseInt] reads [0.5px] as 0. *)
Lemma half_pixel_is_transferrable :
  denotesZero (cssTop (getComputedStyle halfPixelBrowser page 3)) = false /\
  denotesZero (cssBottom (getComputedStyle halfPixelBrowser page 3)) = false /\
  transferrable (measureElement halfPixelBrowser page 3) = true.
Proof. repeat split; vm_compute; reflexivity. Qed.

(* ===================================================================== *)
(** ** The registry of tracked elements *)
(* ===================================================================== *)

Lemma findElement_Some s el l i j fe :
  findElement s el l i = Some (j, fe) ->
  (i <= j)%nat /\ l !! (j - i)%nat = Some fe /\ element (deref s fe) = el /\
  forall k r, (k < j - i)%nat -> l !! k = Some r -> element (deref s r) <> el.
Proof.
  revert i. induction l as [|r rest IH]; intros i; simpl; [discriminate|].
  destruct (Nat.eqb_spec (element (deref s r)) el) as [E|E].
  - intros [= <- <-]. replace (i - i)%nat with O by lia.
    repeat split; auto. intros k r' Hk. lia.
  - intros H. apply IH in H as (Hle & Hl & He & Hbefore).
    replace (j - i)%nat with (S (j - S i)) by lia.
    repeat split; auto; [lia|].
    intros [|k] r' Hk; simpl; [intros [= <-]; exact E|].
    apply Hbefore. lia.
Qed.

Lemma findElement_None s el l i :
  findElement s el l i = None <-> forall r, r ∈ l -> element (deref s r) <> el.
Proof.
  revert i. induction l as [|r rest IH]; intros i; simpl.
  - split; [intros _ r Hr; inversion Hr|reflexivity].
  - destruct (Nat.eqb_spec (element (deref s r)) el) as [E|E].
    + split; [discriminate|]. intros H. exfalso. apply (H r); [left|exact E].
    + rewrite IH. split.
      * intros H r' Hr'. inversion Hr'; subst; auto.
      * intros H r' Hr'. apply H. right. exact Hr'.
Qed.

Lemma findElement_elem s el l i j fe :
  findElement s el l i = Some (j, fe) -> fe ∈ l.
Proof.
  intros H. apply findElement_Some in H as (_ & Hl & _).
  eapply list_elem_of_lookup_2, Hl.
Qed.

(** The objects and the array matter to [findElement], nothing else. *)
Lemma findElement_ext s s' el l i :
  (forall r, r ∈ l -> element (deref s' r) = element (deref s r)) ->
  findElement s' el l i = findElement s el l i.
Proof.
  revert i. induction l as [|r rest IH]; intros i H; simpl; [reflexivity|].
  rewrite H by left. rewrite IH; [reflexivity|].
  intros r' Hr'. apply H. right. exact Hr'.
Qed.

(** *** Registration *)

Lemma setupFixedElement_normal el selector s :
  exists s', setupFixedElement_ el selector s = Normal tt s'.
Proof. unfold setupFixedElement_. repeat case_match; eauto. Qed.

Lemma setupFixedElement_tracks el selector s :
  tracks (finalState (setupFixedElement_ el selector s)) el selector.
Proof.
  unfold setupFixedElement_.
  destruct (findElement s el (fixedElements_ s) O) as [[i fe]|] eqn:E; simpl.
  - exists fe. apply findElement_Some in E as (_ & Hl & He & _).
    rewrite deref_withObjects_insert, decide_True by reflexivity. simpl.
    split; [eapply list_elem_of_lookup_2, Hl|].
    split; [exact He|]. apply elem_of_app. right. left.
  - exists (counter_ s). unfold deref; simpl.
    rewrite lookup_total_insert_eq. simpl.
    split; [apply elem_of_app; right; left|].
    split; [reflexivity|left].
Qed.

(** A new registration makes ["selector"] the only selector of the element. *)
Lemma setupFixedElement_sole el selector s :
  findElement s el (fixedElements_ s) O = None ->
  let s' := finalState (setupFixedElement_ el selector s) in
  forall fe, fe ∈ fixedElements_ s' -> element (deref s' fe) = el ->
             selectors (deref s' fe) = [selector].
Proof.
  intros E. unfold setupFixedElement_. rewrite E. simpl.
  intros fe Hfe. unfold deref; simpl.
  rewrite lookup_total_insert. destruct (decide (counter_ s = fe)) as [->|Hne];
    simpl; [reflexivity|].
  intros He. exfalso.
  apply elem_of_app in Hfe as [Hfe|Hfe].
  - rewrite findElement_None in E. apply (E fe Hfe He).
  - apply list_elem_of_singleton in Hfe. congruence.
Qed.

(** The document keeps its trees when an element is registered. *)
Lemma setupFixedElement_trees el selector s :
  let s' := finalState (setupFixedElement_ el selector s) in
  documentElement (doc s') = documentElement (doc s) /\
  detached (doc s') = detached (doc s).
Proof. unfold setupFixedElement_. repeat case_match; simpl; auto. Qed.

(** *** Sorting *)

Lemma sortInsert_Permutation {A} (cmp : A -> A -> Z) x sorted :
  sortInsert cmp x sorted ≡ₚ x :: sorted.
Proof.
  induction sorted as [|tmp rest IH]; simpl; [reflexivity|].
  destruct (0 <? cmp tmp x); [|reflexivity].
  rewrite IH. apply Permutation_swap.
Qed.

Lemma arraySort_Permutation {A} (cmp : A -> A -> Z) l : arraySort cmp l ≡ₚ l.
Proof.
  unfold arraySort.
  assert (H : forall acc, fold_left (fun sorted x => sortInsert cmp x sorted) l acc
                          ≡ₚ rev l ++ acc).
  { induction l as [|x l IH]; intros acc; simpl; [reflexivity|].
    rewrite IH, sortInsert_Permutation.
    rewrite <- app_assoc. reflexivity. }
  rewrite <- Permutation_rev, H, app_nil_r.
  symmetry. apply Permutation_rev.
Qed.

Lemma sortInDomOrder_tracks s el selector :
  tracks s el selector -> tracks (finalState (sortInDomOrder_ s)) el selector.
Proof.
  intros (fe & Hfe & He & Hs). exists fe. simpl. repeat split; auto.
  rewrite arraySort_Permutation. exact Hfe.
Qed.

(** *** Removal *)

Lemma removeFixedElement_objects el s :
  objects (finalState (removeFixedElement_ el s)) = objects s /\
  doc (finalState (removeFixedElement_ el s)) = doc s.
Proof. unfold removeFixedElement_. repeat case_match; simpl; auto. Qed.

Lemma removeFixedElement_normal_form el s :
  exists s', removeFixedElement_ el s = Normal tt s' /\
             objects s' = objects s /\ doc s' = doc s.
Proof. unfold removeFixedElement_. repeat case_match; simpl; eauto. Qed.

Lemma splice1_elem {A} (i : nat) (l : list A) x y :
  l !! i = Some y -> x <> y -> x ∈ l -> x ∈ splice1 i l.
Proof.
  intros Hi Hne Hx. unfold splice1.
  rewrite <- (take_drop_middle l i y Hi) in Hx.
  apply elem_of_app in Hx as [Hx|Hx]; apply elem_of_app; [left; exact Hx|].
  right. inversion Hx; subst; [contradiction|assumption].
Qed.

Lemma removeFixedElement_keeps x s el selector :
  x <> el -> tracks s el selector ->
  tracks (finalState (removeFixedElement_ x s)) el selector.
Proof.
  intros Hne (fe & Hfe & He & Hs). unfold removeFixedElement_.
  destruct (findElement s x (fixedElements_ s) O) as [[i fe']|] eqn:E; simpl;
    [|exists fe; auto].
  exists fe. repeat split; auto.
  apply findElement_Some in E as (_ & Hl & He' & _).
  replace (i - 0)%nat with i in Hl by lia.
  eapply splice1_elem; eauto. congruence.
Qed.

Lemma removeAll_keeps toRemove s el selector :
  (forall r, r ∈ toRemove -> element (deref s r) <> el) ->
  tracks s el selector ->
  tracks (finalState (removeAll toRemove s)) el selector.
Proof.
  revert s. induction toRemove as [|r rest IH]; intros s Hrem Ht; simpl; [exact Ht|].
  unfold bind, get.
  destruct (removeFixedElement_normal_form (element (deref s r)) s) as [s' [E [Ho Hd]]].
  rewrite E. apply IH.
  - intros r' Hr'. unfold deref. rewrite Ho. apply Hrem. right. exact Hr'.
  - replace s' with (finalState (removeFixedElement_ (element (deref s r)) s))
      by (rewrite E; reflexivity).
    apply removeFixedElement_keeps; [apply Hrem; left|exact Ht].
Qed.

(* ===================================================================== *)
(** ** Explicit registration and the test after a transfer *)
(* ===================================================================== *)

Lemma frame_tracks s0 s el selector :
  frame s0 s -> tracks s0 el selector -> tracks s el selector.
Proof.
  intros [] (fe & Hfe & He & Hs). exists fe.
  rewrite frame_elements0, frame_element0, frame_selectors0. auto.
Qed.

Lemma filter_detached_not s el r :
  contains (doc s) el = true ->
  r ∈ List.filter (fun fe => negb (contains (doc s) (element (deref s fe))))
        (fixedElements_ s) ->
  element (deref s r) <> el.
Proof.
  intros Hel Hr He. apply list_elem_of_In, filter_In in Hr as [_ Hr].
  rewrite He, Hel in Hr. discriminate.
Qed.

Section Update.

Variable h : Host.

Lemma removeDetached_tracks s el selector :
  contains (doc s) el = true -> tracks s el selector ->
  tracks (finalState (removeDetached s)) el selector.
Proof.
  intros Hel Ht. unfold removeDetached, bind, get.
  apply removeAll_keeps; [|exact Ht].
  intros r Hr. eapply filter_detached_not; eauto.
Qed.

Lemma removeAll_normal toRemove s :
  exists s', removeAll toRemove s = Normal tt s' /\
             objects s' = objects s /\ doc s' = doc s /\
             uncaught s' = uncaught s /\ transfer_ s' = transfer_ s /\
             fixedLayer_ s' = fixedLayer_ s /\ paddingTop_ s' = paddingTop_ s.
Proof.
  revert s. induction toRemove as [|r rest IH]; intros s; simpl.
  - exists s. repeat split.
  - unfold bind, get.
    assert (H : exists s1, removeFixedElement_ (element (deref s r)) s = Normal tt s1 /\
              objects s1 = objects s /\ doc s1 = doc s /\
              uncaught s1 = uncaught s /\ transfer_ s1 = transfer_ s /\
              fixedLayer_ s1 = fixedLayer_ s /\ paddingTop_ s1 = paddingTop_ s).
    { unfold removeFixedElement_. repeat case_match; simpl; eauto 10. }
    destruct H as (s1 & -> & Ho & Hd & Hu & Ht & Hl & Hp).
    destruct (IH s1) as (s' & -> & Ho' & Hd' & Hu' & Ht' & Hl' & Hp').
    exists s'. repeat split; congruence.
Qed.

Lemma removeDetached_normal s :
  exists s', removeDetached s = Normal tt s' /\
             objects s' = objects s /\ doc s' = doc s /\
             uncaught s' = uncaught s /\ transfer_ s' = transfer_ s /\
             fixedLayer_ s' = fixedLayer_ s /\ paddingTop_ s' = paddingTop_ s.
Proof. unfold removeDetached, bind, get. apply removeAll_normal. Qed.

Lemma update_tracks s el selector :
  contains (doc s) el = true -> tracks s el selector ->
  tracks (finalState (update h s)) el selector.
Proof.
  intros Hel Ht. unfold update. unfold bind at 1, get at 1.
  destruct (Nat.eqb _ 0); [exact Ht|].
  unfold bind.
  pose proof (removeDetached_tracks s el selector Hel Ht) as Ht1.
  destruct (removeDetached_normal s) as (s1 & E & _).
  rewrite E in Ht1 |- *. simpl in Ht1.
  eapply frame_tracks; [|exact Ht1].
  apply preserves_frame_cycle, frame_refl.
Qed.

(** [update] never throws: an error of the cycle is caught and thrown again
    from a timer. *)
Lemma update_neverThrows : neverThrows (update h).
Proof.
  intros s. unfold update. unfold bind at 1, get at 1.
  destruct (Nat.eqb _ 0); [reflexivity|].
  unfold bind. destruct (removeDetached_normal s) as (s1 & -> & _).
  unfold tryCatch.
  destruct (vsyncRunPromise (measure h) (mutate h) s1); reflexivity.
Qed.

Lemma addElement_neverThrows el : neverThrows (addElement h el).
Proof.
  intros s. unfold addElement, bind.
  destruct (setupFixedElement_normal el "*" s) as [s1 ->].
  simpl. apply update_neverThrows.
Qed.

Lemma addElement_tracks s el :
  contains (doc s) el = true -> tracks (finalState (addElement h el s)) el "*".
Proof.
  intros Hel. unfold addElement, bind.
  pose proof (setupFixedElement_tracks el "*" s) as Ht.
  pose proof (setupFixedElement_trees el "*" s) as [Htree _].
  destruct (setupFixedElement_normal el "*" s) as [s1 E].
  rewrite E in Ht, Htree |- *. simpl in Ht, Htree.
  simpl. apply update_tracks.
  - simpl. unfold contains in *. rewrite Htree. exact Hel.
  - apply sortInDomOrder_tracks in Ht. exact Ht.
Qed.

Lemma splice1_subseteq {A} (i : nat) (l : list A) x :
  x ∈ splice1 i l -> x ∈ l.
Proof.
  unfold splice1. intros H. apply elem_of_app in H as [H|H].
  - eapply subseteq_take, H.
  - eapply subseteq_drop, H.
Qed.

Lemma removeFixedElement_subseteq x s fe :
  fe ∈ fixedElements_ (finalState (removeFixedElement_ x s)) ->
  fe ∈ fixedElements_ s.
Proof.
  unfold removeFixedElement_. repeat case_match; simpl; auto.
  apply splice1_subseteq.
Qed.

Lemma removeAll_subseteq toRemove s fe :
  fe ∈ fixedElements_ (finalState (removeAll toRemove s)) ->
  fe ∈ fixedElements_ s.
Proof.
  revert s. induction toRemove as [|r rest IH]; intros s; simpl; [auto|].
  unfold bind, get.
  destruct (removeFixedElement_normal_form (element (deref s r)) s) as (s1 & E & _).
  rewrite E. intros H. apply IH in H.
  apply (removeFixedElement_subseteq (element (deref s r)) s).
  rewrite E. exact H.
Qed.

Lemma update_soleSelector s el selector :
  soleSelector s el selector ->
  soleSelector (finalState (update h s)) el selector.
Proof.
  intros Hsole. unfold update. unfold bind at 1, get at 1.
  destruct (Nat.eqb _ 0); [exact Hsole|].
  unfold bind.
  destruct (removeDetached_normal s) as (s1 & E & Ho & _).
  rewrite E.
  assert (Hsole1 : soleSelector s1 el selector).
  { intros fe Hfe. unfold deref. rewrite Ho. apply Hsole.
    unfold removeDetached, bind, get in E.
    eapply removeAll_subseteq. rewrite E. exact Hfe. }
  match goal with |- soleSelector (finalState ?c) _ _ => set (s2 := finalState c) end.
  assert (Hf : frame s1 s2) by apply preserves_frame_cycle, frame_refl.
  destruct Hf.
  intros fe. rewrite frame_elements0, frame_element0, frame_selectors0.
  apply Hsole1.
Qed.

Lemma addElement_soleSelector s el :
  findElement s el (fixedElements_ s) O = None ->
  soleSelector (finalState (addElement h el s)) el "*".
Proof.
  intros Hnew. unfold addElement, bind.
  pose proof (setupFixedElement_sole el "*" s Hnew) as Hsole.
  destruct (setupFixedElement_normal el "*" s) as [s1 E].
  rewrite E in Hsole |- *. simpl in Hsole. simpl.
  apply update_soleSelector.
  intros fe Hfe. simpl in Hfe. rewrite arraySort_Permutation in Hfe.
  apply Hsole, Hfe.
Qed.

Lemma matches_doc el selector s :
  exists b s', matches_ h el selector s = Normal b s' /\
               doc s' = doc s /\ objects s' = objects s /\
               fixedLayer_ s' = fixedLayer_ s.
Proof.
  unfold matches_, bind, get.
  destruct (matcher h (doc s) el) as [m|]; [|eauto 10].
  destruct (m selector) as [b|e]; simpl; eauto 10.
Qed.

Lemma matches_universal el s :
  matchesUniversal h el ->
  exists s', matches_ h el "*" s = Normal true s' /\ s' = s.
Proof.
  intros Hm. unfold matches_, bind, get.
  destruct (Hm (doc s)) as (m & -> & ->). eauto.
Qed.

Lemma someMatches_universal el sels s :
  matchesUniversal h el -> "*" ∈ sels ->
  exists s', someMatches h el sels s = Normal true s' /\
             doc s' = doc s /\ objects s' = objects s.
Proof.
  intros Hm. revert s. induction sels as [|selector rest IH]; intros s Hin.
  - inversion Hin.
  - simpl. unfold bind.
    destruct (matches_doc el selector s) as (b & s1 & E & Hd & Ho & _).
    rewrite E. destruct b; [exists s1; auto|].
    assert (Hrest : "*" ∈ rest).
    { inversion Hin; subst; [|assumption].
      destruct (matches_universal el s Hm) as (s2 & E2 & _). congruence. }
    destruct (IH s1 Hrest) as (s' & -> & Hd' & Ho').
    exists s'. repeat split; congruence.
Qed.

Lemma transferRematch_universal fe s :
  matchesUniversal h (element (deref s fe)) -> "*" ∈ selectors (deref s fe) ->
  exists s', transferRematch h fe s = Normal tt s' /\ doc s' = doc s.
Proof.
  intros Hm Hin. unfold transferRematch. unfold bind at 1, get at 1. unfold bind.
  destruct (someMatches_universal _ _ s Hm Hin) as (s' & -> & Hd & _).
  simpl. exists s'. auto.
Qed.

End Update.

Lemma transferToFixedLayer_universal h fe index state s :
  matchesUniversal h (element (deref s fe)) -> "*" ∈ selectors (deref s fe) ->
  doc (finalState (transferToFixedLayer_ h fe index state s)) =
  if bool_decide (parentElement (doc s) (element (deref s fe)) = fixedLayer_ s)
  then doc s
  else doc (finalState (transferMove fe index state s)).
Proof.
  intros Hm Hin. unfold transferToFixedLayer_. unfold bind at 1, get at 1.
  destruct (bool_decide _); [reflexivity|].
  unfold bind.
  pose proof (preserves_frame_transferMove s fe index state s (frame_refl s)) as Hf.
  destruct (transferMove fe index state s) as [[] s1|e s1]; [|reflexivity].
  simpl in Hf. destruct Hf.
  destruct (transferRematch_universal h fe s1) as (s2 & -> & Hd).
  - rewrite frame_element0. exact Hm.
  - rewrite frame_selectors0. exact Hin.
  - exact Hd.
Qed.

(** C10: [addElement] records the universal selector for the element: an
    element of the document is tracked with ["*"] among its selectors after
    the call, and ["*"] is its only selector when the element was not tracked
    before.  When the host finds a matcher on the element and the matcher
    accepts ["*"], the test at the end of [transferToFixedLayer_] succeeds for
    every object that has ["*"] among its selectors, so that the document is
    left as the move left it. *)
Theorem addElement_universal_selector (h : Host) (s : FixedLayer) (el : node) :
  contains (doc s) el = true ->
  let s' := finalState (addElement h el s) in
  tracks s' el "*" /\
  (findElement s el (fixedElements_ s) O = None -> soleSelector s' el "*") /\
  (forall s1 fe index state,
     element (deref s1 fe) = el -> "*" ∈ selectors (deref s1 fe) ->
     matchesUniversal h el ->
     doc (finalState (transferToFixedLayer_ h fe index state s1)) =
     if bool_decide (parentElement (doc s1) el = fixedLayer_ s1)
     then doc s1
     else doc (finalState (transferMove fe index state s1))).
Proof.
  intros Hel s'. split; [apply addElement_tracks, Hel|].
  split; [apply addElement_soleSelector|].
  intros s1 fe index state <- Hin Hm.
  apply transferToFixedLayer_universal; assumption.
Qed.

(** C10, on an input: the banner of the page is added to a new FixedLayer. *)
Lemma addElement_universal_selector_witness :
  tracks (finalState (addElement browser 3 fresh)) 3 "*".
Proof.
  exact (proj1 (addElement_universal_selector browser fresh 3 eq_refl)).
Defined.

(** C10 as stated fails: when discovery has found the banner under
    [.banner], [addElement] adds ["*"] to the selectors of the banner, after
    [.banner]. *)
Lemma addElement_not_sole_selector :
  let s1 := finalState (setup browser fresh) in
  let s2 := finalState (addElement browser 3 s1) in
  selectors <$> trackerOf s1 3 = Some [".banner"] /\
  selectors <$> trackerOf s2 3 = Some [".banner"; "*"].
Proof. split; vm_compute; reflexivity. Qed.

(* ===================================================================== *)
(** ** The cap of discovery *)
(* ===================================================================== *)

(** The loop over the matches of a selector stops after index 10. *)
Lemma registerMatches_take rest i selector s :
  registerMatches rest i selector s =
  registerEach (take (11 - i) rest) selector s.
Proof.
  revert i s. induction rest as [|el rest IH]; intros i s; simpl.
  - rewrite take_nil. reflexivity.
  - destruct (Nat.ltb_spec 10 i) as [Hi|Hi].
    + replace (11 - i)%nat with O by lia. reflexivity.
    + replace (11 - i)%nat with (S (11 - S i)) by lia. simpl.
      unfold bind. destruct (setupFixedElement_ el selector s); [apply IH|reflexivity].
Qed.

Lemma trackedElements_elem s el :
  el ∈ trackedElements s <->
  exists r, r ∈ fixedElements_ s /\ element (deref s r) = el.
Proof.
  unfold trackedElements. rewrite list_elem_of_In, in_map_iff.
  split; intros (r & H1 & H2); exists r; rewrite ?list_elem_of_In in *; auto.
Qed.

Lemma findElement_untracked s el :
  el ∉ trackedElements s -> findElement s el (fixedElements_ s) O = None.
Proof.
  intros H. apply findElement_None. intros r Hr He. apply H.
  apply trackedElements_elem. eauto.
Qed.

(** A new element goes to the end of the array, with the selector as its
    only selector. *)
Lemma setupFixedElement_fresh el selector s :
  wfRegistry s -> el ∉ trackedElements s ->
  let s' := finalState (setupFixedElement_ el selector s) in
  trackedElements s' = (trackedElements s ++ [el])%list /\ wfRegistry s'.
Proof.
  intros Hwf Hnew. unfold setupFixedElement_.
  rewrite (findElement_untracked s el Hnew). simpl. split.
  - unfold trackedElements. simpl. rewrite map_app. simpl. f_equal.
    + apply map_ext_in. intros r Hr. apply list_elem_of_In, Hwf in Hr.
      unfold deref. simpl. rewrite lookup_total_insert_ne by lia. reflexivity.
    + unfold deref. simpl. rewrite lookup_total_insert_eq. reflexivity.
  - intros r Hr. simpl in *. apply elem_of_app in Hr as [Hr|Hr].
    + apply Hwf in Hr. lia.
    + apply list_elem_of_singleton in Hr. lia.
Qed.

Lemma registerEach_fresh els selector s :
  wfRegistry s -> NoDup els ->
  (forall el, el ∈ els -> el ∉ trackedElements s) ->
  let s' := finalState (registerEach els selector s) in
  trackedElements s' = (trackedElements s ++ els)%list /\ wfRegistry s'.
Proof.
  revert s. induction els as [|el rest IH]; intros s Hwf Hnd Hnew; simpl.
  - rewrite app_nil_r. auto.
  - unfold bind.
    destruct (setupFixedElement_fresh el selector s Hwf) as [Ht Hwf'];
      [apply Hnew; left|].
    destruct (setupFixedElement_normal el selector s) as [s1 E].
    rewrite E in Ht, Hwf' |- *. simpl in Ht, Hwf'.
    apply NoDup_cons in Hnd as [Hel Hnd].
    destruct (IH s1 Hwf' Hnd) as [Ht' Hwf''].
    + intros x Hx. rewrite Ht. intros Hin.
      apply elem_of_app in Hin as [Hin|Hin].
      * apply (Hnew x); [right; exact Hx|exact Hin].
      * apply list_elem_of_singleton in Hin. subst. contradiction.
    + split; [|exact Hwf'']. rewrite Ht', Ht, <- app_assoc. reflexivity.
Qed.

(** Registration keeps what is tracked (with selectors growing). *)
Lemma setupFixedElement_keeps x selector s el sel :
  wfRegistry s -> tracks s el sel ->
  tracks (finalState (setupFixedElement_ x selector s)) el sel.
Proof.
  intros Hwf (fe & Hfe & He & Hs). unfold setupFixedElement_.
  destruct (findElement s x (fixedElements_ s) O) as [[i fe']|] eqn:E; simpl.
  - exists fe. rewrite deref_withObjects_insert.
    destruct (decide (fe' = fe)) as [->|Hne]; simpl; repeat split; auto.
    apply elem_of_app. left. exact Hs.
  - exists fe. unfold deref. simpl.
    rewrite lookup_total_insert_ne by (apply Hwf in Hfe; lia).
    repeat split; auto. apply elem_of_app. left. exact Hfe.
Qed.

Lemma setupFixedElement_wf x selector s :
  wfRegistry s -> wfRegistry (finalState (setupFixedElement_ x selector s)).
Proof.
  intros Hwf. unfold setupFixedElement_.
  destruct (findElement s x (fixedElements_ s) O) as [[i fe']|] eqn:E; simpl.
  - exact Hwf.
  - intros r Hr. simpl in *. apply elem_of_app in Hr as [Hr|Hr].
    + apply Hwf in Hr. lia.
    + apply list_elem_of_singleton in Hr. lia.
Qed.

Lemma registerEach_keeps els selector s el sel :
  wfRegistry s -> tracks s el sel ->
  tracks (finalState (registerEach els selector s)) el sel.
Proof.
  revert s. induction els as [|y rest IH]; intros s Hwf Ht; simpl; [exact Ht|].
  unfold bind.
  pose proof (setupFixedElement_keeps y selector s el sel Hwf Ht) as Ht'.
  pose proof (setupFixedElement_wf y selector s Hwf) as Hwf'.
  destruct (setupFixedElement_normal y selector s) as [s1 E].
  rewrite E in Ht', Hwf' |- *. simpl in Ht', Hwf'.
  apply IH; assumption.
Qed.

Lemma registerEach_tracks els selector s el :
  wfRegistry s -> el ∈ els ->
  tracks (finalState (registerEach els selector s)) el selector.
Proof.
  revert s. induction els as [|x rest IH]; intros s Hwf Hin; simpl.
  - inversion Hin.
  - unfold bind.
    pose proof (setupFixedElement_tracks x selector s) as Ht.
    pose proof (setupFixedElement_wf x selector s Hwf) as Hwf'.
    destruct (setupFixedElement_normal x selector s) as [s1 E].
    rewrite E in Ht, Hwf' |- *. simpl in Ht, Hwf'.
    apply elem_of_cons in Hin as [->|Hin].
    + apply registerEach_keeps; assumption.
    + apply IH; assumption.
Qed.



(** [setup] on the list page: of the fifteen items that [.item] matches, the
    first eleven are tracked. *)
Example setup_caps_fifteen :
  trackedElements (finalState (setup listBrowser (constructor listPage 0 true))) =
  seq 2 11.
Proof. vm_compute. reflexivity. Qed.

(* ===================================================================== *)
(** ** Properties that the mutation of one element keeps *)
(* ===================================================================== *)

(** The methods below [mutateFixedElement_] change the state in four ways
    only: they change the trees, inline styles and attributes of the
    document, report an error, record a placeholder and record the fixed
    layer.  A property that none of these breaks holds after such a method
    when it held before. *)
Section Stable.

Variable h : Host.
Variable P : FixedLayer -> Prop.

Hypothesis P_doc : forall s d,
  P s -> body d = body (doc s) -> classNames d = classNames (doc s) ->
  P (withDoc d s).
Hypothesis P_uncaught : forall s u, P s -> P (withUncaught u s).
Hypothesis P_layer : forall s l, P s -> P (withFixedLayer l s).
Hypothesis P_placeholder : forall s fe p,
  P s -> P (finalState (setPlaceholder fe p s)).

Lemma stable_modifyDoc (f : Document -> Document) :
  (forall d, body (f d) = body d /\ classNames (f d) = classNames d) ->
  preserves P (modifyDoc f).
Proof.
  intros Hf. apply preserves_modify. intros s Hs.
  destruct (Hf (doc s)). apply P_doc; auto.
Qed.

Lemma stable_putStyle n prop value : preserves P (modifyDoc (putStyle n prop value)).
Proof. apply stable_modifyDoc. intros d. split; reflexivity. Qed.

Lemma stable_setStyle n prop value : preserves P (setStyle n prop value).
Proof. apply stable_putStyle. Qed.

Lemma stable_setAttribute n name value :
  preserves P (modifyDoc (setAttribute n name value)).
Proof. apply stable_modifyDoc. intros d. split; reflexivity. Qed.

Lemma stable_setStyles n styles : preserves P (setStyles n styles).
Proof.
  induction styles as [|[prop value] rest IH]; simpl.
  - apply preserves_ret.
  - apply preserves_bind; [apply stable_setStyle|intros _; exact IH].
Qed.

Lemma stable_domCall (f : Document -> Fallible Document) :
  (forall d d', f d = Returns d' -> sameButTrees d d') ->
  preserves P (domCall f).
Proof.
  intros Hf. apply preserves_domCall. intros s d Hs E.
  apply Hf in E. apply P_doc; auto; rewrite E; reflexivity.
Qed.

Lemma stable_appendChild p c : preserves P (domCall (appendChild p c)).
Proof. apply stable_domCall. intros d d'. apply appendChild_sameButTrees. Qed.

Lemma stable_setTimeoutThrow e : preserves P (setTimeoutThrow e).
Proof. apply preserves_modify. intros s Hs. apply P_uncaught, Hs. Qed.

Lemma stable_setPlaceholder fe p : preserves P (setPlaceholder fe p).
Proof. intros s Hs. apply P_placeholder, Hs. Qed.

Lemma stable_docCreateElement : preserves P docCreateElement.
Proof.
  intros s Hs. unfold docCreateElement. simpl. apply P_doc; auto.
Qed.

Lemma stable_viaParentElement n call :
  (forall parent d d', call parent d = Returns d' -> sameButTrees d d') ->
  preserves P (viaParentElement n call).
Proof.
  intros Hc. unfold viaParentElement. preserves_struct.
  apply stable_domCall, Hc.
Qed.

Lemma stable_getFixedLayer_ : preserves P getFixedLayer_.
Proof.
  unfold getFixedLayer_. preserves_struct;
    auto using stable_docCreateElement, stable_setAttribute, stable_setStyles,
      stable_appendChild.
  apply preserves_modify. intros s Hs. apply P_layer, Hs.
Qed.

Lemma stable_returnFromFixedLayer_ fe : preserves P (returnFromFixedLayer_ fe).
Proof.
  unfold returnFromFixedLayer_. preserves_struct; auto using stable_putStyle.
  all: apply stable_viaParentElement; intros parent d d';
    first [apply replaceChild_sameButTrees | apply removeChild_sameButTrees].
Qed.

Lemma stable_matches_ el selector : preserves P (matches_ h el selector).
Proof. unfold matches_. preserves_struct; auto using stable_setTimeoutThrow. Qed.

Lemma stable_someMatches el sels : preserves P (someMatches h el sels).
Proof.
  induction sels as [|selector rest IH]; simpl.
  - apply preserves_ret.
  - apply preserves_bind; [apply stable_matches_|].
    intros []; [apply preserves_ret|exact IH].
Qed.

Lemma stable_transferMove fe index state :
  preserves P (transferMove fe index state).
Proof.
  unfold transferMove. preserves_struct;
    auto using stable_setStyle, stable_docCreateElement, stable_setPlaceholder,
      stable_setAttribute, stable_putStyle, stable_getFixedLayer_,
      stable_appendChild.
  all: apply stable_viaParentElement; intros parent d d';
    apply replaceChild_sameButTrees.
Qed.

Lemma stable_transferRematch fe : preserves P (transferRematch h fe).
Proof.
  unfold transferRematch. preserves_struct;
    auto using stable_someMatches, stable_returnFromFixedLayer_.
Qed.

Lemma stable_transferToFixedLayer_ fe index state :
  preserves P (transferToFixedLayer_ h fe index state).
Proof.
  unfold transferToFixedLayer_. preserves_struct;
    auto using stable_transferMove, stable_transferRematch.
Qed.

(** What [mutateFixedElement_] does after it has recorded the new
    [fixedNow]. *)
Lemma stable_after_setFixedNow fe index state s0 :
  preserves P
    (if fixed state then
       bind (if truthy (top state)
             then modifyDoc (putStyle (element (deref s0 fe)) "top"
                               (adjustedTop state (paddingTop_ s0)))
             else ret tt)
         (fun _ =>
            if transfer_ s0 then
              if transferrable state then transferToFixedLayer_ h fe index state
              else returnFromFixedLayer_ (ArgFixedElement fe)
            else ret tt)
     else
       bind (if truthy (getStyle (doc s0) (element (deref s0 fe)) "top")
             then modifyDoc (putStyle (element (deref s0 fe)) "top" "")
             else ret tt)
         (fun _ => returnFromFixedLayer_ (ArgFixedElement fe))).
Proof.
  preserves_struct;
    auto using stable_putStyle, stable_transferToFixedLayer_,
      stable_returnFromFixedLayer_.
Qed.

End Stable.

(* ===================================================================== *)
(** ** The latch *)
(* ===================================================================== *)

Section Latch.

Variable h : Host.

(** No work for an element whose fixed state is the recorded one. *)
Lemma mutateFixedElement_latched fe index m s :
  fixedNow (deref s fe) = Some (fixed m) ->
  mutateFixedElement_ h fe index m s = Normal tt s.
Proof.
  intros H. unfold mutateFixedElement_. unfold bind at 1, get at 1.
  rewrite bool_decide_eq_true_2 by exact H. reflexivity.
Qed.

Lemma setFixedNow_other fe b s r :
  r <> fe ->
  fixedNow (deref (finalState (setFixedNow fe b s)) r) = fixedNow (deref s r).
Proof.
  intros Hne. simpl. rewrite deref_withObjects_insert.
  destruct (decide (fe = r)); [congruence|reflexivity].
Qed.

Lemma setPlaceholder_fixedNow fe p s r :
  fixedNow (deref (finalState (setPlaceholder fe p s)) r) = fixedNow (deref s r).
Proof.
  simpl. rewrite deref_withObjects_insert.
  destruct (decide (fe = r)); subst; reflexivity.
Qed.

(** Whatever follows the assignment to [fe.fixedNow] keeps the [fixedNow] of
    every object. *)
Lemma after_setFixedNow_keeps fe index m s0 r v :
  preserves (fun s => fixedNow (deref s r) = v)
    (if fixed m then
       bind (if truthy (top m)
             then modifyDoc (putStyle (element (deref s0 fe)) "top"
                               (adjustedTop m (paddingTop_ s0)))
             else ret tt)
         (fun _ =>
            if transfer_ s0 then
              if transferrable m then transferToFixedLayer_ h fe index m
              else returnFromFixedLayer_ (ArgFixedElement fe)
            else ret tt)
     else
       bind (if truthy (getStyle (doc s0) (element (deref s0 fe)) "top")
             then modifyDoc (putStyle (element (deref s0 fe)) "top" "")
             else ret tt)
         (fun _ => returnFromFixedLayer_ (ArgFixedElement fe))).
Proof.
  apply stable_after_setFixedNow; auto.
  intros s fe' p Hs. rewrite setPlaceholder_fixedNow. exact Hs.
Qed.

Lemma mutateFixedElement_other fe index m s r :
  r <> fe ->
  fixedNow (deref (finalState (mutateFixedElement_ h fe index m s)) r) =
  fixedNow (deref s r).
Proof.
  intros Hne. unfold mutateFixedElement_. unfold bind at 1, get at 1.
  destruct (bool_decide _); [reflexivity|].
  unfold bind at 1.
  change (setFixedNow fe (fixed m) s) with
    (Normal tt (finalState (setFixedNow fe (fixed m) s))).
  cbv iota beta.
  apply (after_setFixedNow_keeps fe index m s r).
  apply setFixedNow_other, Hne.
Qed.

Lemma mutateFixedElement_sets fe index m s :
  fixedNow (deref (finalState (mutateFixedElement_ h fe index m s)) fe) =
  Some (fixed m).
Proof.
  unfold mutateFixedElement_. unfold bind at 1, get at 1.
  destruct (bool_decide _) eqn:E; [apply bool_decide_eq_true in E; exact E|].
  unfold bind at 1.
  change (setFixedNow fe (fixed m) s) with
    (Normal tt (finalState (setFixedNow fe (fixed m) s))).
  cbv iota beta.
  apply (after_setFixedNow_keeps fe index m s fe).
  simpl. rewrite deref_withObjects_insert, decide_True by reflexivity.
  reflexivity.
Qed.

Lemma frame_mutateEach st fe i s :
  frame s (finalState (mutateEach h st fe i s)).
Proof. apply preserves_frame_mutateEach, frame_refl. Qed.

(** One step of the loop latches its element and keeps the latches of the
    others. *)
Lemma mutateEach_latches st fe i s r :
  is_Some (state st !! id (deref s fe)) ->
  (r = fe \/ latchedFor st s r) ->
  latchedFor st (finalState (mutateEach h st fe i s)) r.
Proof.
  intros [m Hm] Hr.
  pose proof (frame_mutateEach st fe i s) as Hf.
  unfold latchedFor. rewrite (frame_id _ _ Hf).
  unfold mutateEach in *. unfold bind at 1, get at 1.
  unfold bind at 1, get at 1 in Hf. rewrite Hm in *.
  destruct (decide (r = fe)) as [->|Hne].
  - exists m. split; [exact Hm|apply mutateFixedElement_sets].
  - destruct Hr as [Hr|(m' & Hm' & Hnow)]; [contradiction|].
    exists m'. split; [exact Hm'|].
    rewrite mutateFixedElement_other by exact Hne. exact Hnow.
Qed.

Lemma forEachFrom_S count i (f : ref -> nat -> JS unit) s :
  forEachFrom (S count) i f s =
  match fixedElements_ s !! i with
  | Some fe => bind (f fe i) (fun _ => forEachFrom count (S i) f) s
  | None => forEachFrom count (S i) f s
  end.
Proof.
  simpl. unfold bind at 1, get at 1.
  destruct (fixedElements_ s !! i); reflexivity.
Qed.

Lemma forEachFrom_latches st count i s :
  (forall r, r ∈ fixedElements_ s -> is_Some (state st !! id (deref s r))) ->
  (forall k r, (k < i)%nat -> fixedElements_ s !! k = Some r -> latchedFor st s r) ->
  let c := forEachFrom count i (mutateEach h st) s in
  threw c = false ->
  forall k r, (k < i + count)%nat -> fixedElements_ s !! k = Some r ->
              latchedFor st (finalState c) r.
Proof.
  revert i s. induction count as [|count IH]; intros i s Hsome Hbefore c Hc k r Hk Hr.
  - simpl. apply (Hbefore k); [lia|exact Hr].
  - subst c. rewrite forEachFrom_S in Hc |- *.
    destruct (fixedElements_ s !! i) as [fe|] eqn:Hi.
    + unfold bind in Hc |- *.
      pose proof (frame_mutateEach st fe i s) as Hf.
      assert (Hfe : is_Some (state st !! id (deref s fe))).
      { apply Hsome. eapply list_elem_of_lookup_2, Hi. }
      pose proof (fun r' H => mutateEach_latches st fe i s r' Hfe H) as Hstep.
      destruct (mutateEach h st fe i s) as [[] s1|e s1]; [|discriminate].
      simpl in Hf, Hstep.
      refine (IH (S i) s1 _ _ Hc k r _ _).
      * intros r' Hr'. rewrite (frame_elements _ _ Hf) in Hr'.
        rewrite (frame_id _ _ Hf). apply Hsome, Hr'.
      * intros k' r' Hk' Hr'. rewrite (frame_elements _ _ Hf) in Hr'.
        apply Hstep.
        destruct (decide (k' = i)) as [->|Hne].
        -- left. congruence.
        -- right. apply (Hbefore k'); [lia|exact Hr'].
      * lia.
      * rewrite (frame_elements _ _ Hf). exact Hr.
    + refine (IH (S i) s Hsome _ Hc k r _ Hr); [|lia].
      intros k' r' Hk' Hr'. apply (Hbefore k'); [|exact Hr'].
      destruct (decide (k' = i)) as [->|Hne]; [congruence|lia].
Qed.

(** The loop does nothing when every latch holds. *)
Lemma forEachFrom_latched st count i s :
  (forall r, r ∈ fixedElements_ s -> latchedFor st s r) ->
  forEachFrom count i (mutateEach h st) s = Normal tt s.
Proof.
  intros Hl. revert i. induction count as [|count IH]; intros i; [reflexivity|].
  rewrite forEachFrom_S.
  destruct (fixedElements_ s !! i) as [fe|] eqn:Hi; [|apply IH].
  unfold bind.
  destruct (Hl fe) as (m & Hm & Hnow); [eapply list_elem_of_lookup_2, Hi|].
  unfold mutateEach at 1. unfold bind at 1, get at 1. rewrite Hm.
  rewrite mutateFixedElement_latched by exact Hnow. apply IH.
Qed.

End Latch.

(* ===================================================================== *)
(** ** A second cycle *)
(* ===================================================================== *)

Section Idempotent.

Variable h : Host.

Lemma measure_fold s :
  measure h s =
  Normal (fold_left (measureStep h s) (fixedElements_ s)
            {| state := ∅; hasTransferables := false |}) s.
Proof. reflexivity. Qed.

Lemma measureStep_fold_covers s l acc :
  let st := fold_left (measureStep h s) l acc in
  (forall key, is_Some (state acc !! key) -> is_Some (state st !! key)) /\
  (forall r, r ∈ l -> is_Some (state st !! id (deref s r))).
Proof.
  revert acc. induction l as [|fe l IH]; intros acc; simpl.
  - split; [auto|]. intros r Hr. inversion Hr.
  - destruct (IH (measureStep h s acc fe)) as [Hkeep Hcover]. split.
    + intros key Hkey. apply Hkeep. simpl.
      rewrite lookup_insert. case_decide; [eauto|exact Hkey].
    + intros r Hr. apply elem_of_cons in Hr as [->|Hr]; [|apply Hcover, Hr].
      apply Hkeep. simpl. rewrite lookup_insert_eq. eauto.
Qed.

(** Two runs of the measure loop over the same objects, on documents in which
    the host reports the same fixed flags. *)
Lemma measureStep_fold_related s1 s2 l acc1 acc2 :
  (forall r, r ∈ l -> id (deref s2 r) = id (deref s1 r)) ->
  (forall r, r ∈ l ->
     sameFixed (measureElement h (doc s1) (element (deref s1 r)))
               (measureElement h (doc s2) (element (deref s2 r)))) ->
  sameFixedStates acc1 acc2 ->
  sameFixedStates (fold_left (measureStep h s1) l acc1)
                  (fold_left (measureStep h s2) l acc2).
Proof.
  revert acc1 acc2. induction l as [|fe l IH]; intros acc1 acc2 Hid Hm Hacc; simpl.
  - exact Hacc.
  - apply IH.
    + intros r Hr. apply Hid. right. exact Hr.
    + intros r Hr. apply Hm. right. exact Hr.
    + destruct Hacc as [Hstate Hhas].
      destruct (Hm fe) as [Hfix Htr]; [left|].
      split; simpl.
      * intros key. rewrite (Hid fe) by left. rewrite !lookup_insert.
        case_decide; [constructor; split; assumption|apply Hstate].
      * rewrite !orb_true_iff. intros [H|H]; [left; apply Hhas, H|right; apply Htr, H].
Qed.

(** *** The start of the mutate callback *)

Lemma getFixedLayer_existing s layer :
  fixedLayer_ s = Some layer -> getFixedLayer_ s = Normal (Some layer) s.
Proof.
  intros H. unfold getFixedLayer_. unfold bind at 1, get at 1.
  rewrite H. rewrite (bool_decide_eq_true_2 (is_Some (Some layer))) by eauto.
  rewrite orb_true_r. reflexivity.
Qed.

Lemma getFixedLayer_result s s' l :
  getFixedLayer_ s = Normal l s' -> fixedLayer_ s' = l.
Proof.
  unfold getFixedLayer_. unfold bind at 1, get at 1.
  destruct (negb (transfer_ s) || bool_decide (is_Some (fixedLayer_ s)));
    [intros [= <- <-]; reflexivity|].
  intros H.
  apply bind_normal_inv in H as (layer & s1 & _ & H).
  apply bind_normal_inv in H as ([] & s2 & E2 & H).
  apply bind_normal_inv in H as ([] & s3 & E3 & H).
  apply bind_normal_inv in H as ([] & s4 & E4 & H).
  apply bind_normal_inv in H as (s5 & s5' & E5 & H).
  apply bind_normal_inv in H as ([] & s6 & E6 & H).
  injection E2 as <-. injection E5 as <- <-. injection H as <- <-.
  assert (H2 : fixedLayer_ (withFixedLayer (Some layer) s1) = Some layer)
    by reflexivity.
  pose proof (preserves_normal (fun s => fixedLayer_ s = Some layer) _ _ _ _
                (stable_setAttribute (fun s => fixedLayer_ s = Some layer)
                   (fun _ _ H _ _ => H) _ _ _) H2 E3) as H3.
  pose proof (preserves_normal (fun s => fixedLayer_ s = Some layer) _ _ _ _
                (stable_setStyles (fun s => fixedLayer_ s = Some layer)
                   (fun _ _ H _ _ => H) _ _) H3 E4) as H4.
  exact (preserves_normal (fun s => fixedLayer_ s = Some layer) _ _ _ _
           (stable_appendChild (fun s => fixedLayer_ s = Some layer)
              (fun _ _ H _ _ => H) _ _) H4 E6).
Qed.

Lemma prepareFixedLayer_post st s s' :
  prepareFixedLayer st s = Normal tt s' ->
  hasTransferables st && transfer_ s = true ->
  exists layer, fixedLayer_ s' = Some layer /\
    getClassName (doc s') layer = getClassName (doc s') (body (doc s')).
Proof.
  unfold prepareFixedLayer. unfold bind at 1, get at 1. intros H Hc.
  rewrite Hc in H. unfold bind at 1 in H.
  destruct (getFixedLayer_ s) as [[layer|] s1|] eqn:E; try discriminate.
  apply getFixedLayer_result in E.
  unfold bind at 1, get at 1 in H.
  exists layer.
  destruct (String.eqb_spec (getClassName (doc s1) layer)
              (getClassName (doc s1) (body (doc s1)))) as [Heq|Hne]; simpl in H.
  - injection H as <-. auto.
  - injection H as <-. simpl. split; [exact E|].
    unfold getClassName; simpl. rewrite lookup_insert_eq. simpl.
    rewrite lookup_insert. case_decide; reflexivity.
Qed.

Lemma prepareFixedLayer_noop st s :
  (hasTransferables st && transfer_ s = true ->
   exists layer, fixedLayer_ s = Some layer /\
     getClassName (doc s) layer = getClassName (doc s) (body (doc s))) ->
  prepareFixedLayer st s = Normal tt s.
Proof.
  intros H. unfold prepareFixedLayer. unfold bind at 1, get at 1.
  destruct (hasTransferables st && transfer_ s); [|reflexivity].
  destruct H as (layer & Hl & Hc); [reflexivity|].
  unfold bind at 1. rewrite (getFixedLayer_existing s layer Hl).
  unfold bind at 1, get at 1. rewrite Hc, String.eqb_refl. reflexivity.
Qed.

(** The loop of the mutate callback does not touch class names. *)
Lemma classNames_mutateFixedElement_ fe index m C :
  preserves (fun s => classNames (doc s) = C) (mutateFixedElement_ h fe index m).
Proof.
  unfold mutateFixedElement_. apply preserves_bind; [apply preserves_get|].
  intros s0. destruct (bool_decide _); [apply preserves_ret|].
  apply preserves_bind; [apply preserves_modify; auto|]. intros _.
  apply stable_after_setFixedNow; auto.
  intros s d Hs _ Hd. simpl. congruence.
Qed.

Lemma classNames_forEachFrom st count i C :
  preserves (fun s => classNames (doc s) = C)
    (forEachFrom count i (mutateEach h st)).
Proof.
  revert i. induction count as [|count IH]; intros i; simpl.
  - apply preserves_ret.
  - preserves_struct; auto. unfold mutateEach. preserves_struct.
    apply classNames_mutateFixedElement_.
Qed.

Lemma frame_forEachFrom st count i s :
  frame s (finalState (forEachFrom count i (mutateEach h st) s)).
Proof.
  apply preserves_frame_forEachFrom; [|apply frame_refl].
  intros. apply preserves_frame_mutateEach.
Qed.

Lemma removeDetached_all_contained s :
  (forall fe, fe ∈ fixedElements_ s ->
     contains (doc s) (element (deref s fe)) = true) ->
  removeDetached s = Normal tt s.
Proof.
  intros H. unfold removeDetached. unfold bind, get.
  replace (List.filter _ (fixedElements_ s)) with (@nil ref); [reflexivity|].
  symmetry. induction (fixedElements_ s) as [|fe l IH]; [reflexivity|].
  simpl. rewrite H by left. simpl. apply IH.
  intros fe' Hfe'. apply H. right. exact Hfe'.
Qed.

(** A cycle that ended without an error has latched every tracked object. *)
Lemma mutate_latches st s s1 :
  (forall r, r ∈ fixedElements_ s -> is_Some (state st !! id (deref s r))) ->
  mutate h st s = Normal tt s1 ->
  frame s s1 /\
  (forall r, r ∈ fixedElements_ s1 -> latchedFor st s1 r) /\
  (hasTransferables st && transfer_ s = true ->
   exists layer, fixedLayer_ s1 = Some layer /\
     getClassName (doc s1) layer = getClassName (doc s1) (body (doc s1))).
Proof.
  intros Hsome H. unfold mutate in H.
  apply bind_normal_inv in H as ([] & sp & Ep & H).
  unfold forEachFixedElement in H. unfold bind at 1, get at 1 in H.
  assert (Hf1 : frame s sp).
  { eapply (preserves_normal (frame s)); [apply preserves_frame_prepareFixedLayer| |exact Ep].
    apply frame_refl. }
  pose proof (frame_forEachFrom st (List.length (fixedElements_ sp)) O sp) as Hf2.
  pose proof (forEachFrom_latches h st (List.length (fixedElements_ sp)) O sp) as Hl.
  pose proof (classNames_forEachFrom st (List.length (fixedElements_ sp)) O
                (classNames (doc sp)) sp eq_refl) as Hc.
  rewrite H in Hf2, Hl, Hc. simpl in Hf2, Hl, Hc.
  split; [eapply frame_trans; eassumption|]. split.
  - intros r Hr. rewrite (frame_elements _ _ Hf2) in Hr.
    apply list_elem_of_lookup_1 in Hr as [k Hk].
    apply (Hl) with (k := k); auto.
    + intros r' Hr'. rewrite (frame_id _ _ Hf1).
      apply Hsome. rewrite <- (frame_elements _ _ Hf1). exact Hr'.
    + intros k' r' Hk'. lia.
    + apply lookup_lt_Some in Hk. lia.
  - intros Hhas. destruct (prepareFixedLayer_post st s sp Ep Hhas) as (layer & Hlayer & Hclass).
    exists layer. split; [apply (frame_layer _ _ Hf2), Hlayer|].
    unfold getClassName in *. rewrite Hc, (frame_body _ _ Hf2). exact Hclass.
Qed.

(** A cycle is without effect when every latch holds and the fixed layer,
    if the cycle asks for it, is there with the class of the body. *)
Lemma mutate_latched st s :
  (forall r, r ∈ fixedElements_ s -> latchedFor st s r) ->
  (hasTransferables st && transfer_ s = true ->
   exists layer, fixedLayer_ s = Some layer /\
     getClassName (doc s) layer = getClassName (doc s) (body (doc s))) ->
  mutate h st s = Normal tt s.
Proof.
  intros Hl Hp. unfold mutate, bind. rewrite prepareFixedLayer_noop by exact Hp.
  unfold forEachFixedElement, get. apply forEachFrom_latched, Hl.
Qed.

Lemma update_empty s : fixedElements_ s = [] -> update h s = Normal tt s.
Proof.
  intros H. unfold update. unfold bind at 1, get at 1. rewrite H. reflexivity.
Qed.

Lemma update_nonempty s s' :
  fixedElements_ s <> [] -> removeDetached s = Normal tt s' ->
  update h s =
  tryCatch
    (mutate h (fold_left (measureStep h s') (fixedElements_ s')
                 {| state := ∅; hasTransferables := false |}))
    setTimeoutThrow s'.
Proof.
  intros Hne E. unfold update. unfold bind at 1, get at 1.
  destruct (fixedElements_ s) as [|fe l] eqn:El; [contradiction|].
  cbn [List.length Nat.eqb]. unfold bind at 1. rewrite E.
  unfold tryCatch, vsyncRunPromise. unfold bind at 1. rewrite measure_fold.
  reflexivity.
Qed.

End Idempotent.



(** The first cycle of the example did move the banner. *)
Example first_cycle_transfers :
  documentElement (doc (finalState (update browser registered))) =
  Node 0 [Node 1 [Node 2 [Node 6 []]; Node 4 []]; Node 5 [Node 3 []]].
Proof. vm_compute. reflexivity. Qed.

(* ===================================================================== *)
(** ** Errors *)
(* ===================================================================== *)

Section Errors.

Variable h : Host.

Lemma updatePaddingTop_neverThrows p : neverThrows (updatePaddingTop h p).
Proof. intros s. unfold updatePaddingTop, bind. simpl. apply update_neverThrows. Qed.

Lemma removeElement_neverThrows el : neverThrows (removeElement el).
Proof.
  intros s. unfold removeElement, bind.
  destruct (removeFixedElement_normal_form el s) as (s1 & -> & _).
  unfold get. destruct (bool_decide _); [|reflexivity].
  unfold vsyncMutate, tryCatch.
  destruct (returnFromFixedLayer_ (ArgElement el) s1); reflexivity.
Qed.

(** Discovery does not change the state; it throws when the rules of a sheet
    cannot be read, and only then. *)
Lemma discoverAll_cases sheets found s :
  (exists sels, discoverAll sheets found s = Normal sels s) \/
  (exists e sheet, discoverAll sheets found s = Throw e s /\ sheet ∈ sheets /\
                   skipsStyleSheet sheet = false /\ sheetRules sheet = Raises e).
Proof.
  revert found. induction sheets as [|sheet rest IH]; intros found; simpl.
  - left. eauto.
  - destruct (skipsStyleSheet sheet) eqn:Hskip.
    + destruct (IH found) as [H|(e & sh & H1 & H2 & H3)]; [left; exact H|].
      destruct H3 as [H3 H4].
      right. exists e, sh. split; [exact H1|]. split; [right; exact H2|]. auto.
    + destruct (sheetRules sheet) as [rules|e] eqn:Hrules.
      * destruct (IH (discoverFixedSelectors_ rules found))
          as [H|(e & sh & H1 & H2 & H3)]; [left; exact H|].
        destruct H3 as [H3 H4].
        right. exists e, sh. split; [exact H1|]. split; [right; exact H2|]. auto.
      * right. exists e, sheet. split; [reflexivity|]. split; [left|]. auto.
Qed.

Lemma setup_after_discovery s sheets sels :
  styleSheets (doc s) = Some sheets ->
  discoverAll sheets [] s = Normal sels s ->
  setup h s =
  bind (tryCatch (registerSelectors h sels) setTimeoutThrow)
       (fun _ => bind sortInDomOrder_ (fun _ => update h)) s.
Proof.
  intros Hs Hd. unfold setup. unfold bind at 1, get at 1. rewrite Hs.
  unfold bind at 1. rewrite Hd. reflexivity.
Qed.

Lemma setup_readable_neverThrows s :
  readableSheets (doc s) -> threw (setup h s) = false.
Proof.
  intros Hr. destruct (styleSheets (doc s)) as [sheets|] eqn:Hs.
  2:{ unfold setup. unfold bind at 1, get at 1. rewrite Hs. reflexivity. }
  destruct (discoverAll_cases sheets [] s) as [[sels Hd]|(e & sheet & _ & Hin & Hskip & Hraise)].
  - rewrite (setup_after_discovery s sheets sels Hs Hd).
    unfold bind at 1, tryCatch.
    destruct (registerSelectors h sels s) as [[] s1|e s1]; simpl;
      unfold bind; simpl; apply update_neverThrows.
  - destruct (Hr sheets sheet Hs Hin Hskip) as [rules Hrules]. congruence.
Qed.

Lemma update_uncaught s :
  uncaught s `prefix_of` uncaught (finalState (update h s)).
Proof.
  destruct (decide (fixedElements_ s = [])) as [Hempty|Hne].
  { rewrite (update_empty h s Hempty). reflexivity. }
  destruct (removeDetached_normal s) as (s' & E & _ & _ & Hu & _).
  rewrite (update_nonempty h s s' Hne E), <- Hu.
  apply frame_uncaught.
  apply (preserves_tryCatch (frame s')); [apply preserves_frame_mutate| |apply frame_refl].
  intros e. apply preserves_frame_setTimeoutThrow.
Qed.

(** An error of the registration loop of [setup] is reported from a timer,
    and the rest of [setup] runs. *)
Lemma setup_reports_query_error s sheets sels e s1 :
  styleSheets (doc s) = Some sheets ->
  discoverAll sheets [] s = Normal sels s ->
  registerSelectors h sels s = Throw e s1 ->
  threw (setup h s) = false /\ e ∈ uncaught (finalState (setup h s)).
Proof.
  intros Hs Hd Hq.
  assert (E : setup h s =
              update h (finalState (sortInDomOrder_
                                      (withUncaught (uncaught s1 ++ [e]) s1)))).
  { rewrite (setup_after_discovery s sheets sels Hs Hd).
    unfold bind at 1, tryCatch. rewrite Hq. reflexivity. }
  rewrite E. split; [apply update_neverThrows|].
  eapply elem_of_prefix; [|apply update_uncaught].
  simpl. apply elem_of_app. right. left.
Qed.

(** An error of the cycle is reported from a timer, last. *)
Lemma update_reports_cycle_error s s' e s1 :
  fixedElements_ s <> [] ->
  removeDetached s = Normal tt s' ->
  vsyncRunPromise (measure h) (mutate h) s' = Throw e s1 ->
  update h s = Normal tt (withUncaught (uncaught s1 ++ [e]) s1).
Proof.
  intros Hne E Hc. rewrite (update_nonempty h s s' Hne E).
  unfold vsyncRunPromise, bind in Hc. rewrite measure_fold in Hc.
  unfold tryCatch. rewrite Hc. reflexivity.
Qed.

(** An error of the matcher is reported from a timer and counts as no
    match. *)
Lemma matches_reports el selector s m e :
  matcher h (doc s) el = Some m -> m selector = Raises e ->
  matches_ h el selector s = Normal false (withUncaught (uncaught s ++ [e]) s).
Proof.
  intros Hm He. unfold matches_, bind, get. rewrite Hm, He. reflexivity.
Qed.

End Errors.




(** After the selector that the browser rejects, the selector of the banner
    is not tried: nothing is tracked. *)
Example rejected_selector_ends_registration :
  fixedElements_ (finalState (setup strictBrowser
                                (constructor badSelectorPage 0 true))) = [].
Proof. vm_compute. reflexivity. Qed.

(* ===================================================================== *)
(** ** Removal and the reserved inset *)
(* ===================================================================== *)

(** [returnFromFixedLayer_] does nothing when it is given an element instead
    of a [FixedElementDef]: the element has no [placeholder]. *)
Lemma returnFromFixedLayer_element el s :
  returnFromFixedLayer_ (ArgElement el) s = Normal tt s.
Proof. reflexivity. Qed.

(** [removeElement] never changes the document. *)
Lemma removeElement_keeps_document el s :
  doc (finalState (removeElement el s)) = doc s.
Proof.
  unfold removeElement, bind.
  destruct (removeFixedElement_normal_form el s) as (s1 & -> & _ & Hd).
  unfold get. destruct (bool_decide _); [|exact Hd].
  unfold vsyncMutate, tryCatch. rewrite returnFromFixedLayer_element. exact Hd.
Qed.

(** C1 fails on the code: after the banner was moved to the fixed layer,
    [removeElement] takes it out of the registry and leaves the document as
    it is, the banner in the fixed layer (node 5) and its placeholder (node
    6) in the [div]. *)
Theorem removeElement_leaves_placeholder :
  documentElement (doc transferred) =
    Node 0 [Node 1 [Node 2 [Node 6 []]; Node 4 []]; Node 5 [Node 3 []]] /\
  let s := finalState (removeElement 3 transferred) in
  fixedElements_ s = [] /\
  uncaught s = [] /\
  documentElement (doc s) =
    Node 0 [Node 1 [Node 2 [Node 6 []]; Node 4 []]; Node 5 [Node 3 []]].
Proof. repeat split; vm_compute; reflexivity. Qed.

(** The same for an element that has left the document: when a script of the
    page takes the banner out of the fixed layer, the next cycle takes it out
    of the registry and leaves its placeholder in the [div]. *)
Example detached_element_leaves_placeholder :
  let s := finalState (update browser (pageScript (removeChild 5 3) transferred)) in
  fixedElements_ s = [] /\
  documentElement (doc s) =
    Node 0 [Node 1 [Node 2 [Node 6 []]; Node 4 []]; Node 5 []].
Proof. repeat split; vm_compute; reflexivity. Qed.

(** C2 fails on the code: the banner is fixed and its top was adjusted for an
    inset of 0; after [updatePaddingTop(20)] the cycle still measures it as
    fixed, with the computed top [0px], and writes no style: the top stays
    [calc(0px + 0px)]. *)
Theorem updatePaddingTop_keeps_old_top :
  getStyle (doc adjusted) 3 "top" = "calc(0px + 0px)" /\
  let s := finalState (updatePaddingTop browser 20 adjusted) in
  paddingTop_ s = 20 /\
  fixed (measureElement browser (doc adjusted) 3) = true /\
  top (measureElement browser (doc adjusted) 3) = "0px" /\
  getStyle (doc s) 3 "top" = "calc(0px + 0px)" /\
  styleWrites (doc s) = styleWrites (doc adjusted).
Proof. repeat split; vm_compute; reflexivity. Qed.

(* ===================================================================== *)
(** ** Order of the registry and stacking values *)
(* ===================================================================== *)

(** The comparison function looks at bit 0 of the position, the one that
    says that the two nodes are not in the same tree. *)
Lemma domOrderCompare_bit0 s fe1 fe2 :
  domOrderCompare s fe1 fe2 =
  if Z.odd (compareDocumentPosition (doc s) (element (deref s fe1))
              (element (deref s fe2)))
  then 1 else -1.
Proof.
  unfold domOrderCompare.
  change (Z.b2z (negb (10 =? 0))) with (Z.ones 1).
  rewrite Z.land_ones by lia. change (2 ^ 1) with 2.
  rewrite Zmod_odd. destruct (Z.odd _); reflexivity.
Qed.

Lemma treeOf_contained d a :
  contains d a = true -> treeOf d a = documentElement d.
Proof.
  unfold contains, treeOf, allTrees. intros H. simpl. rewrite H. reflexivity.
Qed.

(** For two nodes of the document that bit is not set. *)
Lemma compareDocumentPosition_connected d a b :
  contains d a = true -> contains d b = true ->
  Z.odd (compareDocumentPosition d a b) = false.
Proof.
  intros Ha Hb. unfold compareDocumentPosition.
  rewrite (treeOf_contained d a Ha).
  unfold contains in Hb. rewrite Hb. simpl.
  repeat case_match; reflexivity.
Qed.

Lemma domOrderCompare_connected s fe1 fe2 :
  contains (doc s) (element (deref s fe1)) = true ->
  contains (doc s) (element (deref s fe2)) = true ->
  domOrderCompare s fe1 fe2 = -1.
Proof.
  intros H1 H2. rewrite domOrderCompare_bit0.
  rewrite compareDocumentPosition_connected by assumption. reflexivity.
Qed.

(** The sort moves nothing when the comparison function never answers with
    a positive number. *)
Lemma arraySort_never_positive {A} (cmp : A -> A -> Z) (l : list A) :
  (forall a b, a ∈ l -> b ∈ l -> cmp a b <= 0) -> arraySort cmp l = l.
Proof.
  intros Hcmp. unfold arraySort.
  assert (H : forall l' acc,
            (forall a b, a ∈ (acc ++ l')%list -> b ∈ l' -> cmp a b <= 0) ->
            fold_left (fun sorted x => sortInsert cmp x sorted) l' acc
            = (rev l' ++ acc)%list).
  { induction l' as [|x l' IH]; intros acc Hacc; simpl; [reflexivity|].
    assert (Hx : sortInsert cmp x acc = x :: acc).
    { destruct acc as [|tmp rest]; [reflexivity|]. simpl.
      destruct (Z.ltb_spec 0 (cmp tmp x)) as [Hlt|_]; [|reflexivity].
      assert (cmp tmp x <= 0); [|lia].
      apply Hacc; [left|left]. }
    rewrite Hx, IH, <- app_assoc; [reflexivity|].
    intros a b Ha Hb. apply Hacc; [|right; exact Hb].
    rewrite elem_of_app in Ha |- *. rewrite !elem_of_cons in *. tauto. }
  rewrite H, app_nil_r, rev_involutive; [reflexivity|].
  intros a b Ha Hb. apply Hcmp; assumption.
Qed.

(** So [sortInDomOrder_] leaves the array as it is when the tracked elements
    are in the document. *)
Lemma sortInDomOrder_connected s :
  (forall fe, fe ∈ fixedElements_ s ->
     contains (doc s) (element (deref s fe)) = true) ->
  fixedElements_ (finalState (sortInDomOrder_ s)) = fixedElements_ s.
Proof.
  intros H. simpl. apply arraySort_never_positive.
  intros a b Ha Hb. rewrite domOrderCompare_connected by auto. lia.
Qed.

(** The footer was added before the banner: the array keeps that order,
    which is not the order of the document. *)
Example sort_keeps_insertion_order :
  trackedElements addedInReverse = [4%nat; 3%nat] /\
  nodes (documentElement (doc addedInReverse)) = [0; 1; 2; 3; 4]%nat.
Proof. split; vm_compute; reflexivity. Qed.

(** *** The z-index of a transfer *)

Lemma write_stays (rest : JS unit) s n prop value :
  preserves (frame (finalState (modifyDoc (putStyle n prop value) s))) rest ->
  (n, prop, value) ∈
    styleWrites (doc (finalState
                        (bind (modifyDoc (putStyle n prop value))
                              (fun _ => rest) s))).
Proof.
  intros Hrest. unfold bind. simpl.
  eapply elem_of_prefix; [|apply frame_writes, Hrest, frame_refl].
  simpl. apply elem_of_app. right. left.
Qed.

Lemma transferMove_writes fe index state s :
  (element (deref s fe), "zIndex", transferZIndex index state) ∈
    styleWrites (doc (finalState (transferMove fe index state s))).
Proof.
  unfold transferMove. unfold bind at 1, get at 1.
  assert (Hrest : forall ph s0,
    preserves (frame s0)
      (bind (viaParentElement (element (deref s fe))
               (fun parent => replaceChild parent ph (element (deref s fe))))
         (fun _ => bind getFixedLayer_ (fun layer =>
            match layer with
            | Some layer => domCall (appendChild layer (element (deref s fe)))
            | None => throw TypeError
            end)))).
  { intros ph s0. preserves_struct;
      auto using preserves_frame_appendChild with frame.
    apply preserves_frame_viaParentElement. intros parent d d'.
    apply replaceChild_sameButTrees. }
  destruct (placeholder (deref s fe)) as [p|].
  - unfold bind at 1. unfold ret at 1. apply write_stays, Hrest.
  - unfold bind at 1.
    match goal with
    | |- context [match ?m s with _ => _ end] =>
        assert (Hm : exists p s1, m s = Normal p s1)
    end.
    { unfold bind, setStyle, modifyDoc, modify, docCreateElement, setPlaceholder,
        ret. simpl. eauto. }
    destruct Hm as (p & s1 & ->). apply write_stays, Hrest.
Qed.

Lemma stackingValue_increasing i j declared vi vj :
  (i < j)%nat ->
  stackingValue i declared = Some vi -> stackingValue j declared = Some vj ->
  vi < vj.
Proof.
  unfold stackingValue. intros Hij.
  destruct (truthy declared); [destruct (parseInt declared)|];
    intros [= <-] [= <-]; lia.
Qed.




(* ===================================================================== *)
(** ** Trees *)
(* ===================================================================== *)

Lemma memb_elem (n : node) (l : list node) : memb n l = true <-> n ∈ l.
Proof.
  unfold memb. rewrite existsb_exists. split.
  - intros (x & Hx & E). apply Nat.eqb_eq in E. subst. apply list_elem_of_In, Hx.
  - intros H. exists n. rewrite Nat.eqb_refl. split; [apply list_elem_of_In, H|reflexivity].
Qed.

Lemma memb_not_elem (n : node) (l : list node) : memb n l = false <-> n ∉ l.
Proof. rewrite <- memb_elem. destruct (memb n l); split; congruence. Qed.

Lemma hasRoot_eq n t : hasRoot n t = true <-> rootId t = n.
Proof. unfold hasRoot. apply Nat.eqb_eq. Qed.

Lemma hasRoot_neq n t : hasRoot n t = false <-> rootId t <> n.
Proof. unfold hasRoot. apply Nat.eqb_neq. Qed.

Lemma rootId_nodes t : rootId t ∈ nodes t.
Proof. destruct t. simpl. left. Qed.

Lemma nodes_children n ks x :
  x ∈ nodes (Node n ks) <-> x = n \/ exists k, k ∈ ks /\ x ∈ nodes k.
Proof.
  simpl. rewrite elem_of_cons, list_elem_of_In, in_flat_map.
  split; intros [H|(k & H1 & H2)]; auto; right; exists k;
    rewrite ?list_elem_of_In in *; auto.
Qed.

Lemma firstSome_nil {A} : @firstSome A [] = None.
Proof. reflexivity. Qed.

Lemma firstSome_cons {A} (o : option A) l :
  firstSome (o :: l) = match o with Some _ => o | None => firstSome l end.
Proof. reflexivity. Qed.

Lemma firstSome_app {A} (l1 l2 : list (option A)) :
  firstSome (l1 ++ l2) =
  match firstSome l1 with Some x => Some x | None => firstSome l2 end.
Proof.
  induction l1 as [|[x|] l1 IH]; simpl; auto.
Qed.

Lemma firstSome_None {A} (l : list (option A)) :
  firstSome l = None <-> forall o, o ∈ l -> o = None.
Proof.
  induction l as [|[x|] l IH]; simpl.
  - split; [intros _ o Ho; inversion Ho|reflexivity].
  - split; [discriminate|]. intros H. apply (H (Some x)). left.
  - rewrite IH. split.
    + intros H o Ho. apply elem_of_cons in Ho as [->|Ho]; auto.
    + intros H o Ho. apply H. right. exact Ho.
Qed.

Lemma firstSome_map_None {A B} (f : A -> option B) (l : list A) :
  firstSome (List.map f l) = None <-> forall a, a ∈ l -> f a = None.
Proof.
  rewrite firstSome_None. split.
  - intros H a Ha. apply H. apply list_elem_of_In, in_map, list_elem_of_In, Ha.
  - intros H o Ho. apply list_elem_of_In, in_map_iff in Ho as (a & <- & Ha).
    apply H, list_elem_of_In, Ha.
Qed.

Lemma firstSome_map_Some {A B} (f : A -> option B) (l : list A) b :
  firstSome (List.map f l) = Some b -> exists a, a ∈ l /\ f a = Some b.
Proof.
  induction l as [|a l IH]; simpl; [discriminate|].
  destruct (f a) as [b'|] eqn:E.
  - intros [= ->]. exists a. split; [left|exact E].
  - intros H. destruct (IH H) as (a' & Ha' & E'). exists a'. split; [right|]; auto.
Qed.

Lemma firstSome_map_ext {A B} (f g : A -> option B) (l : list A) :
  (forall a, a ∈ l -> f a = g a) ->
  firstSome (List.map f l) = firstSome (List.map g l).
Proof.
  induction l as [|a l IH]; intros H; simpl; [reflexivity|].
  rewrite (H a) by left. rewrite IH; [reflexivity|].
  intros a' Ha'. apply H. right. exact Ha'.
Qed.

(** *** Nodes that a tree does not hold *)

Lemma subtree_absent x t : x ∉ nodes t -> subtree x t = None.
Proof.
  induction t as [n ks IH] using tree_ind. intros Hx.
  rewrite nodes_children in Hx. simpl.
  destruct (Nat.eqb_spec n x) as [->|Hne]; [exfalso; apply Hx; auto|].
  apply firstSome_map_None. intros k Hk.
  rewrite Forall_forall in IH. apply IH; [exact Hk|].
  intros Hin. apply Hx. right. eauto.
Qed.

Lemma existsb_hasRoot_absent x ks :
  (forall k, k ∈ ks -> x ∉ nodes k) -> List.existsb (hasRoot x) ks = false.
Proof.
  intros H. apply not_true_iff_false. rewrite existsb_exists.
  intros (k & Hk & Hr). apply hasRoot_eq in Hr. subst.
  apply (H k); [apply list_elem_of_In, Hk|apply rootId_nodes].
Qed.

Lemma parentIn_absent x t : x ∉ nodes t -> parentIn x t = None.
Proof.
  induction t as [n ks IH] using tree_ind. intros Hx.
  rewrite nodes_children in Hx. simpl.
  rewrite existsb_hasRoot_absent by (intros k Hk Hin; apply Hx; right; eauto).
  apply firstSome_map_None. intros k Hk.
  rewrite Forall_forall in IH. apply IH; [exact Hk|].
  intros Hin. apply Hx. right. eauto.
Qed.

Lemma filter_hasRoot_absent x ks :
  (forall k, k ∈ ks -> x ∉ nodes k) ->
  List.filter (fun k => negb (hasRoot x k)) ks = ks.
Proof.
  induction ks as [|k ks IH]; intros H; simpl; [reflexivity|].
  assert (Hk : hasRoot x k = false).
  { apply hasRoot_neq. intros E. apply (H k); [left|]. rewrite <- E.
    apply rootId_nodes. }
  rewrite Hk. simpl. f_equal. apply IH. intros k' Hk'. apply H. right. exact Hk'.
Qed.

Lemma map_id_on {A} (f : A -> A) (l : list A) :
  (forall a, a ∈ l -> f a = a) -> List.map f l = l.
Proof.
  induction l as [|a l IH]; intros H; simpl; [reflexivity|].
  rewrite H by left. f_equal. apply IH. intros a' Ha'. apply H. right. exact Ha'.
Qed.

Lemma prune_absent x t : x ∉ nodes t -> prune x t = t.
Proof.
  induction t as [n ks IH] using tree_ind. intros Hx.
  rewrite nodes_children in Hx. simpl. f_equal.
  rewrite Forall_forall in IH.
  rewrite map_id_on by (intros k Hk; apply IH; [exact Hk|]; intros Hin; apply Hx; eauto).
  apply filter_hasRoot_absent. intros k Hk Hin. apply Hx. eauto.
Qed.

Lemma graft_absent x new t : x ∉ nodes t -> graft x new t = t.
Proof.
  induction t as [n ks IH] using tree_ind. intros Hx.
  rewrite nodes_children in Hx. simpl. f_equal.
  rewrite Forall_forall in IH.
  apply map_id_on. intros k Hk.
  assert (Hin : x ∉ nodes k) by (intros Hin; apply Hx; eauto).
  assert (Hr : hasRoot x k = false).
  { apply hasRoot_neq. intros E. apply Hin. rewrite <- E. apply rootId_nodes. }
  rewrite Hr. apply IH; assumption.
Qed.

Lemma appendTo_absent p c t : p ∉ nodes t -> appendTo p c t = t.
Proof.
  induction t as [n ks IH] using tree_ind. intros Hp.
  rewrite nodes_children in Hp. simpl.
  destruct (Nat.eqb_spec n p) as [->|Hne]; [exfalso; apply Hp; auto|].
  f_equal. rewrite Forall_forall in IH. apply map_id_on. intros k Hk.
  apply IH; [exact Hk|]. intros Hin. apply Hp. eauto.
Qed.

(** *** Roots and nodes after an operation *)

Lemma rootId_prune x t : rootId (prune x t) = rootId t.
Proof. destruct t. reflexivity. Qed.

Lemma rootId_graft x new t : rootId (graft x new t) = rootId t.
Proof. destruct t. reflexivity. Qed.

Lemma rootId_appendTo p c t : rootId (appendTo p c t) = rootId t.
Proof. destruct t as [n ks]. simpl. destruct (Nat.eqb n p); reflexivity. Qed.

Lemma elem_of_filter_map {A} (P : A -> bool) (f : A -> A) (l : list A) a :
  a ∈ List.filter P (List.map f l) <-> exists b, b ∈ l /\ a = f b /\ P a = true.
Proof.
  rewrite list_elem_of_In, filter_In, in_map_iff. split.
  - intros [(b & <- & Hb) HP]. exists b. rewrite list_elem_of_In. auto.
  - intros (b & Hb & -> & HP). split; [|exact HP]. exists b.
    rewrite <- list_elem_of_In. auto.
Qed.

Lemma elem_of_map_iff {A B} (f : A -> B) (l : list A) b :
  b ∈ List.map f l <-> exists a, a ∈ l /\ b = f a.
Proof.
  rewrite list_elem_of_In, in_map_iff. split; intros (a & H1 & H2); exists a;
    rewrite ?list_elem_of_In in *; auto.
Qed.

(** Pruning takes nodes away, never adds one. *)
Lemma nodes_prune x t y : y ∈ nodes (prune x t) -> y ∈ nodes t.
Proof.
  induction t as [n ks IH] using tree_ind. simpl prune.
  rewrite !nodes_children. intros [->|(k' & Hk' & Hy)]; [auto|].
  apply elem_of_filter_map in Hk' as (k & Hk & -> & _).
  rewrite Forall_forall in IH. right. exists k. split; [exact Hk|].
  apply IH; assumption.
Qed.

(** After pruning, [x] can only be the root. *)
Lemma prune_removes x t : rootId t <> x -> x ∉ nodes (prune x t).
Proof.
  induction t as [n ks IH] using tree_ind. simpl. intros Hne Hin.
  change (x ∈ nodes (Node n (List.filter (fun k => negb (hasRoot x k))
                               (List.map (prune x) ks)))) in Hin.
  rewrite nodes_children in Hin. destruct Hin as [->|(k' & Hk' & Hx)]; [congruence|].
  apply elem_of_filter_map in Hk' as (k & Hk & -> & Hr).
  apply negb_true_iff, hasRoot_neq in Hr. rewrite rootId_prune in Hr.
  rewrite Forall_forall in IH. apply (IH k Hk Hr Hx).
Qed.

(** After a graft, [x] can only be the root or inside the new subtree. *)
Lemma graft_removes x new t :
  rootId t <> x -> x ∉ nodes new -> x ∉ nodes (graft x new t).
Proof.
  induction t as [n ks IH] using tree_ind. simpl. intros Hne Hnew Hin.
  change (x ∈ nodes (Node n (List.map (fun k => if hasRoot x k then new
                                                else graft x new k) ks))) in Hin.
  rewrite nodes_children in Hin. destruct Hin as [->|(k' & Hk' & Hx)]; [congruence|].
  apply elem_of_map_iff in Hk' as (k & Hk & ->).
  destruct (hasRoot x k) eqn:Hr; [contradiction|].
  apply hasRoot_neq in Hr. rewrite Forall_forall in IH. apply (IH k Hk Hr Hnew Hx).
Qed.

(** *** Parents *)

Lemma existsb_hasRoot x ks :
  List.existsb (hasRoot x) ks = true <-> exists k, k ∈ ks /\ rootId k = x.
Proof.
  rewrite existsb_exists. split; intros (k & Hk & Hr); exists k;
    rewrite ?list_elem_of_In, ?hasRoot_eq in *; auto.
Qed.

Lemma parentIn_elem x t p : parentIn x t = Some p -> p ∈ nodes t /\ x ∈ nodes t.
Proof.
  induction t as [n ks IH] using tree_ind. simpl parentIn.
  rewrite Forall_forall in IH.
  destruct (List.existsb (hasRoot x) ks) eqn:E.
  - intros [= <-]. apply existsb_hasRoot in E as (k & Hk & Hr).
    rewrite !nodes_children. split; [auto|]. right. exists k.
    split; [exact Hk|]. rewrite <- Hr. apply rootId_nodes.
  - intros H. apply firstSome_map_Some in H as (k & Hk & H).
    rewrite !nodes_children.
    destruct (IH k Hk H) as (Hp & Hx); split; right; eauto.
Qed.

Lemma parentIn_is_Some x t :
  x ∈ nodes t -> x <> rootId t -> is_Some (parentIn x t).
Proof.
  induction t as [n ks IH] using tree_ind. rewrite nodes_children. simpl.
  intros [->|(k & Hk & Hx)] Hne; [congruence|].
  destruct (List.existsb (hasRoot x) ks) eqn:E; [eauto|].
  rewrite Forall_forall in IH.
  assert (Hr : x <> rootId k).
  { intros ->. apply not_true_iff_false in E. apply E, existsb_hasRoot. eauto. }
  destruct (IH k Hk Hx Hr) as [p Hp].
  destruct (firstSome (List.map (parentIn x) ks)) as [q|] eqn:F; [eauto|].
  rewrite firstSome_map_None in F. rewrite (F k Hk) in Hp. discriminate.
Qed.

(** *** Subtrees *)

Lemma subtree_Some x t sub :
  subtree x t = Some sub ->
  rootId sub = x /\ forall y, y ∈ nodes sub -> y ∈ nodes t.
Proof.
  induction t as [n ks IH] using tree_ind. simpl subtree.
  destruct (Nat.eqb_spec n x) as [->|Hne].
  - intros [= <-]. auto.
  - intros H. apply firstSome_map_Some in H as (k & Hk & H).
    rewrite Forall_forall in IH. destruct (IH k Hk H) as [Hr Hsub].
    split; [exact Hr|]. intros y Hy. rewrite nodes_children. right. eauto.
Qed.

Lemma subtree_is_Some x t : x ∈ nodes t -> is_Some (subtree x t).
Proof.
  induction t as [n ks IH] using tree_ind. rewrite nodes_children. simpl.
  destruct (Nat.eqb_spec n x) as [->|Hne]; [eauto|].
  intros [->|(k & Hk & Hx)]; [congruence|].
  rewrite Forall_forall in IH. destruct (IH k Hk Hx) as [sub Hsub].
  destruct (firstSome (List.map (subtree x) ks)) as [q|] eqn:F; [eauto|].
  rewrite firstSome_map_None in F. rewrite (F k Hk) in Hsub. discriminate.
Qed.

(** *** Trees in which every node occurs once *)

Lemma NoDup_children n ks :
  NoDup (nodes (Node n ks)) ->
  (forall k, k ∈ ks -> (n ∉ nodes k) /\ NoDup (nodes k)) /\
  (forall k k' y, k ∈ ks -> k' ∈ ks -> y ∈ nodes k -> y ∈ nodes k' -> k = k').
Proof.
  simpl. rewrite NoDup_cons. intros [Hn Hnd]. split.
  - intros k Hk. split.
    + intros Hin. apply Hn. apply list_elem_of_In, in_flat_map. exists k.
      rewrite <- !list_elem_of_In. auto.
    + clear Hn. induction ks as [|k0 ks IH]; [inversion Hk|].
      simpl in Hnd. apply NoDup_app in Hnd as (H1 & _ & H2).
      apply elem_of_cons in Hk as [->|Hk]; auto.
  - clear Hn. induction ks as [|k0 ks IH]; intros k k' y Hk; [inversion Hk|].
    simpl in Hnd. apply NoDup_app in Hnd as (H1 & Hdis & H2).
    intros Hk' Hy Hy'.
    assert (Hfm : forall k1, k1 ∈ ks -> y ∈ nodes k1 -> y ∈ flat_map nodes ks).
    { intros k1 Hk1 Hy1. apply list_elem_of_In, in_flat_map. exists k1.
      rewrite <- !list_elem_of_In. auto. }
    apply elem_of_cons in Hk as [->|Hk]; apply elem_of_cons in Hk' as [->|Hk'].
    + reflexivity.
    + exfalso. apply (Hdis y Hy). eauto.
    + exfalso. apply (Hdis y Hy'). eauto.
    + eapply IH; eauto.
Qed.

Lemma firstSome_map_unique {A B} (f : A -> option B) (l : list A) a b :
  a ∈ l -> f a = Some b ->
  (forall a', a' ∈ l -> f a' = Some b \/ f a' = None) ->
  firstSome (List.map f l) = Some b.
Proof.
  induction l as [|a0 l IH]; intros Ha Hfa Hall; [inversion Ha|].
  simpl. destruct (Hall a0) as [H|H]; [left|rewrite H; reflexivity|].
  rewrite H. apply elem_of_cons in Ha as [->|Ha]; [congruence|].
  apply IH; auto. intros a' Ha'. apply Hall. right. exact Ha'.
Qed.

(** The new subtree takes the parent of the one it replaces. *)
Lemma parentIn_graft x old new t :
  x ∉ nodes t -> rootId new = x ->
  parentIn x (graft old new t) = parentIn old t.
Proof.
  induction t as [n ks IH] using tree_ind. intros Hx Hnew.
  rewrite nodes_children in Hx. rewrite Forall_forall in IH. simpl.
  destruct (List.existsb (hasRoot old) ks) eqn:E.
  - apply existsb_hasRoot in E as (k & Hk & Hr).
    replace (List.existsb (hasRoot x) _) with true; [reflexivity|].
    symmetry. apply existsb_hasRoot. exists new. split; [|exact Hnew].
    apply elem_of_map_iff. exists k. split; [exact Hk|].
    apply hasRoot_eq in Hr. rewrite Hr. reflexivity.
  - assert (Hno : forall k, k ∈ ks -> hasRoot old k = false).
    { intros k Hk. apply not_true_iff_false. intros Hr.
      apply not_true_iff_false in E. apply E, existsb_hasRoot.
      exists k. split; [exact Hk|apply hasRoot_eq, Hr]. }
    replace (List.map _ ks) with (List.map (graft old new) ks)
      by (apply map_ext_in; intros k Hk; rewrite Hno by (apply list_elem_of_In, Hk);
          reflexivity).
    replace (List.existsb (hasRoot x) _) with false.
    + rewrite map_map. apply firstSome_map_ext. intros k Hk.
      apply IH; [exact Hk| |exact Hnew]. intros Hin. apply Hx. eauto.
    + symmetry. apply not_true_iff_false. intros Hex.
      apply existsb_hasRoot in Hex as (k' & Hk' & Hr).
      apply elem_of_map_iff in Hk' as (k & Hk & ->).
      rewrite rootId_graft in Hr. apply Hx. right. exists k.
      split; [exact Hk|]. rewrite <- Hr. apply rootId_nodes.
Qed.

(** Pruning [x] keeps the parent of a node that is outside of the subtree
    of [x]. *)
Lemma parentIn_prune x ph parent sub t :
  NoDup (nodes t) -> subtree x t = Some sub -> ph <> x ->
  parentIn ph t = Some parent -> parent ∉ nodes sub ->
  parentIn ph (prune x t) = Some parent.
Proof.
  induction t as [n ks IH] using tree_ind. intros Hnd Hsub Hne Hpar Hout.
  rewrite Forall_forall in IH.
  destruct (NoDup_children n ks Hnd) as [Hkid Hshare].
  simpl in Hsub. destruct (Nat.eqb_spec n x) as [->|Hnx].
  { injection Hsub as <-. exfalso. apply Hout.
    apply (parentIn_elem ph (Node x ks) parent Hpar). }
  apply firstSome_map_Some in Hsub as (k0 & Hk0 & Hsub0).
  assert (Hx0 : x ∈ nodes k0).
  { destruct (subtree_Some x k0 sub Hsub0) as [Hr Hs]. apply Hs.
    rewrite <- Hr. apply rootId_nodes. }
  simpl in Hpar |- *.
  destruct (List.existsb (hasRoot ph) ks) eqn:E.
  - injection Hpar as <-. apply existsb_hasRoot in E as (k1 & Hk1 & Hr1).
    replace (List.existsb (hasRoot ph) _) with true; [reflexivity|].
    symmetry. apply existsb_hasRoot. exists (prune x k1).
    rewrite rootId_prune. split; [|exact Hr1].
    apply elem_of_filter_map. exists k1. split; [exact Hk1|]. split; [reflexivity|].
    apply negb_true_iff, hasRoot_neq. rewrite rootId_prune. congruence.
  - replace (List.existsb (hasRoot ph) _) with false.
    2:{ symmetry. apply not_true_iff_false. intros Hex.
        apply existsb_hasRoot in Hex as (k' & Hk' & Hr).
        apply elem_of_filter_map in Hk' as (k & Hk & -> & _).
        rewrite rootId_prune in Hr.
        apply not_true_iff_false in E. apply E, existsb_hasRoot. eauto. }
    apply firstSome_map_Some in Hpar as (k1 & Hk1 & Hpar1).
    destruct (parentIn_elem ph k1 parent Hpar1) as [Hp1 Hph1].
    assert (Hr1 : rootId k1 <> x).
    { intros Hr. assert (k1 = k0).
      { apply (Hshare k1 k0 x Hk1 Hk0); [|exact Hx0]. rewrite <- Hr.
        apply rootId_nodes. }
      subst k0. destruct k1 as [r1 ks1]. simpl in Hr. subst r1.
      simpl in Hsub0. rewrite Nat.eqb_refl in Hsub0. injection Hsub0 as <-.
      contradiction. }
    assert (Hres : parentIn ph (prune x k1) = Some parent).
    { destruct (decide (x ∈ nodes k1)) as [Hin|Hnin].
      - assert (k1 = k0) by (apply (Hshare k1 k0 x Hk1 Hk0 Hin Hx0)). subst k0.
        apply IH; auto. apply Hkid, Hk1.
      - rewrite prune_absent by exact Hnin. exact Hpar1. }
    apply (firstSome_map_unique _ _ (prune x k1)).
    + apply elem_of_filter_map. exists k1. split; [exact Hk1|].
      split; [reflexivity|]. apply negb_true_iff, hasRoot_neq.
      rewrite rootId_prune. exact Hr1.
    + exact Hres.
    + intros k' Hk'. apply elem_of_filter_map in Hk' as (k & Hk & -> & _).
      destruct (decide (ph ∈ nodes k)) as [Hin|Hnin].
      * assert (k = k1) by (apply (Hshare k k1 ph Hk Hk1 Hin Hph1)). subst k.
        left. exact Hres.
      * right. apply parentIn_absent. intros Hin. apply Hnin.
        eapply nodes_prune, Hin.
Qed.

(** *** Grafting and appending *)

(** The nodes of the new subtree are in the tree after the graft. *)
Lemma graft_adds x new t y :
  x ∈ nodes t -> x <> rootId t -> y ∈ nodes new -> y ∈ nodes (graft x new t).
Proof.
  induction t as [n ks IH] using tree_ind. rewrite Forall_forall in IH.
  rewrite nodes_children. simpl rootId. intros [->|(k & Hk & Hx)] Hne Hy; [congruence|].
  simpl graft. rewrite nodes_children. right.
  destruct (hasRoot x k) eqn:Hr.
  - exists new. split; [|exact Hy]. apply elem_of_map_iff. exists k.
    rewrite Hr. auto.
  - exists (graft x new k). split.
    + apply elem_of_map_iff. exists k. rewrite Hr. auto.
    + apply IH; auto. apply hasRoot_neq in Hr. congruence.
Qed.

(** A node outside of the subtree that is replaced stays. *)
Lemma graft_keeps x new sub t y :
  NoDup (nodes t) -> subtree x t = Some sub ->
  y ∈ nodes t -> y ∉ nodes sub -> y ∈ nodes (graft x new t).
Proof.
  induction t as [n ks IH] using tree_ind. rewrite Forall_forall in IH.
  intros Hnd Hsub Hy Hout.
  destruct (NoDup_children n ks Hnd) as [Hkid Hshare].
  simpl in Hsub. destruct (Nat.eqb_spec n x) as [->|Hnx].
  { injection Hsub as <-. contradiction. }
  apply firstSome_map_Some in Hsub as (k0 & Hk0 & Hsub0).
  destruct (subtree_Some x k0 sub Hsub0) as [Hr0 Hs0].
  assert (Hx0 : x ∈ nodes k0) by (apply Hs0; rewrite <- Hr0; apply rootId_nodes).
  simpl graft. rewrite nodes_children in Hy |- *.
  destruct Hy as [->|(k & Hk & Hy)]; [auto|]. right.
  destruct (hasRoot x k) eqn:Hr.
  - exfalso. apply hasRoot_eq in Hr.
    assert (k = k0).
    { apply (Hshare k k0 x Hk Hk0); [|exact Hx0]. rewrite <- Hr. apply rootId_nodes. }
    subst k0. destruct k as [r ks1]. simpl in Hr. subst r. simpl in Hsub0.
    rewrite Nat.eqb_refl in Hsub0. injection Hsub0 as <-. contradiction.
  - exists (graft x new k). split.
    + apply elem_of_map_iff. exists k. rewrite Hr. auto.
    + destruct (decide (x ∈ nodes k)) as [Hin|Hnin].
      * assert (k = k0) by (apply (Hshare k k0 x Hk Hk0 Hin Hx0)). subst k0.
        apply IH; auto. apply Hkid, Hk.
      * rewrite graft_absent by exact Hnin. exact Hy.
Qed.

Lemma appendTo_keeps p c t y : y ∈ nodes t -> y ∈ nodes (appendTo p c t).
Proof.
  induction t as [n ks IH] using tree_ind. rewrite Forall_forall in IH.
  rewrite nodes_children. simpl appendTo. intros Hy.
  destruct (Nat.eqb n p); rewrite nodes_children.
  - destruct Hy as [->|(k & Hk & Hy)]; [auto|]. right. exists k.
    split; [apply elem_of_app; auto|exact Hy].
  - destruct Hy as [->|(k & Hk & Hy)]; [auto|]. right. exists (appendTo p c k).
    split; [apply elem_of_map_iff; eauto|apply IH; auto].
Qed.

Lemma appendTo_adds p c t y :
  p ∈ nodes t -> y ∈ nodes c -> y ∈ nodes (appendTo p c t).
Proof.
  induction t as [n ks IH] using tree_ind. rewrite Forall_forall in IH.
  rewrite nodes_children. simpl appendTo. intros Hp Hy.
  destruct (Nat.eqb_spec n p) as [->|Hne]; rewrite nodes_children.
  - right. exists c. split; [apply elem_of_app; right; left|exact Hy].
  - destruct Hp as [->|(k & Hk & Hp)]; [congruence|]. right.
    exists (appendTo p c k). split; [apply elem_of_map_iff; eauto|apply IH; auto].
Qed.

Lemma existsb_map_ext {A} (f g : A -> bool) (h : A -> A) (l : list A) :
  (forall a, a ∈ l -> f (h a) = g a) ->
  List.existsb f (List.map h l) = List.existsb g l.
Proof.
  induction l as [|a l IH]; intros H; simpl; [reflexivity|].
  rewrite H by left. f_equal. apply IH. intros a' Ha'. apply H. right. exact Ha'.
Qed.

(** Appending a subtree does not change the parent of a node outside of
    it. *)
Lemma parentIn_appendTo x p c t :
  x ∉ nodes c -> parentIn x (appendTo p c t) = parentIn x t.
Proof.
  induction t as [n ks IH] using tree_ind. rewrite Forall_forall in IH.
  intros Hx. simpl.
  assert (Hrc : hasRoot x c = false).
  { apply hasRoot_neq. intros E. apply Hx. rewrite <- E. apply rootId_nodes. }
  destruct (Nat.eqb n p); simpl.
  - rewrite existsb_app. simpl. rewrite Hrc, !orb_false_r.
    destruct (List.existsb (hasRoot x) ks); [reflexivity|].
    rewrite map_app, firstSome_app. simpl.
    rewrite (parentIn_absent x c Hx).
    destruct (firstSome (List.map (parentIn x) ks)); reflexivity.
  - rewrite (existsb_map_ext _ (hasRoot x))
      by (intros k _; unfold hasRoot; rewrite rootId_appendTo; reflexivity).
    destruct (List.existsb (hasRoot x) ks); [reflexivity|].
    rewrite map_map. apply firstSome_map_ext. intros k Hk. apply IH; auto.
Qed.

(** The appended subtree is found under its root. *)
Lemma subtree_appendTo x p c t :
  rootId c = x -> x ∉ nodes t -> p ∈ nodes t ->
  subtree x (appendTo p c t) = Some c.
Proof.
  induction t as [n ks IH] using tree_ind. rewrite Forall_forall in IH.
  intros Hc Hx Hp. rewrite nodes_children in Hx, Hp.
  assert (Hnx : n <> x) by (intros ->; apply Hx; auto).
  assert (Hsc : subtree x c = Some c).
  { destruct c as [r cs]. simpl in Hc. subst r. simpl. rewrite Nat.eqb_refl.
    reflexivity. }
  simpl. destruct (Nat.eqb_spec n p) as [->|Hnp]; simpl;
    rewrite (proj2 (Nat.eqb_neq _ _) Hnx).
  - rewrite map_app, firstSome_app.
    replace (firstSome (List.map (subtree x) ks)) with (@None tree).
    + simpl. rewrite Hsc. reflexivity.
    + symmetry. apply firstSome_map_None. intros k Hk. apply subtree_absent.
      intros Hin. apply Hx. eauto.
  - destruct Hp as [->|(k1 & Hk1 & Hp1)]; [congruence|].
    rewrite map_map. apply (firstSome_map_unique _ _ k1); auto.
    + apply IH; auto. intros Hin. apply Hx. eauto.
    + intros k Hk. destruct (decide (p ∈ nodes k)) as [Hin|Hnin].
      * left. apply IH; auto. intros Hin'. apply Hx. eauto.
      * right. rewrite appendTo_absent by exact Hnin. apply subtree_absent.
        intros Hin'. apply Hx. eauto.
Qed.

(** Pruning the root of the appended subtree undoes the append. *)
Lemma prune_appendTo x p c t :
  rootId c = x -> x ∉ nodes t -> prune x (appendTo p c t) = t.
Proof.
  induction t as [n ks IH] using tree_ind. rewrite Forall_forall in IH.
  intros Hc Hx. rewrite nodes_children in Hx.
  assert (Hks : forall k, k ∈ ks -> x ∉ nodes k) by (intros k Hk Hin; apply Hx; eauto).
  simpl. destruct (Nat.eqb n p); simpl; f_equal.
  - rewrite map_app, List.filter_app. simpl.
    rewrite (proj2 (hasRoot_eq x (prune x c))) by (rewrite rootId_prune; exact Hc).
    simpl. rewrite app_nil_r.
    rewrite map_id_on by (intros k Hk; apply prune_absent, Hks, Hk).
    apply filter_hasRoot_absent, Hks.
  - rewrite map_map.
    rewrite map_id_on by (intros k Hk; apply IH; auto).
    apply filter_hasRoot_absent, Hks.
Qed.

(** Putting a subtree back where a leaf was grafted in its place gives the
    tree back. *)
Lemma graft_roundtrip x ph sub t :
  NoDup (nodes t) -> ph ∉ nodes t -> subtree x t = Some sub -> rootId t <> x ->
  graft ph sub (graft x (Node ph []) t) = t.
Proof.
  induction t as [n ks IH] using tree_ind. rewrite Forall_forall in IH.
  intros Hnd Hph Hsub Hroot.
  destruct (NoDup_children n ks Hnd) as [Hkid Hshare].
  rewrite nodes_children in Hph. simpl in Hroot.
  simpl in Hsub. rewrite (proj2 (Nat.eqb_neq _ _) Hroot) in Hsub.
  apply firstSome_map_Some in Hsub as (k0 & Hk0 & Hsub0).
  destruct (subtree_Some x k0 sub Hsub0) as [Hr0 Hs0].
  assert (Hx0 : x ∈ nodes k0) by (apply Hs0; rewrite <- Hr0; apply rootId_nodes).
  simpl. f_equal. rewrite map_map. apply map_id_on. intros k Hk.
  assert (Hphk : ph ∉ nodes k) by (intros Hin; apply Hph; eauto).
  destruct (hasRoot x k) eqn:Hr.
  - simpl. unfold hasRoot at 1. simpl. rewrite Nat.eqb_refl.
    apply hasRoot_eq in Hr.
    assert (k = k0).
    { apply (Hshare k k0 x Hk Hk0); [|exact Hx0]. rewrite <- Hr. apply rootId_nodes. }
    subst k0. destruct k as [r ks1]. simpl in Hr. subst r. simpl in Hsub0.
    rewrite Nat.eqb_refl in Hsub0. congruence.
  - replace (hasRoot ph (graft x (Node ph []) k)) with false.
    2:{ symmetry. apply hasRoot_neq. rewrite rootId_graft. intros E.
        apply Hphk. rewrite <- E. apply rootId_nodes. }
    destruct (decide (x ∈ nodes k)) as [Hin|Hnin].
    + assert (k = k0) by (apply (Hshare k k0 x Hk Hk0 Hin Hx0)). subst k0.
      apply IH; auto; [apply Hkid, Hk|]. apply hasRoot_neq in Hr. exact Hr.
    + rewrite (graft_absent x _ k Hnin). apply graft_absent, Hphk.
Qed.

(** The parent of a node is outside of the subtree of the node. *)
Lemma parent_outside_subtree x p sub t :
  NoDup (nodes t) -> parentIn x t = Some p -> subtree x t = Some sub ->
  p ∉ nodes sub.
Proof.
  induction t as [n ks IH] using tree_ind. rewrite Forall_forall in IH.
  intros Hnd Hpar Hsub.
  destruct (NoDup_children n ks Hnd) as [Hkid Hshare].
  assert (Hnx : n <> x).
  { intros ->. destruct (parentIn_elem x _ p Hpar) as [_ Hx].
    simpl in Hpar. destruct (List.existsb (hasRoot x) ks) eqn:E.
    - apply existsb_hasRoot in E as (k & Hk & Hr).
      apply (proj1 (Hkid k Hk)). rewrite <- Hr. apply rootId_nodes.
    - apply firstSome_map_Some in Hpar as (k & Hk & Hp).
      apply (proj1 (Hkid k Hk)). apply (parentIn_elem x k p Hp). }
  simpl in Hsub. rewrite (proj2 (Nat.eqb_neq _ _) Hnx) in Hsub.
  apply firstSome_map_Some in Hsub as (k0 & Hk0 & Hsub0).
  destruct (subtree_Some x k0 sub Hsub0) as [Hr0 Hs0].
  assert (Hx0 : x ∈ nodes k0) by (apply Hs0; rewrite <- Hr0; apply rootId_nodes).
  simpl in Hpar. destruct (List.existsb (hasRoot x) ks) eqn:E.
  - injection Hpar as <-. intros Hin. apply (proj1 (Hkid k0 Hk0)), Hs0, Hin.
  - apply firstSome_map_Some in Hpar as (k1 & Hk1 & Hp1).
    destruct (parentIn_elem x k1 p Hp1) as [_ Hx1].
    assert (k1 = k0) by (apply (Hshare k1 k0 x Hk1 Hk0 Hx1 Hx0)). subst k1.
    apply (IH k0 Hk0); auto. apply Hkid, Hk0.
Qed.

(** The root of the appended subtree has [p] as its parent. *)
Lemma parentIn_appended x p c t :
  rootId c = x -> x ∉ nodes t -> p ∈ nodes t ->
  parentIn x (appendTo p c t) = Some p.
Proof.
  induction t as [n ks IH] using tree_ind. rewrite Forall_forall in IH.
  intros Hc Hx Hp. rewrite nodes_children in Hx, Hp.
  assert (Hks : forall k, k ∈ ks -> x ∉ nodes k) by (intros k Hk Hin; apply Hx; eauto).
  simpl. destruct (Nat.eqb_spec n p) as [->|Hnp]; simpl.
  - rewrite existsb_app. simpl.
    rewrite (proj2 (hasRoot_eq x c) Hc), orb_true_r. reflexivity.
  - destruct Hp as [->|(k1 & Hk1 & Hp1)]; [congruence|].
    rewrite (existsb_map_ext _ (hasRoot x))
      by (intros k _; unfold hasRoot; rewrite rootId_appendTo; reflexivity).
    rewrite existsb_hasRoot_absent by exact Hks.
    rewrite map_map. apply (firstSome_map_unique _ _ k1); auto.
    intros k Hk. destruct (decide (p ∈ nodes k)) as [Hin|Hnin].
    + left. apply IH; auto.
    + right. rewrite appendTo_absent by exact Hnin. apply parentIn_absent, Hks, Hk.
Qed.

(** A node that has a parent in a tree is not its root, when every node
    occurs once. *)
Lemma parentIn_not_root x p t :
  NoDup (nodes t) -> parentIn x t = Some p -> rootId t <> x.
Proof.
  destruct t as [n ks]. intros Hnd Hpar. simpl. intros ->.
  destruct (NoDup_children x ks Hnd) as [Hkid _].
  simpl in Hpar. destruct (List.existsb (hasRoot x) ks) eqn:E.
  - apply existsb_hasRoot in E as (k & Hk & Hr).
    apply (proj1 (Hkid k Hk)). rewrite <- Hr. apply rootId_nodes.
  - apply firstSome_map_Some in Hpar as (k & Hk & Hp).
    apply (proj1 (Hkid k Hk)). apply (parentIn_elem x k p Hp).
Qed.

(* ===================================================================== *)
(** ** The document after a host operation *)
(* ===================================================================== *)

(** A child of a node of the subtree of [x] is in that subtree. *)
Lemma child_in_subtree x c p sub t :
  NoDup (nodes t) -> subtree x t = Some sub -> parentIn c t = Some p ->
  p ∈ nodes sub -> c ∈ nodes sub.
Proof.
  induction t as [n ks IH] using tree_ind. intros Hnd Hsub Hpar Hp.
  rewrite Forall_forall in IH.
  destruct (NoDup_children n ks Hnd) as [Hkid Hshare].
  simpl in Hsub. destruct (Nat.eqb_spec n x) as [->|Hnx].
  { injection Hsub as <-. apply (parentIn_elem c _ p Hpar). }
  apply firstSome_map_Some in Hsub as (k0 & Hk0 & Hsub0).
  destruct (subtree_Some x k0 sub Hsub0) as [_ Hs0].
  simpl in Hpar. destruct (List.existsb (hasRoot c) ks) eqn:E.
  - injection Hpar as <-. exfalso. apply (proj1 (Hkid k0 Hk0)). apply Hs0, Hp.
  - apply firstSome_map_Some in Hpar as (k1 & Hk1 & Hpar1).
    destruct (parentIn_elem c k1 p Hpar1) as [Hp1 _].
    assert (k1 = k0) by (apply (Hshare k1 k0 p Hk1 Hk0 Hp1), Hs0, Hp). subst k1.
    apply (IH k0 Hk0); auto. apply Hkid, Hk0.
Qed.

Lemma wfDocument_tree d : wfDocument d -> NoDup (nodes (documentElement d)).
Proof.
  unfold wfDocument, allTrees. simpl. intros H.
  apply NoDup_app in H as (H & _). exact H.
Qed.

Lemma wfDocument_elsewhere d x t :
  wfDocument d -> contains d x = true -> t ∈ detached d -> x ∉ nodes t.
Proof.
  unfold wfDocument, allTrees, contains. simpl. intros H Hx Ht Hin.
  apply NoDup_app in H as (_ & H & _). apply memb_elem in Hx.
  apply (H x Hx). apply list_elem_of_In, in_flat_map. exists t.
  rewrite <- !list_elem_of_In. auto.
Qed.

Lemma subtreeOf_contained d x :
  contains d x = true ->
  subtree x (documentElement d) = Some (subtreeOf d x).
Proof.
  intros Hx. apply memb_elem, subtree_is_Some in Hx as [sub Hsub].
  unfold subtreeOf, allTrees. simpl. rewrite Hsub. reflexivity.
Qed.

Lemma parentElement_contained d x p :
  wfDocument d -> contains d x = true -> parentElement d x = Some p ->
  parentIn x (documentElement d) = Some p.
Proof.
  intros Hwf Hx Hp. unfold parentElement, allTrees in Hp. simpl in Hp.
  destruct (parentIn x (documentElement d)) as [q|]; [exact Hp|].
  apply firstSome_map_Some in Hp as (t & Ht & Hp).
  exfalso. apply (wfDocument_elsewhere d x t Hwf Hx Ht).
  apply (parentIn_elem x t p Hp).
Qed.

Lemma parentElement_first d x p :
  parentIn x (documentElement d) = Some p -> parentElement d x = Some p.
Proof.
  intros H. unfold parentElement, allTrees. simpl. rewrite H. reflexivity.
Qed.

(** [parent.replaceChild(el, ph)] for a placeholder of the document that is
    outside of the element: the call succeeds and the element has the parent
    that the placeholder had. *)
Lemma replaceChild_swaps d parent el ph :
  wfDocument d -> contains d ph = true -> contains d el = true ->
  parentElement d ph = Some parent ->
  memb ph (nodes (subtreeOf d el)) = false ->
  exists d', replaceChild parent el ph d = Returns d' /\
             parentElement d' el = Some parent /\
             sameButTrees d d'.
Proof.
  intros Hwf Hph Hel Hpar Hout.
  pose proof (wfDocument_tree d Hwf) as Hnd.
  pose proof (subtreeOf_contained d el Hel) as Hsub.
  pose proof (parentElement_contained d ph parent Hwf Hph Hpar) as HparT.
  set (sub := subtreeOf d el) in *.
  apply memb_not_elem in Hout.
  destruct (subtree_Some el _ sub Hsub) as [Hrsub _].
  assert (Hne : ph <> el).
  { intros ->. apply Hout. rewrite <- Hrsub. apply rootId_nodes. }
  assert (Hpout : parent ∉ nodes sub).
  { intros Hin. apply Hout.
    apply (child_in_subtree el ph parent sub _ Hnd Hsub HparT Hin). }
  assert (Hroot : rootId (documentElement d) <> el).
  { intros Hr. destruct (documentElement d) as [r ks] eqn:ET. simpl in Hr. subst r.
    simpl in Hsub. rewrite Nat.eqb_refl in Hsub. injection Hsub as Hsub.
    apply Hout. rewrite <- Hsub, <- ET. apply memb_elem, Hph. }
  unfold replaceChild. fold sub.
  rewrite (proj2 (memb_not_elem parent (nodes sub)) Hpout).
  unfold isRoot. rewrite (proj2 (hasRoot_neq el _) Hroot). simpl.
  rewrite bool_decide_eq_true_2 by exact Hpar. simpl.
  rewrite (proj2 (Nat.eqb_neq el ph)) by congruence.
  eexists. split; [reflexivity|]. split; [|reflexivity].
  apply parentElement_first. simpl.
  rewrite parentIn_graft; [|apply prune_removes, Hroot|exact Hrsub].
  apply (parentIn_prune el ph parent sub); auto.
Qed.

Lemma subtreeOf_first d x sub :
  subtree x (documentElement d) = Some sub -> subtreeOf d x = sub.
Proof.
  intros H. unfold subtreeOf, allTrees. simpl. rewrite H. reflexivity.
Qed.

Lemma subtree_root x t : rootId t = x -> subtree x t = Some t.
Proof. destruct t as [n ks]. simpl. intros ->. rewrite Nat.eqb_refl. reflexivity. Qed.

(** [parent.replaceChild(ph, el)] with a placeholder that is a leaf outside
    of the document: the placeholder takes the place of the element, and the
    subtree of the element is kept aside. *)
Lemma replaceChild_puts_placeholder d parent el ph :
  wfDocument d -> contains d el = true -> parentElement d el = Some parent ->
  contains d ph = false -> subtreeOf d ph = Node ph [] ->
  exists d2, replaceChild parent ph el d = Returns d2 /\
             documentElement d2 = graft el (Node ph []) (documentElement d) /\
             subtreeOf d2 el = subtreeOf d el /\
             sameButTrees d d2.
Proof.
  intros Hwf Hel Hpar Hph Hleaf.
  pose proof (wfDocument_tree d Hwf) as Hnd.
  pose proof (parentElement_contained d el parent Hwf Hel Hpar) as HparT.
  pose proof (subtreeOf_contained d el Hel) as Hsub.
  set (sub := subtreeOf d el) in *.
  destruct (subtree_Some el _ sub Hsub) as [Hrsub _].
  apply memb_not_elem in Hph. fold (nodes (documentElement d)) in Hph.
  destruct (parentIn_elem el _ parent HparT) as [HpT HelT].
  assert (Hpne : parent <> ph) by (intros ->; contradiction).
  assert (Hne : ph <> el) by (intros ->; contradiction).
  assert (Hroot : rootId (documentElement d) <> el)
    by (apply (parentIn_not_root el parent _ Hnd HparT)).
  assert (Hrootph : rootId (documentElement d) <> ph).
  { intros E. apply Hph. rewrite <- E. apply rootId_nodes. }
  unfold replaceChild. rewrite Hleaf.
  replace (memb parent (nodes (Node ph []))) with false
    by (symmetry; apply memb_not_elem; simpl; intros H;
        apply list_elem_of_singleton in H; contradiction).
  unfold isRoot. rewrite (proj2 (hasRoot_neq ph _) Hrootph). simpl.
  rewrite bool_decide_eq_true_2 by exact Hpar. simpl.
  rewrite (proj2 (Nat.eqb_neq ph el)) by exact Hne.
  assert (Hd1 : documentElement (detach ph d) = documentElement d).
  { simpl. apply prune_absent, Hph. }
  assert (Hold : subtreeOf (detach ph d) el = sub).
  { apply subtreeOf_first. rewrite Hd1. exact Hsub. }
  eexists. split; [reflexivity|].
  split; [simpl; rewrite prune_absent by exact Hph; reflexivity|].
  split; [|reflexivity].
  rewrite Hold. unfold subtreeOf, allTrees.
  cbn [documentElement detached withTrees].
  rewrite (prune_absent ph _ Hph). simpl List.map at 1. rewrite firstSome_cons.
  rewrite (subtree_absent el (graft el (Node ph []) (documentElement d))).
  2:{ apply graft_removes; [exact Hroot|]. simpl. intros H.
      apply list_elem_of_singleton in H. congruence. }
  rewrite map_app, firstSome_app.
  replace (firstSome (List.map (subtree el) (List.map _ _))) with (@None tree).
  { simpl. rewrite (subtree_root el sub Hrsub). reflexivity. }
  symmetry. apply firstSome_map_None. intros t1 Ht1.
  apply elem_of_map_iff in Ht1 as (t0 & Ht0 & ->).
  apply elem_of_map_iff in Ht0 as (t' & Ht' & ->).
  apply list_elem_of_In, filter_In in Ht' as [Ht' _].
  apply list_elem_of_In in Ht'.
  assert (Hout : el ∉ nodes (prune ph t')).
  { intros Hin. apply nodes_prune in Hin.
    apply (wfDocument_elsewhere d el t' Hwf Hel Ht' Hin). }
  rewrite graft_absent by exact Hout. apply subtree_absent, Hout.
Qed.

(** [layer.appendChild(el)] for an element that was taken out of the
    document: its subtree becomes the last child of the layer. *)
Lemma appendChild_moves d layer el sub :
  subtreeOf d el = sub ->
  el ∉ nodes (documentElement d) -> layer ∈ nodes (documentElement d) ->
  layer ∉ nodes sub ->
  exists d', appendChild layer el d = Returns d' /\
             documentElement d' = appendTo layer sub (documentElement d) /\
             sameButTrees d d'.
Proof.
  intros Hsub Hel Hlayer Hout. unfold appendChild. rewrite Hsub.
  rewrite (proj2 (memb_not_elem layer (nodes sub)) Hout).
  assert (Hroot : rootId (documentElement d) <> el).
  { intros E. apply Hel. rewrite <- E. apply rootId_nodes. }
  unfold isRoot. rewrite (proj2 (hasRoot_neq el _) Hroot). simpl.
  rewrite (prune_absent el _ Hel).
  rewrite (proj2 (memb_elem layer _) Hlayer). simpl.
  eexists. split; [reflexivity|]. split; reflexivity.
Qed.

(** [parent.replaceChild(el, ph)] after the two calls above: the tree is the
    one from before them. *)
Lemma replaceChild_restores d T parent el ph sub layer :
  documentElement d = appendTo layer sub (graft el (Node ph []) T) ->
  NoDup (nodes T) -> ph ∉ nodes T ->
  subtree el T = Some sub -> parentIn el T = Some parent ->
  layer ∈ nodes T -> layer ∉ nodes sub ->
  contains d ph = true /\ contains d el = true /\
  parentElement d ph = Some parent /\
  parentElement d el = Some layer /\
  exists d', replaceChild parent el ph d = Returns d' /\
             documentElement d' = T /\ sameButTrees d d'.
Proof.
  intros HT Hnd Hph Hsub Hpar Hlayer Hout.
  destruct (subtree_Some el T sub Hsub) as [Hrsub Hsubset].
  destruct (parentIn_elem el T parent Hpar) as [HpT HelT].
  pose proof (parentIn_not_root el parent T Hnd Hpar) as Hroot.
  assert (Hne : el <> ph) by (intros ->; contradiction).
  assert (Hphsub : ph ∉ nodes sub) by (intros H; apply Hph, Hsubset, H).
  set (T2 := graft el (Node ph []) T) in *.
  assert (Hel2 : el ∉ nodes T2).
  { apply graft_removes; [exact Hroot|]. simpl. intros H.
    apply list_elem_of_singleton in H. congruence. }
  assert (Hph2 : ph ∈ nodes T2).
  { apply graft_adds; [exact HelT|congruence|]. simpl. left. }
  assert (Hlayer2 : layer ∈ nodes T2) by (apply (graft_keeps el _ sub); auto).
  assert (Hpar4 : parentIn ph (documentElement d) = Some parent).
  { rewrite HT, parentIn_appendTo by exact Hphsub.
    subst T2. rewrite parentIn_graft; auto. }
  assert (Hsub4 : subtree el (documentElement d) = Some sub).
  { rewrite HT. apply subtree_appendTo; auto. }
  assert (Hcph : contains d ph = true).
  { apply memb_elem. rewrite HT. apply appendTo_keeps, Hph2. }
  assert (Hcel : contains d el = true).
  { apply memb_elem. rewrite HT. apply appendTo_adds; [exact Hlayer2|].
    rewrite <- Hrsub. apply rootId_nodes. }
  split; [exact Hcph|]. split; [exact Hcel|].
  split; [apply parentElement_first, Hpar4|].
  split; [apply parentElement_first; rewrite HT; apply parentIn_appended; auto|].
  unfold replaceChild. rewrite (subtreeOf_first d el sub Hsub4).
  rewrite (proj2 (memb_not_elem parent (nodes sub)))
    by (apply (parent_outside_subtree el parent sub T); auto).
  assert (Hroot4 : rootId (documentElement d) <> el).
  { rewrite HT, rootId_appendTo. subst T2. rewrite rootId_graft. exact Hroot. }
  unfold isRoot. rewrite (proj2 (hasRoot_neq el _) Hroot4). simpl.
  rewrite bool_decide_eq_true_2 by (apply parentElement_first, Hpar4). simpl.
  rewrite (proj2 (Nat.eqb_neq el ph)) by exact Hne.
  eexists. split; [reflexivity|]. split; [|reflexivity].
  simpl. rewrite HT, prune_appendTo by assumption.
  subst T2. apply graft_roundtrip; auto.
Qed.

(* ===================================================================== *)
(** ** An element that is no longer fixed *)
(* ===================================================================== *)

Lemma getStyle_putStyle_ne d n prop value n' prop' :
  (n, prop) <> (n', prop') ->
  getStyle (putStyle n prop value d) n' prop' = getStyle d n' prop'.
Proof.
  intros Hne. unfold getStyle. simpl. rewrite lookup_insert_ne by exact Hne.
  reflexivity.
Qed.

Lemma getStyle_putStyle_eq d n prop value :
  getStyle (putStyle n prop value d) n prop = value.
Proof. unfold getStyle. simpl. rewrite lookup_insert_eq. reflexivity. Qed.

Lemma getStyle_sameButTrees d d' n prop :
  sameButTrees d d' -> getStyle d' n prop = getStyle d n prop.
Proof. intros ->. reflexivity. Qed.

Lemma truthy_false s : truthy s = false -> s = "".
Proof. destruct s; [reflexivity|discriminate]. Qed.

Lemma preserves_viaParentElement_doc (P : FixedLayer -> Prop) n call :
  (forall s d, P s -> sameButTrees (doc s) d -> P (withDoc d s)) ->
  (forall parent d d', call parent d = Returns d' -> sameButTrees d d') ->
  preserves P (viaParentElement n call).
Proof.
  intros HP Hc. unfold viaParentElement. preserves_struct.
  apply preserves_domCall. intros s d Hs E. apply HP; [exact Hs|].
  eapply Hc, E.
Qed.

(** [returnFromFixedLayer_] writes no inline style but the z-index. *)
Lemma returnFromFixedLayer_keeps_style arg n prop v :
  prop <> "zIndex" ->
  preserves (fun s => getStyle (doc s) n prop = v) (returnFromFixedLayer_ arg).
Proof.
  intros Hprop. unfold returnFromFixedLayer_. preserves_struct.
  all: try (apply preserves_modify; intros s Hs; simpl;
            rewrite getStyle_putStyle_ne by congruence; exact Hs).
  all: apply preserves_viaParentElement_doc;
    [ intros s d Hs Hd; simpl; rewrite (getStyle_sameButTrees _ _ _ _ Hd); exact Hs
    | intros parent d d';
      first [apply replaceChild_sameButTrees | apply removeChild_sameButTrees] ].
Qed.

(** With the placeholder in the document, outside of the element,
    [returnFromFixedLayer_] clears the z-index of the element and puts the
    element in the place of the placeholder. *)
Lemma returnFromFixedLayer_swaps fe s ph parent :
  let el := element (deref s fe) in
  placeholder (deref s fe) = Some ph ->
  wfDocument (doc s) ->
  contains (doc s) ph = true -> contains (doc s) el = true ->
  parentElement (doc s) ph = Some parent ->
  memb ph (nodes (subtreeOf (doc s) el)) = false ->
  exists s', returnFromFixedLayer_ (ArgFixedElement fe) s = Normal tt s' /\
             getStyle (doc s') el "zIndex" = "" /\
             parentElement (doc s') el = Some parent /\
             objects s' = objects s.
Proof.
  intros el Hph Hwf Hcph Hcel Hpar Hout.
  unfold returnFromFixedLayer_. unfold bind at 1, get at 1.
  change (argPlaceholder s (ArgFixedElement fe)) with (placeholder (deref s fe)).
  change (argElement s (ArgFixedElement fe)) with (Some el).
  rewrite Hph, Hcph, Hcel. cbn [negb].
  destruct (truthy (getStyle (doc s) el "zIndex")) eqn:Hz.
  - destruct (replaceChild_swaps (putStyle el "zIndex" "" (doc s)) parent el ph
                Hwf Hcph Hcel Hpar Hout) as (d' & Hd' & Hp' & Hsame).
    unfold bind at 1. unfold modifyDoc at 1, modify at 1.
    unfold viaParentElement. unfold bind at 1, get at 1.
    change (parentElement (doc (withDoc (putStyle el "zIndex" "" (doc s)) s)) ph)
      with (parentElement (doc s) ph).
    rewrite Hpar. unfold domCall.
    change (doc (withDoc (putStyle el "zIndex" "" (doc s)) s))
      with (putStyle el "zIndex" "" (doc s)).
    rewrite Hd'. eexists. split; [reflexivity|]. simpl.
    split; [|split; [exact Hp'|reflexivity]].
    rewrite (getStyle_sameButTrees _ _ _ _ Hsame). apply getStyle_putStyle_eq.
  - destruct (replaceChild_swaps (doc s) parent el ph Hwf Hcph Hcel Hpar Hout)
      as (d' & Hd' & Hp' & Hsame).
    unfold bind at 1. unfold ret at 1.
    unfold viaParentElement. unfold bind at 1, get at 1.
    rewrite Hpar. unfold domCall. rewrite Hd'.
    eexists. split; [reflexivity|]. simpl.
    split; [|split; [exact Hp'|reflexivity]].
    rewrite (getStyle_sameButTrees _ _ _ _ Hsame). apply truthy_false, Hz.
Qed.

(** The state in which [mutateFixedElement_] calls [returnFromFixedLayer_]
    for an element that turned out not to be fixed: [fixedNow] is recorded
    and the inline top is cleared. *)
Lemma mutateFixedElement_not_fixed h fe index m s :
  fixed m = false -> fixedNow (deref s fe) <> Some false ->
  exists s2,
    mutateFixedElement_ h fe index m s =
      returnFromFixedLayer_ (ArgFixedElement fe) s2 /\
    getStyle (doc s2) (element (deref s fe)) "top" = "" /\
    documentElement (doc s2) = documentElement (doc s) /\
    detached (doc s2) = detached (doc s) /\
    element (deref s2 fe) = element (deref s fe) /\
    placeholder (deref s2 fe) = placeholder (deref s fe).
Proof.
  intros Hfixed Hlatch. unfold mutateFixedElement_. unfold bind at 1, get at 1.
  rewrite Hfixed. rewrite bool_decide_eq_false_2 by exact Hlatch.
  unfold bind at 1. unfold setFixedNow at 1, modify at 1.
  set (s1 := withObjects _ s).
  assert (H1 : element (deref s1 fe) = element (deref s fe) /\
               placeholder (deref s1 fe) = placeholder (deref s fe)).
  { subst s1. rewrite deref_withObjects_insert, decide_True by reflexivity.
    split; reflexivity. }
  destruct H1 as [He Hp].
  destruct (truthy (getStyle (doc s) (element (deref s fe)) "top")) eqn:Ht.
  - unfold bind at 1. unfold modifyDoc at 1, modify at 1.
    eexists. split; [reflexivity|]. simpl doc.
    split; [apply getStyle_putStyle_eq|]. auto.
  - unfold bind at 1. unfold ret at 1.
    exists s1. split; [reflexivity|].
    split; [apply truthy_false, Ht|]. auto.
Qed.




(* ===================================================================== *)
(** ** The test after a transfer *)
(* ===================================================================== *)

Lemma sameTrees_facts d d' :
  documentElement d' = documentElement d -> detached d' = detached d ->
  (wfDocument d' <-> wfDocument d) /\
  (forall x, contains d' x = contains d x) /\
  (forall x, parentElement d' x = parentElement d x) /\
  (forall x, subtreeOf d' x = subtreeOf d x).
Proof.
  intros HT HD. unfold wfDocument, contains, parentElement, subtreeOf, allTrees.
  rewrite HT, HD. repeat split; auto.
Qed.

Lemma fresh_placeholder d :
  (forall n, n ∈ flat_map nodes (allTrees d) -> (n < nextNode d)%nat) ->
  contains d (nextNode d) = false /\
  subtreeOf d (nextNode d) = Node (nextNode d) [].
Proof.
  intros Hfresh.
  assert (Hout : forall t, t ∈ allTrees d -> nextNode d ∉ nodes t).
  { intros t Ht Hin. assert (nextNode d < nextNode d)%nat; [|lia].
    apply Hfresh. apply list_elem_of_In, in_flat_map. exists t.
    rewrite <- !list_elem_of_In. auto. }
  split.
  - apply memb_not_elem, Hout. left.
  - unfold subtreeOf.
    replace (firstSome _) with (@None tree); [reflexivity|].
    symmetry. apply firstSome_map_None. intros t Ht. apply subtree_absent, Hout, Ht.
Qed.

Section Transfer.

Variable h : Host.

(** The selectors are tried in order; when none matches, the document is as
    before. *)
Lemma someMatches_none el sels s :
  (forall selector, selector ∈ sels -> doesNotMatch h (doc s) el selector) ->
  exists s', someMatches h el sels s = Normal false s' /\
             doc s' = doc s /\ objects s' = objects s /\
             fixedLayer_ s' = fixedLayer_ s.
Proof.
  revert s. induction sels as [|selector rest IH]; intros s Hno; simpl.
  - exists s. auto.
  - unfold bind.
    assert (Hm : exists s1, matches_ h el selector s = Normal false s1 /\
                   doc s1 = doc s /\ objects s1 = objects s /\
                   fixedLayer_ s1 = fixedLayer_ s).
    { specialize (Hno selector). unfold doesNotMatch in Hno.
      unfold matches_, bind, get.
      destruct (matcher h (doc s) el) as [m|]; [|exists s; auto].
      destruct (m selector) as [[|]|e] eqn:E; simpl.
      - exfalso. apply Hno; [left|reflexivity].
      - exists s. auto.
      - eexists. split; [reflexivity|]. auto. }
    destruct Hm as (s1 & -> & Hd & Ho & Hl).
    destruct (IH s1) as (s' & -> & Hd' & Ho' & Hl').
    + intros sel Hsel. rewrite Hd. apply Hno. right. exact Hsel.
    + exists s'. repeat split; congruence.
Qed.

(** The placeholder of an element that has none yet is a new node. *)
Lemma placeholder_created fe s :
  let el := element (deref s fe) in
  exists sc,
    bind (setStyle el "pointer-events" "initial") (fun _ =>
      bind docCreateElement (fun p =>
        bind (setPlaceholder fe p) (fun _ =>
          bind (modifyDoc (setAttribute p "i-amp-fixedid" (id (deref s fe))))
            (fun _ => bind (setStyle p "display" "none") (fun _ => ret p))))) s
    = Normal (nextNode (doc s)) sc /\
    documentElement (doc sc) = documentElement (doc s) /\
    detached (doc sc) = detached (doc s) /\
    fixedLayer_ sc = fixedLayer_ s /\
    placeholder (deref sc fe) = Some (nextNode (doc s)) /\
    element (deref sc fe) = element (deref s fe) /\
    selectors (deref sc fe) = selectors (deref s fe).
Proof.
  intros el. eexists. split; [reflexivity|].
  repeat split; try reflexivity;
    unfold deref; simpl; rewrite lookup_total_insert_eq; reflexivity.
Qed.

(** The element is moved, once the placeholder is known. *)
Lemma transferMove_from el ph index m layer parent sb :
  wfDocument (doc sb) ->
  contains (doc sb) el = true -> parentElement (doc sb) el = Some parent ->
  contains (doc sb) ph = false -> subtreeOf (doc sb) ph = Node ph [] ->
  fixedLayer_ sb = Some layer -> contains (doc sb) layer = true ->
  memb layer (nodes (subtreeOf (doc sb) el)) = false ->
  exists s4,
    bind (modifyDoc (putStyle el "zIndex" (transferZIndex index m))) (fun _ =>
      bind (viaParentElement el (fun parent => replaceChild parent ph el)) (fun _ =>
        bind getFixedLayer_ (fun layer =>
          match layer with
          | Some layer => domCall (appendChild layer el)
          | None => throw TypeError
          end))) sb
    = Normal tt s4 /\
    documentElement (doc s4) =
      appendTo layer (subtreeOf (doc sb) el)
        (graft el (Node ph []) (documentElement (doc sb))) /\
    objects s4 = objects sb /\ fixedLayer_ s4 = Some layer.
Proof.
  intros Hwf Hel Hpar Hph Hleaf Hl Hcl Hout.
  set (d1 := putStyle el "zIndex" (transferZIndex index m) (doc sb)).
  destruct (replaceChild_puts_placeholder d1 parent el ph Hwf Hel Hpar Hph Hleaf)
    as (d2 & Hd2 & HT2 & Hsub2 & _).
  pose proof (wfDocument_tree _ Hwf) as Hnd.
  pose proof (parentElement_contained _ el parent Hwf Hel Hpar) as HparT.
  pose proof (subtreeOf_contained _ el Hel) as Hsub.
  apply memb_not_elem in Hout. apply memb_elem in Hcl.
  apply memb_not_elem in Hph.
  destruct (appendChild_moves d2 layer el (subtreeOf (doc sb) el)) as (d4 & Hd4 & HT4 & _).
  - exact Hsub2.
  - rewrite HT2. apply graft_removes.
    + apply (parentIn_not_root el parent _ Hnd HparT).
    + simpl. intros H. apply list_elem_of_singleton in H. subst ph.
      apply Hph. apply (parentIn_elem el _ parent HparT).
  - rewrite HT2. apply (graft_keeps el _ (subtreeOf (doc sb) el)); auto.
  - exact Hout.
  - rewrite (bind_normal _ _ sb tt (withDoc d1 sb)) by reflexivity.
    rewrite (bind_normal _ _ _ tt (withDoc d2 (withDoc d1 sb))).
    2:{ unfold viaParentElement, bind, get. cbn [doc withDoc].
        change (parentElement d1 el) with (parentElement (doc sb) el).
        rewrite Hpar. unfold domCall. cbn [doc withDoc].
        rewrite Hd2. reflexivity. }
    rewrite (bind_normal _ _ _ _ _ (getFixedLayer_existing (withDoc d2 (withDoc d1 sb)) layer Hl)).
    unfold domCall. change (doc (withDoc d2 (withDoc d1 sb))) with d2.
    rewrite Hd4. eexists. split; [reflexivity|]. simpl.
    split; [|auto]. rewrite HT4, HT2. reflexivity.
Qed.

(** The element of [fe] is moved to the fixed layer, and a leaf, the
    placeholder, is left in its place. *)
Lemma transferMove_moves fe index m s layer :
  readyForTransfer s fe layer ->
  let el := element (deref s fe) in
  let T := documentElement (doc s) in
  exists s4 ph parent,
    transferMove fe index m s = Normal tt s4 /\
    placeholder (deref s4 fe) = Some ph /\
    element (deref s4 fe) = el /\
    selectors (deref s4 fe) = selectors (deref s fe) /\
    documentElement (doc s4) =
      appendTo layer (subtreeOf (doc s) el) (graft el (Node ph []) T) /\
    (ph ∉ nodes T) /\ parentIn el T = Some parent /\
    fixedLayer_ s4 = Some layer.
Proof.
  intros (Hwf & Hfresh & Hl & Hcl & Hel & Hout & _ & Hph) el T.
  pose proof (wfDocument_tree _ Hwf) as Hnd.
  pose proof (subtreeOf_contained _ el Hel) as Hsub.
  assert (Hroot : el <> rootId T).
  { intros E. symmetry in E. apply subtree_root in E.
    fold T in Hsub. rewrite Hsub in E. injection E as E.
    apply memb_not_elem in Hout. apply Hout. fold el. rewrite E.
    apply memb_elem, Hcl. }
  destruct (parentIn_is_Some el T) as [parent Hpar]; [apply memb_elem, Hel|exact Hroot|].
  pose proof (parentElement_first _ _ _ Hpar) as HparE.
  unfold transferMove. rewrite (bind_normal get _ s s s eq_refl). fold el.
  destruct (placeholder (deref s fe)) as [ph|] eqn:Eph.
  - destruct (Hph ph eq_refl) as [Hcph Hleaf].
    rewrite (bind_normal (ret ph) _ s ph s eq_refl).
    destruct (transferMove_from el ph index m layer parent s
                Hwf Hel HparE Hcph Hleaf Hl Hcl Hout) as (s4 & E & HT & Ho & Hl4).
    exists s4, ph, parent. split; [exact E|].
    unfold deref. rewrite Ho. fold (deref s fe). rewrite Eph.
    repeat split; auto. apply memb_not_elem, Hcph.
  - destruct (placeholder_created fe s)
      as (sc & E & HT & HD & Hlc & Hphc & Helc & Hselc).
    fold el in E. rewrite (bind_normal _ _ _ _ _ E).
    destruct (sameTrees_facts (doc s) (doc sc) HT HD) as (Hwfc & Hcc & Hpc & Hsc).
    destruct (fresh_placeholder (doc s) Hfresh) as [Hcph Hleaf].
    destruct (transferMove_from el (nextNode (doc s)) index m layer parent sc)
      as (s4 & E4 & HT4 & Ho & Hl4).
    + apply Hwfc, Hwf.
    + rewrite Hcc. exact Hel.
    + rewrite Hpc. exact HparE.
    + rewrite Hcc. exact Hcph.
    + rewrite Hsc. exact Hleaf.
    + rewrite Hlc. exact Hl.
    + rewrite Hcc. exact Hcl.
    + rewrite Hsc. exact Hout.
    + exists s4, (nextNode (doc s)), parent. split; [exact E4|].
      unfold deref. rewrite Ho. fold (deref sc fe).
      rewrite Hphc, Helc, Hselc, HT4, Hsc, HT.
      repeat split; auto. apply memb_not_elem, Hcph.
Qed.

(** With the element in the fixed layer and the placeholder in its place,
    [returnFromFixedLayer_] gives the document tree of before the move. *)
Lemma returnFromFixedLayer_restores fe s T parent ph layer sub :
  let el := element (deref s fe) in
  placeholder (deref s fe) = Some ph ->
  documentElement (doc s) = appendTo layer sub (graft el (Node ph []) T) ->
  NoDup (nodes T) -> ph ∉ nodes T ->
  subtree el T = Some sub -> parentIn el T = Some parent ->
  layer ∈ nodes T -> layer ∉ nodes sub ->
  parentElement (doc s) el = Some layer /\
  exists s', returnFromFixedLayer_ (ArgFixedElement fe) s = Normal tt s' /\
             documentElement (doc s') = T /\
             getStyle (doc s') el "zIndex" = "".
Proof.
  intros el Hph HT Hnd HphT Hsub Hpar Hlayer Hout.
  destruct (replaceChild_restores (doc s) T parent el ph sub layer
              HT Hnd HphT Hsub Hpar Hlayer Hout)
    as (Hcph & Hcel & Hpph & Hpel & _).
  split; [exact Hpel|].
  unfold returnFromFixedLayer_. rewrite (bind_normal get _ s s s eq_refl).
  change (argPlaceholder s (ArgFixedElement fe)) with (placeholder (deref s fe)).
  change (argElement s (ArgFixedElement fe)) with (Some el).
  rewrite Hph, Hcph, Hcel. cbn [negb].
  destruct (truthy (getStyle (doc s) el "zIndex")) eqn:Hz.
  - set (d1 := putStyle el "zIndex" "" (doc s)).
    destruct (replaceChild_restores d1 T parent el ph sub layer
                HT Hnd HphT Hsub Hpar Hlayer Hout)
      as (_ & _ & _ & _ & d' & Hd' & HT' & Hsame).
    rewrite (bind_normal _ _ s tt (withDoc d1 s)) by reflexivity.
    unfold viaParentElement, bind, get. cbn [doc withDoc].
    change (parentElement d1 ph) with (parentElement (doc s) ph).
    rewrite Hpph. unfold domCall. cbn [doc withDoc]. rewrite Hd'.
    eexists. split; [reflexivity|]. simpl. split; [exact HT'|].
    rewrite (getStyle_sameButTrees _ _ _ _ Hsame). apply getStyle_putStyle_eq.
  - destruct (replaceChild_restores (doc s) T parent el ph sub layer
                HT Hnd HphT Hsub Hpar Hlayer Hout)
      as (_ & _ & _ & _ & d' & Hd' & HT' & Hsame).
    rewrite (bind_normal _ _ s tt s) by reflexivity.
    unfold viaParentElement, bind, get.
    rewrite Hpph. unfold domCall. rewrite Hd'.
    eexists. split; [reflexivity|]. simpl. split; [exact HT'|].
    rewrite (getStyle_sameButTrees _ _ _ _ Hsame). apply truthy_false, Hz.
Qed.

(** C8: an element is moved to the fixed layer, and in its new place none
    of the selectors recorded for it matches any more.  Then the transfer is
    reversed at once: [transferToFixedLayer_] ends normally, the document
    tree is the one of before the call, so the element has the parent it
    had, and the inline z-index of the element is empty. *)
Theorem rematch_failure_reverses fe index m s layer :
  readyForTransfer s fe layer ->
  let el := element (deref s fe) in
  let moved := finalState (transferMove fe index m s) in
  (forall selector, selector ∈ selectors (deref s fe) ->
                    doesNotMatch h (doc moved) el selector) ->
  let c := transferToFixedLayer_ h fe index m s in
  parentElement (doc moved) el = Some layer /\
  threw c = false /\
  documentElement (doc (finalState c)) = documentElement (doc s) /\
  parentElement (doc (finalState c)) el = parentElement (doc s) el /\
  getStyle (doc (finalState c)) el "zIndex" = "".
Proof.
  intros Hready el moved Hno c.
  destruct (transferMove_moves fe index m s layer Hready)
    as (s4 & ph & parent & E & Hph & Hel4 & Hsel4 & HT4 & HphT & Hpar & Hl4).
  destruct Hready as (Hwf & _ & Hl & Hcl & Hel & Hout & Hnot & _).
  fold el in Hel, Hout, Hnot, HT4, Hpar, Hel4.
  pose proof (wfDocument_tree _ Hwf) as Hnd.
  pose proof (subtreeOf_contained _ el Hel) as Hsub.
  apply memb_elem in Hcl. apply memb_not_elem in Hout.
  assert (Em : moved = s4) by (unfold moved; rewrite E; reflexivity).
  rewrite Em in Hno |- *.
  destruct (someMatches_none el (selectors (deref s fe)) s4 Hno)
    as (s5 & E5 & Hd5 & Ho5 & Hl5).
  assert (Hderef : deref s5 fe = deref s4 fe) by (unfold deref; rewrite Ho5; reflexivity).
  destruct (returnFromFixedLayer_restores fe s5 (documentElement (doc s)) parent ph
              layer (subtreeOf (doc s) el)) as (Hp5 & s6 & E6 & HT6 & Hz6).
  - rewrite Hderef. exact Hph.
  - rewrite Hderef, Hel4, Hd5. exact HT4.
  - exact Hnd.
  - exact HphT.
  - rewrite Hderef, Hel4. exact Hsub.
  - rewrite Hderef, Hel4. exact Hpar.
  - exact Hcl.
  - exact Hout.
  - rewrite Hderef, Hel4 in Hp5, Hz6. rewrite Hd5 in Hp5.
    split; [exact Hp5|].
    assert (Ec : c = Normal tt s6).
    { unfold c, transferToFixedLayer_. rewrite (bind_normal get _ s s s eq_refl).
      fold el. rewrite bool_decide_eq_false_2 by (rewrite Hl; exact Hnot).
      rewrite (bind_normal _ _ _ _ _ E).
      unfold transferRematch. rewrite (bind_normal get _ s4 s4 s4 eq_refl).
      rewrite Hel4, Hsel4. rewrite (bind_normal _ _ _ _ _ E5). exact E6. }
    rewrite Ec. cbn [threw finalState].
    split; [reflexivity|]. split; [exact HT6|]. split; [|exact Hz6].
    rewrite (parentElement_first _ _ _ Hpar).
    apply parentElement_first. rewrite HT6. exact Hpar.
Qed.

End Transfer.

(** C8, on an input: the banner is registered for [div .banner]; once it is
    a child of the fixed layer (node 5) the selector does not match. *)
Lemma rematch_failure_reverses_witness :
  let m := measureElement descendantBrowser (doc layered) 3 in
  let c := transferToFixedLayer_ descendantBrowser 0 0 m layered in
  parentElement (doc (finalState (transferMove 0 0 m layered))) 3 = Some 5%nat /\
  threw c = false /\
  documentElement (doc (finalState c)) = documentElement (doc layered) /\
  parentElement (doc (finalState c)) 3 = Some 2%nat /\
  getStyle (doc (finalState c)) 3 "zIndex" = "".
Proof.
  refine (rematch_failure_reverses descendantBrowser 0 0
            (measureElement descendantBrowser (doc layered) 3) layered 5%nat _ _).
  - unfold readyForTransfer. repeat split.
    + unfold wfDocument. vm_compute. repeat constructor; vm_compute;
        intros H; repeat (apply elem_of_cons in H as [H|H]; [discriminate|]);
        inversion H.
    + vm_compute. intros n H.
      repeat (apply elem_of_cons in H as [->|H]; [lia|]). inversion H.
    + vm_compute. discriminate.
    + vm_compute in H. discriminate.
    + vm_compute in H. discriminate.
  - intros selector H. vm_compute in H.
    apply list_elem_of_singleton in H as ->. vm_compute. discriminate.
Defined.

(* ===================================================================== *)
(** ** The selectors that [discoverFixedSelectors_] finds *)
(* ===================================================================== *)

Lemma CSSRule_nested_ind (P : CSSRule -> Prop) :
  (forall sel pos, P (CSSStyleRule sel pos)) ->
  (forall rules, Forall P rules -> P (CSSMediaRule rules)) ->
  (forall rules, Forall P rules -> P (CSSSupportsRule rules)) ->
  (forall type, P (CSSOtherRule type)) ->
  forall rule, P rule.
Proof.
  intros Hstyle Hmedia Hsupports Hother. fix IH 1.
  intros [sel pos|rules|rules|type].
  - apply Hstyle.
  - apply Hmedia. induction rules as [|r rs IHrs]; constructor; [apply IH|exact IHrs].
  - apply Hsupports. induction rules as [|r rs IHrs]; constructor; [apply IH|exact IHrs].
  - apply Hother.
Qed.

Lemma discoverFixedSelectors_cons rule rules found :
  discoverFixedSelectors_ (rule :: rules) found =
  discoverFixedSelectors_ rules (discoverRule rule found).
Proof. reflexivity. Qed.

Lemma discoverFixedSelectors_elem rules :
  Forall (fun rule => forall found sel,
            sel ∈ discoverRule rule found <-> sel ∈ found \/ declaresFixed rule sel)
         rules ->
  forall found sel,
    sel ∈ discoverFixedSelectors_ rules found <->
    sel ∈ found \/ exists rule, rule ∈ rules /\ declaresFixed rule sel.
Proof.
  induction 1 as [|rule rules Hrule _ IH]; intros found sel.
  - simpl. split; [auto|]. intros [H|(r & Hr & _)]; [exact H|inversion Hr].
  - rewrite discoverFixedSelectors_cons, IH, Hrule. split.
    + intros [[H|H]|(r & Hr & Hd)].
      * left. exact H.
      * right. exists rule. split; [apply elem_of_cons; auto|exact H].
      * right. exists r. split; [apply elem_of_cons; auto|exact Hd].
    + intros [H|(r & Hr & Hd)]; [auto|].
      apply elem_of_cons in Hr as [->|Hr]; [auto|].
      right. exists r. auto.
Qed.

Lemma discoverRule_elem rule :
  forall found sel,
    sel ∈ discoverRule rule found <-> sel ∈ found \/ declaresFixed rule sel.
Proof.
  induction rule as [selectorText position|rules IH|rules IH|type]
    using CSSRule_nested_ind; intros found sel.
  - simpl. destruct (String.eqb selectorText "*") eqn:Estar; simpl.
    + apply String.eqb_eq in Estar. subst. split; [auto|].
      intros [H|H]; [exact H|]. inversion H; subst. congruence.
    + apply String.eqb_neq in Estar.
      destruct (String.eqb position "fixed") eqn:Efixed.
      * apply String.eqb_eq in Efixed. subst.
        rewrite elem_of_app, list_elem_of_singleton. split.
        -- intros [H| ->]; [auto|]. right. constructor. exact Estar.
        -- intros [H|H]; [auto|]. inversion H; subst. auto.
      * apply String.eqb_neq in Efixed. split; [auto|].
        intros [H|H]; [exact H|]. inversion H; subst. congruence.
  - change (discoverRule (CSSMediaRule rules) found)
      with (discoverFixedSelectors_ rules found).
    rewrite (discoverFixedSelectors_elem rules IH). split.
    + intros [H|(r & Hr & Hd)]; [auto|]. right. econstructor; eauto.
    + intros [H|H]; [auto|]. inversion H; subst. eauto.
  - change (discoverRule (CSSSupportsRule rules) found)
      with (discoverFixedSelectors_ rules found).
    rewrite (discoverFixedSelectors_elem rules IH). split.
    + intros [H|(r & Hr & Hd)]; [auto|]. right. econstructor; eauto.
    + intros [H|H]; [auto|]. inversion H; subst. eauto.
  - simpl. split; [auto|]. intros [H|H]; [exact H|inversion H].
Qed.

Lemma declaresFixed_not_universal rule sel : declaresFixed rule sel -> sel <> "*".
Proof. induction 1; auto. Qed.

(** X1: the selectors that [discoverFixedSelectors_] leaves in the array are
    the ones that were in it and the selectors for which a rule declares
    [position: fixed], directly or inside [@media] and [@supports] rules at
    any depth; rules of other types add nothing, and the universal selector
    is never added. *)
Theorem discoverFixedSelectors_finds (rules : list CSSRule) (found : list string)
    (sel : string) :
  (sel ∈ discoverFixedSelectors_ rules found <->
   sel ∈ found \/ exists rule, rule ∈ rules /\ declaresFixed rule sel) /\
  ("*" ∈ discoverFixedSelectors_ rules found <-> "*" ∈ found).
Proof.
  assert (H : forall sel,
             sel ∈ discoverFixedSelectors_ rules found <->
             sel ∈ found \/ exists rule, rule ∈ rules /\ declaresFixed rule sel).
  { intros sel'. apply discoverFixedSelectors_elem.
    apply Forall_forall. intros rule _. apply discoverRule_elem. }
  split; [apply H|]. rewrite H. split; [|auto].
  intros [Hin|(rule & _ & Hd)]; [exact Hin|].
  exfalso. exact (declaresFixed_not_universal _ _ Hd eq_refl).
Qed.

Lemma discoverFixedSelectors_appends rules :
  Forall (fun rule => forall found,
            discoverRule rule found = (found ++ discoverRule rule [])%list) rules ->
  forall found,
    discoverFixedSelectors_ rules found =
    (found ++ discoverFixedSelectors_ rules [])%list.
Proof.
  induction 1 as [|rule rules Hrule _ IH]; intros found.
  - simpl. rewrite app_nil_r. reflexivity.
  - rewrite !discoverFixedSelectors_cons.
    rewrite (IH (discoverRule rule found)), (IH (discoverRule rule [])), Hrule.
    rewrite app_assoc. reflexivity.
Qed.

Lemma discoverRule_appends rule :
  forall found, discoverRule rule found = (found ++ discoverRule rule [])%list.
Proof.
  induction rule as [selectorText position|rules IH|rules IH|type]
    using CSSRule_nested_ind; intros found.
  - simpl. destruct (_ && _); [reflexivity|]. rewrite app_nil_r. reflexivity.
  - apply (discoverFixedSelectors_appends rules IH).
  - apply (discoverFixedSelectors_appends rules IH).
  - simpl. rewrite app_nil_r. reflexivity.
Qed.

(** X2: [discoverFixedSelectors_] only adds at the end of the array, and
    what it adds does not depend on what the array holds; the selectors of
    two lists of rules are found one list after the other. *)
Theorem discoverFixedSelectors_only_appends (rules1 rules2 : list CSSRule)
    (found : list string) :
  discoverFixedSelectors_ rules1 found =
    (found ++ discoverFixedSelectors_ rules1 [])%list /\
  discoverFixedSelectors_ (rules1 ++ rules2) found =
    (found ++ discoverFixedSelectors_ rules1 [] ++
     discoverFixedSelectors_ rules2 [])%list.
Proof.
  assert (H : forall rules found,
             discoverFixedSelectors_ rules found =
             (found ++ discoverFixedSelectors_ rules [])%list).
  { intros rules found'. apply discoverFixedSelectors_appends.
    apply Forall_forall. intros rule _. apply discoverRule_appends. }
  split; [apply H|].
  unfold discoverFixedSelectors_ at 1. rewrite fold_left_app.
  fold (discoverFixedSelectors_ rules1 found).
  fold (discoverFixedSelectors_ rules2 (discoverFixedSelectors_ rules1 found)).
  rewrite (H rules2), (H rules1 found), app_assoc. reflexivity.
Qed.

(* ===================================================================== *)
(** ** The loops of [setup] *)
(* ===================================================================== *)

Lemma withFixedElements_same s l : fixedElements_ s = l -> withFixedElements l s = s.
Proof. intros <-. destruct s; reflexivity. Qed.

Lemma discoverAll_filter sheets : forall found s,
  discoverAll sheets found s =
  discoverAll (List.filter (fun sheet => negb (skipsStyleSheet sheet)) sheets) found s.
Proof.
  induction sheets as [|sheet sheets IH]; intros found s; [reflexivity|].
  simpl. destruct (skipsStyleSheet sheet) eqn:E; simpl.
  - apply IH.
  - rewrite E. destruct (sheetRules sheet); [apply IH|reflexivity].
Qed.

Lemma discoverAll_skipped sheets found s :
  (forall sheet, sheet ∈ sheets -> skipsStyleSheet sheet = true) ->
  discoverAll sheets found s = Normal found s.
Proof.
  induction sheets as [|sheet sheets IH]; intros Hskip; [reflexivity|].
  simpl. rewrite (Hskip sheet) by left. apply IH.
  intros sh Hsh. apply Hskip. right. exact Hsh.
Qed.

(** X3: [setup] does not read the rules of a style sheet that it skips (a
    disabled sheet, a sheet without an owner node, one that is not owned by a
    [STYLE] element, or the boilerplate, runtime and extension sheets): the
    selectors found are those of the other sheets.  When every sheet is
    skipped nothing is found, whether the rules can be read or not, and
    [setup] on a FixedLayer that tracks nothing changes nothing. *)
Theorem skipped_sheets_are_not_read (sheets : list StyleSheet)
    (found : list string) (s : FixedLayer) :
  discoverAll sheets found s =
    discoverAll (List.filter (fun sheet => negb (skipsStyleSheet sheet)) sheets)
      found s /\
  ((forall sheet, sheet ∈ sheets -> skipsStyleSheet sheet = true) ->
   discoverAll sheets found s = Normal found s) /\
  (forall h,
     styleSheets (doc s) = Some sheets ->
     (forall sheet, sheet ∈ sheets -> skipsStyleSheet sheet = true) ->
     fixedElements_ s = [] ->
     setup h s = Normal tt s).
Proof.
  split; [apply discoverAll_filter|].
  split; [apply discoverAll_skipped|].
  intros h Hsheets Hskip Hempty.
  unfold setup. rewrite (bind_normal get _ s s s eq_refl), Hsheets.
  rewrite (bind_normal _ _ _ _ _ (discoverAll_skipped sheets [] s Hskip)).
  cbn [registerSelectors].
  rewrite (bind_normal (tryCatch (ret tt) _) _ s tt s eq_refl).
  rewrite (bind_normal sortInDomOrder_ _ s tt s).
  - apply update_empty, Hempty.
  - unfold sortInDomOrder_, modify. rewrite Hempty.
    change (arraySort (domOrderCompare s) []) with (@nil ref).
    rewrite (withFixedElements_same s []) by exact Hempty. reflexivity.
Qed.

Example boilerplate_is_not_read :
  skipsStyleSheet authorSheet = false /\
  trackedElements (finalState (setup browser (constructor boilerplatePage 0 true))) =
    [3%nat] /\
  uncaught (finalState (setup browser (constructor boilerplatePage 0 true))) = [].
Proof. repeat split; vm_compute; reflexivity. Qed.

Section Registration.

Variable h : Host.

Lemma registerSelectors_app sels1 sels2 : forall s,
  registerSelectors h (sels1 ++ sels2) s =
  bind (registerSelectors h sels1) (fun _ => registerSelectors h sels2) s.
Proof.
  induction sels1 as [|selector sels1 IH]; intros s; [reflexivity|].
  cbn [app registerSelectors].
  unfold bind, get.
  destruct (querySelectorAll h (doc s) selector) as [elements|e]; [|reflexivity].
  destruct (registerMatches elements 0 selector s) as [[] s1|e s1]; [|reflexivity].
  rewrite IH. reflexivity.
Qed.

(** X4: when the host rejects a selector in [querySelectorAll], the loop of
    [setup] over the selectors ends there: the elements of the selectors
    before it stay registered, the selectors after it are not queried, and
    the error is thrown again from a timer. *)
Theorem registration_stops_at_error (sels1 : list string) (bad : string)
    (sels2 : list string) (s s1 : FixedLayer) (e : Exn) :
  registerSelectors h sels1 s = Normal tt s1 ->
  querySelectorAll h (doc s1) bad = Raises e ->
  registerSelectors h (sels1 ++ bad :: sels2) s = Throw e s1 /\
  tryCatch (registerSelectors h (sels1 ++ bad :: sels2)) setTimeoutThrow s =
    Normal tt (withUncaught (uncaught s1 ++ [e])%list s1).
Proof.
  intros E1 Ebad.
  assert (E : registerSelectors h (sels1 ++ bad :: sels2) s = Throw e s1).
  { rewrite registerSelectors_app, (bind_normal _ _ _ _ _ E1).
    cbn [registerSelectors]. rewrite (bind_normal get _ s1 s1 s1 eq_refl), Ebad.
    reflexivity. }
  split; [exact E|]. unfold tryCatch. rewrite E. reflexivity.
Qed.

(** [selectors.some(..)] ends normally, leaves the document and the tracked
    objects alone, and answers whether the matcher accepts a selector. *)
Lemma someMatches_result el sels : forall s,
  exists b s',
    someMatches h el sels s = Normal b s' /\
    doc s' = doc s /\ objects s' = objects s /\
    fixedElements_ s' = fixedElements_ s /\
    uncaught s `prefix_of` uncaught s' /\
    (b = true <->
     exists selector matcherFn,
       selector ∈ sels /\ matcher h (doc s) el = Some matcherFn /\
       matcherFn selector = Returns true).
Proof.
  induction sels as [|selector sels IH]; intros s.
  - exists false, s. repeat split; auto.
    + discriminate.
    + intros (sel & _ & H & _). inversion H.
  - cbn [someMatches].
    assert (Hm : exists b s1,
               matches_ h el selector s = Normal b s1 /\
               doc s1 = doc s /\ objects s1 = objects s /\
               fixedElements_ s1 = fixedElements_ s /\
               uncaught s `prefix_of` uncaught s1 /\
               (b = true <->
                exists matcherFn, matcher h (doc s) el = Some matcherFn /\
                                  matcherFn selector = Returns true)).
    { unfold matches_. rewrite (bind_normal get _ s s s eq_refl).
      destruct (matcher h (doc s) el) as [m|] eqn:Em.
      - destruct (m selector) as [b|e] eqn:Eb.
        + exists b, s. repeat split; auto.
          * intros ->. eauto.
          * intros (m' & Hm' & Hb). congruence.
        + eexists false, _. split; [reflexivity|]. simpl. repeat split; auto.
          * apply prefix_app_r. reflexivity.
          * discriminate.
          * intros (m' & Hm' & Hb). congruence.
      - exists false, s. repeat split; auto.
        + discriminate.
        + intros (m' & Hm' & _). discriminate. }
    destruct Hm as (b & s1 & E & Hd & Ho & Hf & Hu & Hb).
    rewrite (bind_normal _ _ _ _ _ E). destruct b.
    + exists true, s1. repeat split; auto.
      intros _. destruct (proj1 Hb eq_refl) as (m & Hm & Hsel).
      exists selector, m. split; [left|auto].
    + destruct (IH s1) as (b' & s' & E' & Hd' & Ho' & Hf' & Hu' & Hb').
      exists b', s'. split; [exact E'|].
      repeat split; try congruence.
      * etrans; eauto.
      * intros Hb1. destruct (proj1 Hb' Hb1) as (sel & m & Hin & Hm & Hsel).
        exists sel, m. rewrite <- Hd. split; [right; exact Hin|auto].
      * intros (sel & m & Hin & Hm & Hsel).
        apply Hb'. apply elem_of_cons in Hin as [->|Hin].
        -- assert (false = true); [|discriminate]. apply Hb. eauto.
        -- exists sel, m. rewrite Hd. auto.
Qed.

(** X5: the test of [transferToFixedLayer_] over the selectors of an element
    never throws and changes neither the document nor the tracked objects;
    it answers true exactly when the host has a matcher for the element and
    the matcher accepts one of the selectors.  A selector that makes the
    matcher raise counts as not matching, and the error is thrown again from
    a timer. *)
Theorem someMatches_iff (el : node) (sels : list string) (s : FixedLayer) :
  exists b s',
    someMatches h el sels s = Normal b s' /\
    doc s' = doc s /\ objects s' = objects s /\
    fixedElements_ s' = fixedElements_ s /\
    uncaught s `prefix_of` uncaught s' /\
    (b = true <->
     exists selector matcherFn,
       selector ∈ sels /\ matcher h (doc s) el = Some matcherFn /\
       matcherFn selector = Returns true).
Proof. apply someMatches_result. Qed.

End Registration.

(** X4, on an input: the page declares [.banner], then a selector that the
    host rejects, then [.banner] again. *)
Lemma registration_stops_at_error_witness :
  let s := constructor badSelectorPage 0 true in
  let c := registerSelectors strictBrowser
             [".banner"; ":-vendor-thing"; ".banner"] s in
  threw c = true /\
  selectors <$> trackerOf (finalState c) 3 = Some [".banner"].
Proof.
  pose proof (registration_stops_at_error strictBrowser [".banner"]
                ":-vendor-thing" [".banner"] (constructor badSelectorPage 0 true)
                _ SyntaxError eq_refl eq_refl) as [E _].
  cbn zeta. change ([".banner"; ":-vendor-thing"; ".banner"])
    with ([".banner"] ++ ":-vendor-thing" :: [".banner"])%list.
  rewrite E. split; vm_compute; reflexivity.
Defined.

(* ===================================================================== *)
(** ** The array of tracked objects *)
(* ===================================================================== *)

Lemma NoDup_map_on {A B} (f : A -> B) (l : list A) :
  (forall x y, x ∈ l -> y ∈ l -> f x = f y -> x = y) ->
  NoDup l -> NoDup (List.map f l).
Proof.
  intros Hinj Hnd. induction Hnd as [|x l Hx Hnd IH]; simpl; constructor.
  - intros Hin. apply list_elem_of_In, in_map_iff in Hin as (y & Hy & Hin).
    apply list_elem_of_In in Hin.
    assert (y = x) by (apply Hinj; [right; exact Hin|left|exact Hy]).
    subst. contradiction.
  - apply IH. intros a b Ha Hb. apply Hinj; right; assumption.
Qed.

Lemma filter_all {A} (p : A -> bool) (l : list A) :
  (forall x, x ∈ l -> p x = true) -> List.filter p l = l.
Proof.
  induction l as [|x l IH]; intros H; simpl; [reflexivity|].
  rewrite (H x) by left. f_equal. apply IH. intros y Hy. apply H. right. exact Hy.
Qed.

Lemma NoDup_List_filter {A} (p : A -> bool) (l : list A) :
  NoDup l -> NoDup (List.filter p l).
Proof.
  induction 1 as [|x l Hx Hnd IH]; simpl; [constructor|].
  destruct (p x); [|exact IH]. constructor; [|exact IH].
  intros Hin. apply list_elem_of_In, filter_In in Hin as [Hin _].
  apply Hx, list_elem_of_In, Hin.
Qed.

Lemma splice1_sublist {A} (i : nat) (l : list A) : splice1 i l `sublist_of` l.
Proof.
  revert i. induction l as [|x l IH]; intros i.
  - destruct i; constructor.
  - destruct i; unfold splice1; simpl.
    + apply sublist_cons. reflexivity.
    + apply sublist_skip. apply IH.
Qed.

Lemma registryOk_ids s : registryOk s -> NoDup (trackedIds s).
Proof.
  intros (_ & Hnd & _ & Hid). apply NoDup_map_on; [|exact Hnd].
  intros x y Hx Hy E. rewrite (Hid x Hx), (Hid y Hy) in E.
  injection E as E. unfold natToString in E. exact (inj pretty _ _ E).
Qed.

Lemma trackedElements_ext s s' l :
  (forall r, r ∈ l -> element (deref s' r) = element (deref s r)) ->
  List.map (fun fe => element (deref s' fe)) l =
  List.map (fun fe => element (deref s fe)) l.
Proof.
  intros H. apply map_ext_in. intros r Hr. apply H, list_elem_of_In, Hr.
Qed.

Lemma registryOk_same s s' :
  fixedElements_ s' = fixedElements_ s -> counter_ s' = counter_ s ->
  (forall r, id (deref s' r) = id (deref s r)) ->
  (forall r, element (deref s' r) = element (deref s r)) ->
  registryOk s -> registryOk s'.
Proof.
  intros Hf Hc Hid Hel (Hwf & Hnd & Hne & Hids).
  unfold registryOk, wfRegistry, trackedElements. rewrite Hf, Hc.
  repeat split; auto.
  - rewrite (trackedElements_ext s s') by auto. exact Hne.
  - intros r Hr. rewrite Hid. auto.
Qed.

Lemma registryOk_frame s0 s : frame s0 s -> registryOk s0 -> registryOk s.
Proof.
  intros [] H. apply (registryOk_same s0); auto.
Qed.

Lemma preserves_of_frame {A} (P : FixedLayer -> Prop) (m : JS A) :
  (forall s0 s, frame s0 s -> P s0 -> P s) ->
  (forall s0, preserves (frame s0) m) ->
  preserves P m.
Proof.
  intros HP Hm s Hs. apply (HP s); [|exact Hs]. apply Hm, frame_refl.
Qed.

Lemma registryOk_setupFixedElement_ el selector :
  preserves registryOk (setupFixedElement_ el selector).
Proof.
  intros s (Hwf & Hnd & Hne & Hids).
  destruct (findElement s el (fixedElements_ s) O) as [[i fe]|] eqn:E.
  - unfold setupFixedElement_. rewrite E. cbn [finalState].
    apply (registryOk_same s); [reflexivity|reflexivity| | |repeat split; auto];
      intros r; rewrite deref_withObjects_insert;
      destruct (decide (fe = r)) as [->|]; reflexivity.
  - assert (Hnew : el ∉ trackedElements s).
    { intros Hin. apply trackedElements_elem in Hin as (r & Hr & Her).
      apply (proj1 (findElement_None s el _ O) E r Hr Her). }
    destruct (setupFixedElement_fresh el selector s Hwf Hnew) as [Htr Hwf'].
    split; [exact Hwf'|]. rewrite Htr.
    unfold setupFixedElement_. rewrite E. cbn [finalState].
    split; [|split].
    + simpl. apply NoDup_app. split; [exact Hnd|]. split; [|apply NoDup_singleton].
      intros r Hr Hc. apply list_elem_of_singleton in Hc. apply Hwf in Hr. lia.
    + apply NoDup_app. split; [exact Hne|]. split; [|apply NoDup_singleton].
      intros x Hx Hc. apply list_elem_of_singleton in Hc. subst. contradiction.
    + intros r Hr. simpl in Hr. unfold deref. simpl.
      apply elem_of_app in Hr as [Hr|Hr].
      * rewrite lookup_total_insert_ne by (apply Hwf in Hr; lia).
        apply Hids, Hr.
      * apply list_elem_of_singleton in Hr. subst.
        rewrite lookup_total_insert_eq. reflexivity.
Qed.

(** Taking the first entry of [el] out of the array. *)
Lemma findElement_splice s el l : forall i0,
  NoDup (List.map (fun fe => element (deref s fe)) l) ->
  match findElement s el l i0 with
  | Some (j, _) =>
      List.map (fun fe => element (deref s fe)) (splice1 (j - i0) l) =
      List.filter (fun x => negb (Nat.eqb x el))
        (List.map (fun fe => element (deref s fe)) l)
  | None =>
      List.filter (fun x => negb (Nat.eqb x el))
        (List.map (fun fe => element (deref s fe)) l) =
      List.map (fun fe => element (deref s fe)) l
  end.
Proof.
  induction l as [|r l IH]; intros i0 Hnd; [reflexivity|].
  simpl in Hnd. apply NoDup_cons in Hnd as [Hr Hnd].
  cbn [findElement]. destruct (Nat.eqb (element (deref s r)) el) eqn:E.
  - replace (i0 - i0)%nat with O by lia. unfold splice1. simpl. rewrite E. simpl.
    symmetry. apply filter_all. intros x Hx.
    apply Nat.eqb_eq in E. subst el.
    apply negb_true_iff, Nat.eqb_neq. intros ->. contradiction.
  - specialize (IH (S i0) Hnd).
    destruct (findElement s el l (S i0)) as [[j fe]|] eqn:F.
    + apply findElement_Some in F as (Hle & _).
      replace (j - i0)%nat with (S (j - S i0)) by lia.
      unfold splice1 in *. simpl. rewrite E. simpl. f_equal. exact IH.
    + simpl. rewrite E. simpl. f_equal. exact IH.
Qed.

Lemma removeFixedElement_filter el s :
  NoDup (trackedElements s) ->
  trackedElements (finalState (removeFixedElement_ el s)) =
  List.filter (fun x => negb (Nat.eqb x el)) (trackedElements s).
Proof.
  intros Hnd. pose proof (findElement_splice s el (fixedElements_ s) O Hnd) as H.
  unfold removeFixedElement_.
  destruct (findElement s el (fixedElements_ s) O) as [[j fe]|]; cbn [finalState].
  - replace (j - 0)%nat with j in H by lia. exact H.
  - symmetry. exact H.
Qed.

Lemma registryOk_removeFixedElement_ el :
  preserves registryOk (removeFixedElement_ el).
Proof.
  intros s (Hwf & Hnd & Hne & Hids).
  pose proof (removeFixedElement_filter el s Hne) as Hfilter.
  assert (Hsub : fixedElements_ (finalState (removeFixedElement_ el s))
                   `sublist_of` fixedElements_ s).
  { unfold removeFixedElement_.
    destruct (findElement s el (fixedElements_ s) O) as [[j fe]|]; cbn [finalState].
    - apply splice1_sublist.
    - reflexivity. }
  destruct (removeFixedElement_normal_form el s) as (s' & E & Ho & Hd).
  rewrite E in *. cbn [finalState] in *.
  assert (Hc : counter_ s' = counter_ s).
  { unfold removeFixedElement_ in E.
    destruct (findElement s el (fixedElements_ s) O) as [[j fe]|];
      injection E as <-; reflexivity. }
  repeat split.
  - intros r Hr. rewrite Hc. apply Hwf. exact (elem_of_sublist _ _ _ Hr Hsub).
  - exact (sublist_NoDup _ _ Hnd Hsub).
  - rewrite Hfilter. apply NoDup_List_filter, Hne.
  - intros r Hr. unfold deref. rewrite Ho. apply Hids.
    exact (elem_of_sublist _ _ _ Hr Hsub).
Qed.

Lemma registryOk_sortInDomOrder_ : preserves registryOk sortInDomOrder_.
Proof.
  intros s (Hwf & Hnd & Hne & Hids).
  unfold sortInDomOrder_, modify. cbn [finalState].
  pose proof (arraySort_Permutation (domOrderCompare s) (fixedElements_ s)) as Hp.
  repeat split.
  - intros r Hr. simpl in *. rewrite Hp in Hr. apply Hwf, Hr.
  - simpl. rewrite Hp. exact Hnd.
  - unfold trackedElements. simpl.
    change (NoDup (List.map (fun fe => element (deref s fe))
                     (arraySort (domOrderCompare s) (fixedElements_ s)))).
    rewrite (Permutation_map _ Hp). exact Hne.
  - intros r Hr. simpl in Hr. rewrite Hp in Hr. apply Hids, Hr.
Qed.

Lemma registryOk_removeAll toRemove : preserves registryOk (removeAll toRemove).
Proof.
  induction toRemove as [|fe rest IH]; simpl; preserves_struct;
    auto using registryOk_removeFixedElement_.
Qed.

Lemma registryOk_removeDetached : preserves registryOk removeDetached.
Proof.
  unfold removeDetached. preserves_struct. apply registryOk_removeAll.
Qed.

Lemma registryOk_withDoc d s : registryOk s -> registryOk (withDoc d s).
Proof. intros H. exact H. Qed.

Lemma registryOk_withUncaught u s : registryOk s -> registryOk (withUncaught u s).
Proof. intros H. exact H. Qed.

Lemma registryOk_registerMatches rest : forall i selector,
  preserves registryOk (registerMatches rest i selector).
Proof.
  induction rest as [|el rest IH]; intros i selector; simpl; preserves_struct;
    auto using registryOk_setupFixedElement_.
Qed.

Lemma registryOk_discoverAll sheets : forall found,
  preserves registryOk (discoverAll sheets found).
Proof.
  intros found s H.
  destruct (discoverAll_cases sheets found s) as [(sels & ->)|(e & sh & -> & _)];
    exact H.
Qed.

Section Invariant.

Variable h : Host.

Lemma registryOk_registerSelectors sels :
  preserves registryOk (registerSelectors h sels).
Proof.
  induction sels as [|selector sels IH]; simpl; preserves_struct;
    auto using registryOk_registerMatches.
Qed.

Lemma registryOk_update : preserves registryOk (update h).
Proof.
  unfold update. apply preserves_bind; [apply preserves_get|intros s0].
  destruct (Nat.eqb _ 0); [apply preserves_ret|].
  apply preserves_bind; [apply registryOk_removeDetached|intros _].
  apply (preserves_of_frame registryOk); [apply registryOk_frame|].
  intros s1. apply preserves_frame_cycle.
Qed.

Lemma registryOk_invoke c : preserves registryOk (invoke h c).
Proof.
  destruct c; simpl;
    unfold setVisible, setup, updatePaddingTop, addElement, removeElement,
      vsyncMutate, setStyle, modifyDoc, setTimeoutThrow;
    preserves_struct;
    first [ apply registryOk_update
          | apply registryOk_sortInDomOrder_
          | apply registryOk_setupFixedElement_
          | apply registryOk_removeFixedElement_
          | apply registryOk_discoverAll
          | apply registryOk_registerSelectors
          | apply preserves_modify; intros ? H; exact H
          | intros s H; rewrite returnFromFixedLayer_element; exact H ].
Qed.

End Invariant.

Lemma reachable_registryOk s : reachable s -> registryOk s.
Proof.
  induction 1 as [d p t|h c s _ IH|d s _ IH].
  - split; [intros r Hr; inversion Hr|].
    split; [constructor|]. split; [constructor|].
    intros r Hr. inversion Hr.
  - apply registryOk_invoke, IH.
  - exact IH.
Qed.

(** X6: in every state that a FixedLayer goes through, no element is
    tracked twice and no two tracked objects have the same id, so that the
    measurements of a cycle, which are kept by id, are never shared. *)
Theorem tracked_once (s : FixedLayer) :
  reachable s -> NoDup (trackedElements s) /\ NoDup (trackedIds s).
Proof.
  intros H. apply reachable_registryOk in H.
  split; [apply H|apply registryOk_ids, H].
Qed.

(* ===================================================================== *)
(** ** What is tracked after a removal, and what a cycle measures *)
(* ===================================================================== *)

Lemma reachable_pageScript f s : reachable s -> reachable (pageScript f s).
Proof.
  intros H. unfold pageScript. destruct (f (doc s)); [apply reachable_document|]; exact H.
Qed.

Lemma transferred_reachable : reachable transferred.
Proof.
  exact (reachable_call browser (CallAddElement 3) fresh (reachable_new page 0 true)).
Qed.

Lemma stacked_reachable : reachable stacked.
Proof.
  exact (reachable_call stackingBrowser (CallAddElement 4)
           (finalState (addElement stackingBrowser 3 fresh))
           (reachable_call stackingBrowser (CallAddElement 3) fresh
              (reachable_new page 0 true))).
Qed.

(** X6, on an input: the banner and the footer were added. *)
Lemma tracked_once_witness :
  NoDup (trackedElements stacked) /\ NoDup (trackedIds stacked).
Proof. exact (tracked_once stacked stacked_reachable). Defined.

Lemma filter_negb_eqb_absent (el : node) (l : list node) :
  el ∉ l -> List.filter (fun x => negb (Nat.eqb x el)) l = l.
Proof.
  intros H. apply filter_all. intros x Hx.
  apply negb_true_iff, Nat.eqb_neq. intros ->. contradiction.
Qed.



Lemma filter_List_filter {A} (p q : A -> bool) (l : list A) :
  List.filter p (List.filter q l) = List.filter (fun x => q x && p x) l.
Proof.
  induction l as [|x l IH]; simpl; [reflexivity|].
  destruct (q x); simpl; [destruct (p x)|]; rewrite ?IH; reflexivity.
Qed.

Lemma removeAll_filter toRemove : forall s,
  NoDup (trackedElements s) ->
  trackedElements (finalState (removeAll toRemove s)) =
  List.filter
    (fun x => negb (memb x (List.map (fun fe => element (deref s fe)) toRemove)))
    (trackedElements s).
Proof.
  induction toRemove as [|fe rest IH]; intros s Hnd.
  - simpl. symmetry. apply filter_all. reflexivity.
  - cbn [removeAll]. rewrite (bind_normal get _ s s s eq_refl).
    destruct (removeFixedElement_normal_form (element (deref s fe)) s)
      as (s1 & E1 & Ho & _).
    pose proof (removeFixedElement_filter (element (deref s fe)) s Hnd) as Hf.
    rewrite (bind_normal _ _ _ _ _ E1). rewrite E1 in Hf. cbn [finalState] in Hf.
    rewrite IH by (rewrite Hf; apply NoDup_List_filter, Hnd).
    rewrite Hf, filter_List_filter.
    assert (Hmap : List.map (fun r => element (deref s1 r)) rest =
                   List.map (fun r => element (deref s r)) rest).
    { apply map_ext. intros r. unfold deref. rewrite Ho. reflexivity. }
    rewrite Hmap. apply filter_ext. intros x. simpl.
    unfold memb. simpl. rewrite negb_orb. reflexivity.
Qed.

Lemma filter_map_commute {A B} (f : A -> B) (p : B -> bool) (l : list A) :
  List.map f (List.filter (fun x => p (f x)) l) = List.filter p (List.map f l).
Proof.
  induction l as [|x l IH]; simpl; [reflexivity|].
  destruct (p (f x)); simpl; rewrite IH; reflexivity.
Qed.

Lemma removeDetached_filter s :
  NoDup (trackedElements s) ->
  trackedElements (finalState (removeDetached s)) =
  List.filter (contains (doc s)) (trackedElements s).
Proof.
  intros Hnd. unfold removeDetached. rewrite (bind_normal get _ s s s eq_refl).
  rewrite (removeAll_filter _ s Hnd).
  rewrite (filter_map_commute (fun fe => element (deref s fe))
             (fun x => negb (contains (doc s) x))).
  fold (trackedElements s). apply filter_ext_in. intros x Hx.
  destruct (contains (doc s) x) eqn:E.
  - apply negb_true_iff, memb_not_elem. intros Hin.
    apply list_elem_of_In, filter_In in Hin as [_ Hin].
    rewrite E in Hin. discriminate.
  - apply negb_false_iff, memb_elem, list_elem_of_In, filter_In.
    rewrite E. auto.
Qed.

Section Tracking.

Variable h : Host.

Lemma update_decompose s :
  exists s1, removeDetached s = Normal tt s1 /\ frame s1 (finalState (update h s)).
Proof.
  destruct (removeDetached_normal s) as (s1 & E & _).
  destruct (fixedElements_ s) as [|r l] eqn:El.
  - exists s. split.
    + unfold removeDetached. rewrite (bind_normal get _ s s s eq_refl), El.
      reflexivity.
    + rewrite (update_empty h s El). apply frame_refl.
  - exists s1. split; [exact E|].
    unfold update. rewrite (bind_normal get _ s s s eq_refl), El.
    cbn [List.length Nat.eqb]. rewrite (bind_normal _ _ _ _ _ E).
    apply preserves_frame_cycle, frame_refl.
Qed.

Lemma frame_trackedElements s0 s : frame s0 s -> trackedElements s = trackedElements s0.
Proof.
  intros Hf. unfold trackedElements. rewrite (frame_elements _ _ Hf).
  apply map_ext. intros r. apply (frame_element _ _ Hf).
Qed.

(** X8: a cycle stops tracking the elements that are no longer in the
    document, and only those: after [update] the tracked elements are the
    ones that were tracked and in the document at the start, in their order. *)
Theorem update_drops_detached (s : FixedLayer) :
  reachable s ->
  trackedElements (finalState (update h s)) =
  List.filter (contains (doc s)) (trackedElements s).
Proof.
  intros Hr. apply reachable_registryOk in Hr as (_ & _ & Hne & _).
  destruct (update_decompose s) as (s1 & E & Hf).
  rewrite (frame_trackedElements _ _ Hf).
  pose proof (removeDetached_filter s Hne) as H. rewrite E in H. exact H.
Qed.

Lemma measure_each s l : forall acc,
  NoDup (List.map (fun fe => id (deref s fe)) l) ->
  let st := fold_left (measureStep h s) l acc in
  (forall key, key ∉ List.map (fun fe => id (deref s fe)) l ->
               state st !! key = state acc !! key) /\
  (forall fe, fe ∈ l ->
     state st !! id (deref s fe) =
     Some (measureElement h (doc s) (element (deref s fe)))) /\
  hasTransferables st =
    hasTransferables acc ||
    existsb (fun fe => transferrable
                         (measureElement h (doc s) (element (deref s fe)))) l.
Proof.
  induction l as [|r l IH]; intros acc Hnd; cbn zeta.
  - simpl. repeat split; auto.
    + intros fe Hfe. inversion Hfe.
    + rewrite orb_false_r. reflexivity.
  - simpl in Hnd. apply NoDup_cons in Hnd as [Hr Hnd].
    destruct (IH (measureStep h s acc r) Hnd) as (Hother & Heach & Hany).
    cbn [fold_left]. split; [|split].
    + intros key Hkey. rewrite Hother.
      * simpl. apply lookup_insert_ne. intros E. apply Hkey. rewrite <- E. left.
      * intros Hin. apply Hkey. right. exact Hin.
    + intros fe Hfe. apply elem_of_cons in Hfe as [->|Hfe]; [|apply Heach, Hfe].
      rewrite Hother by exact Hr. simpl. apply lookup_insert_eq.
    + rewrite Hany. simpl. rewrite orb_assoc. reflexivity.
Qed.

(** X9: the measure phase of a cycle leaves the state alone and records,
    under the id of every tracked object, what was measured for the element
    of that object; [hasTransferables] is set exactly when one of these
    measurements is transferrable. *)
Theorem measure_records_each (s : FixedLayer) :
  reachable s ->
  exists st,
    measure h s = Normal st s /\
    (forall fe, fe ∈ fixedElements_ s ->
       state st !! id (deref s fe) =
       Some (measureElement h (doc s) (element (deref s fe)))) /\
    (hasTransferables st = true <->
     exists fe, fe ∈ fixedElements_ s /\
       transferrable (measureElement h (doc s) (element (deref s fe))) = true).
Proof.
  intros Hr. apply reachable_registryOk, registryOk_ids in Hr.
  eexists. split; [apply measure_fold|].
  destruct (measure_each s (fixedElements_ s)
              {| state := ∅; hasTransferables := false |} Hr)
    as (_ & Heach & Hany).
  split; [exact Heach|]. rewrite Hany. cbn [hasTransferables orb].
  rewrite existsb_exists. split.
  - intros (fe & Hfe & Ht). exists fe. split; [apply list_elem_of_In, Hfe|exact Ht].
  - intros (fe & Hfe & Ht). exists fe. split; [apply list_elem_of_In, Hfe|exact Ht].
Qed.

End Tracking.

(** X8, on an input: the banner was moved to the fixed layer and a script of
    the page then took it out of the document. *)
Lemma update_drops_detached_witness :
  let s := pageScript (removeChild 5 3) transferred in
  trackedElements (finalState (update browser s)) =
  List.filter (contains (doc s)) (trackedElements s).
Proof.
  exact (update_drops_detached browser (pageScript (removeChild 5 3) transferred)
           (reachable_pageScript _ _ transferred_reachable)).
Defined.

(** X9, on an input: the banner and the footer were added. *)
Lemma measure_records_each_witness :
  exists st,
    measure stackingBrowser stacked = Normal st stacked /\
    (forall fe, fe ∈ fixedElements_ stacked ->
       state st !! id (deref stacked fe) =
       Some (measureElement stackingBrowser (doc stacked)
               (element (deref stacked fe)))).
Proof.
  destruct (measure_records_each stackingBrowser stacked stacked_reachable)
    as (st & E & Heach & _).
  exists st. split; [exact E|exact Heach].
Defined.

(* ===================================================================== *)
(** ** The fixed layer *)
(* ===================================================================== *)

(** [setStyles] writes the inline style of one node and nothing else. *)
Lemma setStyles_result n styles : forall s,
  exists d',
    setStyles n styles s = Normal tt (withDoc d' s) /\
    documentElement d' = documentElement (doc s) /\
    detached d' = detached (doc s) /\
    nextNode d' = nextNode (doc s) /\
    (forall n' prop, n' <> n \/ prop ∉ List.map fst styles ->
                     getStyle d' n' prop = getStyle (doc s) n' prop) /\
    (NoDup (List.map fst styles) ->
     forall prop value, (prop, value) ∈ styles -> getStyle d' n prop = value).
Proof.
  induction styles as [|[prop0 value0] styles IH]; intros s.
  - exists (doc s). split; [destruct s; reflexivity|].
    repeat split; auto. intros _ prop value H. inversion H.
  - destruct (IH (withDoc (putStyle n prop0 value0 (doc s)) s))
      as (d' & E & HT & HD & HN & Hother & Hset).
    exists d'. split.
    { cbn [setStyles]. unfold setStyle at 1.
      rewrite (bind_normal _ _ s tt
                 (withDoc (putStyle n prop0 value0 (doc s)) s) eq_refl).
      exact E. }
    repeat split; auto.
    + intros n' prop Hcase. rewrite Hother.
      * apply getStyle_putStyle_ne. intros Heq. injection Heq as -> ->.
        destruct Hcase as [Hne|Hnot]; [congruence|]. apply Hnot. left.
      * destruct Hcase as [Hne|Hnot]; [left; exact Hne|].
        right. intros Hin. apply Hnot. right. exact Hin.
    + intros Hnd prop value Hin. simpl in Hnd. apply NoDup_cons in Hnd as [Hnew Hnd].
      apply elem_of_cons in Hin as [Heq|Hin].
      * injection Heq as -> ->. rewrite Hother by (right; exact Hnew).
        apply getStyle_putStyle_eq.
      * apply Hset; assumption.
Qed.

Lemma fixedLayerStyles_NoDup : NoDup (List.map fst fixedLayerStyles).
Proof.
  apply NoDup_ListNoDup.
  repeat (constructor;
          [intros H; simpl in H;
           repeat (destruct H as [H|H]; [discriminate H|]); exact H|]).
  constructor.
Qed.

Lemma appendTo_root c t :
  appendTo (rootId t) c t = Node (rootId t) (children t ++ [c]).
Proof. destruct t as [root ks]. simpl. rewrite Nat.eqb_refl. reflexivity. Qed.

(** The first call of [getFixedLayer_] with transfer enabled. *)
Lemma getFixedLayer_created (s : FixedLayer) :
  transfer_ s = true -> fixedLayer_ s = None ->
  (forall n, n ∈ flat_map nodes (allTrees (doc s)) -> (n < nextNode (doc s))%nat) ->
  let layer := nextNode (doc s) in
  exists s',
    getFixedLayer_ s = Normal (Some layer) s' /\
    fixedLayer_ s' = Some layer /\
    documentElement (doc s') =
      Node (rootId (documentElement (doc s)))
           (children (documentElement (doc s)) ++ [Node layer []]) /\
    parentElement (doc s') layer = Some (rootId (documentElement (doc s))) /\
    (forall prop value, (prop, value) ∈ fixedLayerStyles ->
                        getStyle (doc s') layer prop = value) /\
    fixedElements_ s' = fixedElements_ s /\ objects s' = objects s /\
    getFixedLayer_ s' = Normal (Some layer) s'.
Proof.
  intros Htransfer Hnone Hfresh layer.
  destruct (fresh_placeholder (doc s) Hfresh) as [Hout Hleaf].
  set (T := documentElement (doc s)).
  set (s1 := withDoc (setAttribute layer "id" "-amp-fixedlayer"
                        (snd (createElement (doc s))))
               (withFixedLayer (Some layer) s)).
  destruct (setStyles_result layer fixedLayerStyles s1)
    as (d2 & E2 & HT2 & HD2 & HN2 & _ & Hset).
  specialize (Hset fixedLayerStyles_NoDup).
  assert (Hroot : rootId T ∈ nodes T) by apply rootId_nodes.
  assert (Hne : rootId T <> layer).
  { intros E. assert (layer < layer)%nat; [|lia]. apply Hfresh.
    apply list_elem_of_In, in_flat_map. exists T. split; [left; reflexivity|].
    apply list_elem_of_In. rewrite <- E at 1. exact Hroot. }
  destruct (sameTrees_facts (doc s) d2 HT2 HD2) as (_ & Hc2 & _ & Hs2).
  destruct (appendChild_moves d2 (rootId T) layer (Node layer [])) as (d3 & E3 & HT3 & Hsame).
  { rewrite Hs2. exact Hleaf. }
  { rewrite HT2. apply memb_not_elem, Hout. }
  { rewrite HT2. exact Hroot. }
  { simpl. intros H. apply list_elem_of_singleton in H. contradiction. }
  assert (HT3' : documentElement d3 = Node (rootId T) (children T ++ [Node layer []])).
  { rewrite HT3, HT2. apply appendTo_root. }
  exists (withDoc d3 (withDoc d2 s1)).
  assert (E : getFixedLayer_ s = Normal (Some layer) (withDoc d3 (withDoc d2 s1))).
  { unfold getFixedLayer_. rewrite (bind_normal get _ s s s eq_refl).
    rewrite Htransfer, Hnone.
    rewrite (bool_decide_eq_false_2 (is_Some None)) by (intros [? ?]; discriminate).
    cbn [negb orb].
    rewrite (bind_normal docCreateElement _ s layer
               (withDoc (snd (createElement (doc s))) s) eq_refl).
    rewrite (bind_normal (modify (withFixedLayer (Some layer))) _ _ tt
               (withFixedLayer (Some layer)
                  (withDoc (snd (createElement (doc s))) s)) eq_refl).
    rewrite (bind_normal (modifyDoc (setAttribute layer "id" "-amp-fixedlayer"))
               _ (withFixedLayer (Some layer)
                    (withDoc (snd (createElement (doc s))) s)) tt s1 eq_refl).
    rewrite (bind_normal _ _ _ _ _ E2).
    rewrite (bind_normal get _ _ _ _ eq_refl).
    assert (Hr : rootId (documentElement d2) = rootId T) by (rewrite HT2; reflexivity).
    change (doc (withDoc d2 s1)) with d2. rewrite Hr.
    unfold bind, domCall. cbn [doc withDoc]. rewrite E3. reflexivity. }
  split; [exact E|]. split; [reflexivity|]. split; [exact HT3'|]. split; [|split].
  - apply parentElement_first. cbn [doc withDoc]. rewrite HT3'. simpl.
    rewrite existsb_app. simpl. unfold hasRoot at 2. simpl.
    rewrite Nat.eqb_refl, orb_true_r. reflexivity.
  - intros prop value Hin. cbn [doc withDoc].
    rewrite (getStyle_sameButTrees _ _ _ _ Hsame). apply Hset, Hin.
  - split; [reflexivity|]. split; [reflexivity|].
    apply getFixedLayer_existing. reflexivity.
Qed.

(** X10: the first call of [getFixedLayer_] with transfer enabled creates
    the layer as a new element, the last child of the document element (a
    sibling of the body), with the styles of the list, among them
    [pointerEvents: none] and [visibility: visible]; every later call
    returns that element and changes nothing. *)
Theorem getFixedLayer_creates_once (s : FixedLayer) :
  transfer_ s = true -> fixedLayer_ s = None ->
  (forall n, n ∈ flat_map nodes (allTrees (doc s)) -> (n < nextNode (doc s))%nat) ->
  let layer := nextNode (doc s) in
  exists s',
    getFixedLayer_ s = Normal (Some layer) s' /\
    fixedLayer_ s' = Some layer /\
    documentElement (doc s') =
      Node (rootId (documentElement (doc s)))
           (children (documentElement (doc s)) ++ [Node layer []]) /\
    parentElement (doc s') layer = Some (rootId (documentElement (doc s))) /\
    (forall prop value, (prop, value) ∈ fixedLayerStyles ->
                        getStyle (doc s') layer prop = value) /\
    fixedElements_ s' = fixedElements_ s /\ objects s' = objects s /\
    getFixedLayer_ s' = Normal (Some layer) s'.
Proof. apply getFixedLayer_created. Qed.

(** X10, on an input: the layer of the page is node 5, next to the body. *)
Lemma getFixedLayer_creates_once_witness :
  exists s',
    getFixedLayer_ fresh = Normal (Some 5%nat) s' /\
    documentElement (doc s') =
      Node 0 [Node 1 [Node 2 [Node 3 []]; Node 4 []]; Node 5 []] /\
    parentElement (doc s') 5 = Some 0%nat /\
    getFixedLayer_ s' = Normal (Some 5%nat) s'.
Proof.
  destruct (getFixedLayer_creates_once fresh eq_refl eq_refl)
    as (s' & E & _ & HT & HP & _ & _ & _ & E').
  - vm_compute. intros n H.
    repeat (apply elem_of_cons in H as [->|H]; [lia|]). inversion H.
  - exists s'. split; [exact E|]. split; [exact HT|]. split; [exact HP|exact E'].
Defined.

(** X11: [setVisible] does nothing as long as the fixed layer does not
    exist, so that a layer that is created after [setVisible(false)] is
    visible; once the layer exists [setVisible] writes its [visibility] and
    nothing else, and [getFixedLayer_] returns the layer as it is. *)
Theorem setVisible_needs_layer (s : FixedLayer) (visible : bool) :
  (fixedLayer_ s = None -> setVisible visible s = Normal tt s) /\
  (forall layer, fixedLayer_ s = Some layer ->
     let s' := withDoc (putStyle layer "visibility"
                          (if visible then "visible" else "hidden") (doc s)) s in
     setVisible visible s = Normal tt s' /\
     getStyle (doc s') layer "visibility" =
       (if visible then "visible" else "hidden") /\
     getFixedLayer_ s' = Normal (Some layer) s') /\
  (transfer_ s = true -> fixedLayer_ s = None ->
   (forall n, n ∈ flat_map nodes (allTrees (doc s)) -> (n < nextNode (doc s))%nat) ->
   exists s',
     bind (setVisible false) (fun _ => getFixedLayer_) s =
       Normal (Some (nextNode (doc s))) s' /\
     getStyle (doc s') (nextNode (doc s)) "visibility" = "visible").
Proof.
  assert (Hnone : fixedLayer_ s = None -> forall v, setVisible v s = Normal tt s).
  { intros H v. unfold setVisible. rewrite (bind_normal get _ s s s eq_refl), H.
    reflexivity. }
  split; [intros H; apply Hnone, H|]. split.
  - intros layer Hl s'. split; [|split].
    + unfold setVisible. rewrite (bind_normal get _ s s s eq_refl), Hl. reflexivity.
    + apply getStyle_putStyle_eq.
    + apply getFixedLayer_existing. exact Hl.
  - intros Htransfer Hl Hfresh.
    destruct (getFixedLayer_created s Htransfer Hl Hfresh)
      as (s' & E & _ & _ & _ & Hstyle & _).
    exists s'. rewrite (bind_normal _ _ _ _ _ (Hnone Hl false)).
    split; [exact E|]. apply Hstyle.
    repeat (first [left; reflexivity|right]).
Qed.

Example hidden_before_creation :
  let s := finalState (addElement browser 3 (finalState (setVisible false fresh))) in
  fixedLayer_ s = Some 5%nat /\ getStyle (doc s) 5 "visibility" = "visible".
Proof. split; vm_compute; reflexivity. Qed.

(* ===================================================================== *)
(** ** The placeholder after a return *)
(* ===================================================================== *)

Lemma placeholder_not_root d ph parent :
  wfDocument d -> contains d ph = true -> parentElement d ph = Some parent ->
  rootId (documentElement d) <> ph.
Proof.
  intros Hwf Hc Hp.
  apply (parentIn_not_root ph parent _ (wfDocument_tree _ Hwf)).
  apply parentElement_contained; assumption.
Qed.

Lemma removeChild_drops d parent ph :
  wfDocument d -> contains d ph = true -> parentElement d ph = Some parent ->
  exists d', removeChild parent ph d = Returns d' /\
             documentElement d' = prune ph (documentElement d) /\
             contains d' ph = false /\ sameButTrees d d'.
Proof.
  intros Hwf Hc Hp.
  assert (E : removeChild parent ph d =
              Returns (withTrees (detach ph d) (documentElement (detach ph d))
                         (detached (detach ph d) ++ [subtreeOf d ph]))).
  { unfold removeChild. rewrite bool_decide_eq_true_2 by exact Hp. reflexivity. }
  eexists. split; [exact E|]. split; [reflexivity|]. split.
  - apply memb_not_elem. simpl. apply prune_removes.
    apply (placeholder_not_root d ph parent); assumption.
  - apply (removeChild_sameButTrees _ _ _ _ E).
Qed.

Lemma replaceChild_removes_old d parent el ph d' :
  wfDocument d -> contains d ph = true -> contains d el = true ->
  parentElement d ph = Some parent ->
  memb ph (nodes (subtreeOf d el)) = false ->
  replaceChild parent el ph d = Returns d' ->
  contains d' ph = false.
Proof.
  intros Hwf Hcph Hcel Hp Hout E.
  pose proof (placeholder_not_root d ph parent Hwf Hcph Hp) as Hroot.
  pose proof (subtreeOf_contained d el Hcel) as Hsub.
  destruct (subtree_Some _ _ _ Hsub) as [Hrsub _].
  apply memb_not_elem in Hout.
  assert (Hne : el <> ph).
  { intros ->. apply Hout. rewrite <- Hrsub at 1. apply rootId_nodes. }
  unfold replaceChild in E.
  destruct (memb parent (nodes (subtreeOf d el)) || isRoot d el); [discriminate|].
  destruct (negb (bool_decide (parentElement d ph = Some parent))); [discriminate|].
  destruct (Nat.eqb el ph) eqn:Eeq; [apply Nat.eqb_eq in Eeq; contradiction|].
  injection E as <-. apply memb_not_elem. simpl.
  apply graft_removes; [rewrite rootId_prune; exact Hroot|exact Hout].
Qed.

(** X12: when the element has left the document and its placeholder has
    not, [returnFromFixedLayer_] takes the placeholder out of the document;
    the object keeps the placeholder, and a second call changes nothing. *)
Theorem return_drops_placeholder (fe : ref) (s : FixedLayer) (ph parent : node) :
  placeholder (deref s fe) = Some ph ->
  wfDocument (doc s) ->
  contains (doc s) ph = true ->
  contains (doc s) (element (deref s fe)) = false ->
  parentElement (doc s) ph = Some parent ->
  exists s',
    returnFromFixedLayer_ (ArgFixedElement fe) s = Normal tt s' /\
    documentElement (doc s') = prune ph (documentElement (doc s)) /\
    contains (doc s') ph = false /\
    placeholder (deref s' fe) = Some ph /\
    returnFromFixedLayer_ (ArgFixedElement fe) s' = Normal tt s'.
Proof.
  intros Hph Hwf Hcph Hcel Hp.
  destruct (removeChild_drops (doc s) parent ph Hwf Hcph Hp)
    as (d' & E & HT & Hc & _).
  exists (withDoc d' s).
  assert (Hnoop : returnFromFixedLayer_ (ArgFixedElement fe) (withDoc d' s) =
                  Normal tt (withDoc d' s)).
  { unfold returnFromFixedLayer_. rewrite (bind_normal get _ _ _ _ eq_refl).
    change (argPlaceholder (withDoc d' s) (ArgFixedElement fe))
      with (placeholder (deref s fe)).
    rewrite Hph. change (doc (withDoc d' s)) with d'. rewrite Hc. reflexivity. }
  split; [|split; [exact HT|split; [exact Hc|split; [exact Hph|exact Hnoop]]]].
  unfold returnFromFixedLayer_. rewrite (bind_normal get _ s s s eq_refl).
  change (argPlaceholder s (ArgFixedElement fe)) with (placeholder (deref s fe)).
  change (argElement s (ArgFixedElement fe)) with (Some (element (deref s fe))).
  rewrite Hph, Hcph, Hcel. cbn [negb].
  unfold viaParentElement. rewrite (bind_normal get _ s s s eq_refl), Hp.
  unfold domCall. rewrite E. reflexivity.
Qed.

(** X12, on an input: the banner was moved to the fixed layer and a script
    of the page then took it out of the layer; the placeholder (node 6) is in
    the [div]. *)
Lemma return_drops_placeholder_witness :
  let s := pageScript (removeChild 5 3) transferred in
  exists s',
    returnFromFixedLayer_ (ArgFixedElement 0%nat) s = Normal tt s' /\
    documentElement (doc s') = Node 0 [Node 1 [Node 2 []; Node 4 []]; Node 5 []].
Proof.
  destruct (return_drops_placeholder 0 (pageScript (removeChild 5 3) transferred)
              6 2 eq_refl) as (s' & E & HT & _).
  - unfold wfDocument. vm_compute. repeat constructor; vm_compute;
      intros H; repeat (apply elem_of_cons in H as [H|H]; [discriminate|]);
      inversion H.
  - reflexivity.
  - reflexivity.
  - reflexivity.
  - exists s'. split; [exact E|]. rewrite HT. vm_compute. reflexivity.
Defined.

(** X13: when [returnFromFixedLayer_] puts the element back in the place of
    its placeholder, the placeholder leaves the document; the object keeps
    it, and a second call changes nothing. *)
Theorem return_is_idempotent (fe : ref) (s : FixedLayer) (ph parent : node) :
  placeholder (deref s fe) = Some ph ->
  wfDocument (doc s) ->
  contains (doc s) ph = true -> contains (doc s) (element (deref s fe)) = true ->
  parentElement (doc s) ph = Some parent ->
  memb ph (nodes (subtreeOf (doc s) (element (deref s fe)))) = false ->
  exists s',
    returnFromFixedLayer_ (ArgFixedElement fe) s = Normal tt s' /\
    contains (doc s') ph = false /\
    placeholder (deref s' fe) = Some ph /\
    returnFromFixedLayer_ (ArgFixedElement fe) s' = Normal tt s'.
Proof.
  intros Hph Hwf Hcph Hcel Hp Hout.
  set (el := element (deref s fe)) in *.
  assert (Hstep : forall d0,
            documentElement d0 = documentElement (doc s) ->
            detached d0 = detached (doc s) ->
            exists d', replaceChild parent el ph d0 = Returns d' /\
                       contains d' ph = false).
  { intros d0 HT HD.
    destruct (sameTrees_facts (doc s) d0 HT HD) as (Hwf0 & Hc0 & Hp0 & Hs0).
    destruct (replaceChild_swaps d0 parent el ph) as (d' & E & _).
    - apply Hwf0, Hwf.
    - rewrite Hc0. exact Hcph.
    - rewrite Hc0. exact Hcel.
    - rewrite Hp0. exact Hp.
    - rewrite Hs0. exact Hout.
    - exists d'. split; [exact E|].
      apply (replaceChild_removes_old d0 parent el ph d'); auto.
      + apply Hwf0, Hwf.
      + rewrite Hc0. exact Hcph.
      + rewrite Hc0. exact Hcel.
      + rewrite Hp0. exact Hp.
      + rewrite Hs0. exact Hout. }
  assert (Hnoop : forall d' s0, objects s0 = objects s -> doc s0 = d' ->
            contains d' ph = false ->
            returnFromFixedLayer_ (ArgFixedElement fe) s0 = Normal tt s0).
  { intros d' s0 Ho Hd Hc. unfold returnFromFixedLayer_.
    rewrite (bind_normal get _ _ _ _ eq_refl).
    change (argPlaceholder s0 (ArgFixedElement fe)) with (placeholder (deref s0 fe)).
    unfold deref. rewrite Ho. fold (deref s fe). rewrite Hph, Hd, Hc. reflexivity. }
  unfold returnFromFixedLayer_ at 1. rewrite (bind_normal get _ s s s eq_refl).
  change (argPlaceholder s (ArgFixedElement fe)) with (placeholder (deref s fe)).
  change (argElement s (ArgFixedElement fe)) with (Some el).
  rewrite Hph, Hcph, Hcel. cbn [negb].
  destruct (truthy (getStyle (doc s) el "zIndex")).
  - destruct (Hstep (putStyle el "zIndex" "" (doc s))) as (d' & E & Hc); auto.
    rewrite (bind_normal _ _ s tt (withDoc (putStyle el "zIndex" "" (doc s)) s) eq_refl).
    unfold viaParentElement, bind, get. cbn [doc withDoc].
    change (parentElement (putStyle el "zIndex" "" (doc s)) ph)
      with (parentElement (doc s) ph).
    rewrite Hp. unfold domCall. cbn [doc withDoc]. rewrite E.
    eexists. split; [reflexivity|]. split; [exact Hc|]. split; [exact Hph|].
    apply (Hnoop d'); auto.
  - destruct (Hstep (doc s)) as (d' & E & Hc); auto.
    rewrite (bind_normal _ _ s tt s eq_refl).
    unfold viaParentElement, bind, get. rewrite Hp. unfold domCall. rewrite E.
    eexists. split; [reflexivity|]. split; [exact Hc|]. split; [exact Hph|].
    apply (Hnoop d'); auto.
Qed.

(** X13, on an input: the banner is in the fixed layer and its placeholder
    (node 6) in the [div]. *)
Lemma return_is_idempotent_witness :
  exists s',
    returnFromFixedLayer_ (ArgFixedElement 0%nat) transferred = Normal tt s' /\
    contains (doc s') 6 = false /\
    returnFromFixedLayer_ (ArgFixedElement 0%nat) s' = Normal tt s'.
Proof.
  destruct (return_is_idempotent 0 transferred 6 2 eq_refl)
    as (s' & E & Hc & _ & E').
  - unfold wfDocument. vm_compute. repeat constructor; vm_compute;
      intros H; repeat (apply elem_of_cons in H as [H|H]; [discriminate|]);
      inversion H.
  - reflexivity.
  - reflexivity.
  - reflexivity.
  - reflexivity.
  - exists s'. split; [exact E|]. split; [exact Hc|exact E'].
Defined.

(* ===================================================================== *)
(** ** The inline styles that a transfer leaves alone *)
(* ===================================================================== *)

Lemma sameButTrees_nextNode d d' : sameButTrees d d' -> nextNode d' = nextNode d.
Proof. intros ->. reflexivity. Qed.

Section KeepStyle.

Variable h : Host.
Variable n : node.
Variable prop v : string.

Lemma keep_putStyle n' prop' value :
  (n', prop') <> (n, prop) ->
  preserves (styleIs n prop v) (modifyDoc (putStyle n' prop' value)).
Proof.
  intros Hne. apply preserves_modify. intros s [Hs Hn]. split; [|exact Hn].
  simpl. rewrite getStyle_putStyle_ne by exact Hne. exact Hs.
Qed.

Lemma keep_setStyles n' styles :
  n' <> n -> preserves (styleIs n prop v) (setStyles n' styles).
Proof.
  intros Hne. induction styles as [|[p0 v0] styles IH]; simpl; preserves_struct.
  - apply keep_putStyle. congruence.
  - exact IH.
Qed.

Lemma keep_setAttribute n' name value :
  preserves (styleIs n prop v) (modifyDoc (setAttribute n' name value)).
Proof. apply preserves_modify. intros s Hs. exact Hs. Qed.

Lemma keep_putClassName n' value :
  preserves (styleIs n prop v) (modifyDoc (putClassName n' value)).
Proof. apply preserves_modify. intros s Hs. exact Hs. Qed.

Lemma keep_sameDoc (f : FixedLayer -> FixedLayer) :
  (forall s, doc (f s) = doc s) -> preserves (styleIs n prop v) (modify f).
Proof.
  intros Hf. apply preserves_modify. intros s Hs. unfold styleIs. rewrite Hf. exact Hs.
Qed.

Lemma keep_domCall (f : Document -> Fallible Document) :
  (forall d d', f d = Returns d' -> sameButTrees d d') ->
  preserves (styleIs n prop v) (domCall f).
Proof.
  intros Hf. apply preserves_domCall. intros s d [Hs Hn] E.
  pose proof (Hf _ _ E) as Hsame. split; simpl.
  - rewrite (getStyle_sameButTrees _ _ _ _ Hsame). exact Hs.
  - rewrite (sameButTrees_nextNode _ _ Hsame). exact Hn.
Qed.

Lemma keep_viaParentElement n' call :
  (forall parent d d', call parent d = Returns d' -> sameButTrees d d') ->
  preserves (styleIs n prop v) (viaParentElement n' call).
Proof.
  intros Hc. unfold viaParentElement. preserves_struct.
  apply keep_domCall. apply Hc.
Qed.

Lemma keep_docCreateElement : preserves (styleIs n prop v) docCreateElement.
Proof.
  intros s [Hs Hn]. split; [exact Hs|]. simpl. lia.
Qed.

Lemma keep_setTimeoutThrow e : preserves (styleIs n prop v) (setTimeoutThrow e).
Proof. apply keep_sameDoc. reflexivity. Qed.

Lemma keep_setPlaceholder fe p : preserves (styleIs n prop v) (setPlaceholder fe p).
Proof. apply keep_sameDoc. reflexivity. Qed.

Lemma keep_setFixedNow fe b : preserves (styleIs n prop v) (setFixedNow fe b).
Proof. apply keep_sameDoc. reflexivity. Qed.

(** The layer is a new node: its styles are not those of [n]. *)
Lemma keep_getFixedLayer_ : preserves (styleIs n prop v) getFixedLayer_.
Proof.
  intros s [Hs Hn]. unfold getFixedLayer_. rewrite (bind_normal get _ s s s eq_refl).
  destruct (negb (transfer_ s) || bool_decide (is_Some (fixedLayer_ s)));
    [split; assumption|].
  rewrite (bind_normal docCreateElement _ s (nextNode (doc s))
             (withDoc (snd (createElement (doc s))) s) eq_refl).
  apply (preserves_impl (styleIs n prop v)); [|split; [exact Hs|simpl; lia]|auto].
  preserves_struct.
  - apply keep_sameDoc. reflexivity.
  - apply keep_setAttribute.
  - apply keep_setStyles. lia.
  - apply keep_domCall. intros d d'. apply appendChild_sameButTrees.
Qed.

Hypothesis prop_not_zIndex : prop <> "zIndex".
Hypothesis prop_not_pointer_events : prop <> "pointer-events".
Hypothesis prop_not_display : prop <> "display".

Lemma keep_returnFromFixedLayer_ arg :
  preserves (styleIs n prop v) (returnFromFixedLayer_ arg).
Proof.
  unfold returnFromFixedLayer_. preserves_struct.
  all: first
    [ apply keep_putStyle; congruence
    | apply keep_viaParentElement; intros parent d d';
      first [apply replaceChild_sameButTrees | apply removeChild_sameButTrees] ].
Qed.

Lemma keep_matches_ el selector :
  preserves (styleIs n prop v) (matches_ h el selector).
Proof. unfold matches_. preserves_struct. apply keep_setTimeoutThrow. Qed.

Lemma keep_someMatches el sels :
  preserves (styleIs n prop v) (someMatches h el sels).
Proof.
  induction sels as [|selector sels IH]; simpl; preserves_struct;
    auto using keep_matches_.
Qed.

Lemma keep_transferMove fe index state :
  preserves (styleIs n prop v) (transferMove fe index state).
Proof.
  unfold transferMove, setStyle. preserves_struct.
  all: first
    [ apply keep_putStyle; congruence
    | apply keep_docCreateElement
    | apply keep_setPlaceholder
    | apply keep_setAttribute
    | apply keep_getFixedLayer_
    | apply keep_viaParentElement; intros parent d d';
      apply replaceChild_sameButTrees
    | apply keep_domCall; intros d d'; apply appendChild_sameButTrees ].
Qed.

Lemma keep_transferRematch fe :
  preserves (styleIs n prop v) (transferRematch h fe).
Proof.
  unfold transferRematch. preserves_struct;
    auto using keep_someMatches, keep_returnFromFixedLayer_.
Qed.

Lemma keep_transferToFixedLayer_ fe index state :
  preserves (styleIs n prop v) (transferToFixedLayer_ h fe index state).
Proof.
  unfold transferToFixedLayer_. preserves_struct;
    auto using keep_transferMove, keep_transferRematch.
Qed.

End KeepStyle.

Section AdjustTop.

Variable h : Host.

(** The step of the mutate phase for an element that turned out to be
    fixed, after the latch. *)
Lemma mutateFixedElement_fixed fe index m s :
  fixed m = true -> fixedNow (deref s fe) <> Some true ->
  let el := element (deref s fe) in
  let s1 := finalState (setFixedNow fe true s) in
  let s2 := if truthy (top m)
            then withDoc (putStyle el "top" (adjustedTop m (paddingTop_ s)) (doc s1)) s1
            else s1 in
  mutateFixedElement_ h fe index m s =
  (if transfer_ s then
     if transferrable m then transferToFixedLayer_ h fe index m
     else returnFromFixedLayer_ (ArgFixedElement fe)
   else ret tt) s2.
Proof.
  intros Hfixed Hlatch el s1 s2.
  unfold mutateFixedElement_. rewrite (bind_normal get _ s s s eq_refl).
  rewrite Hfixed. rewrite bool_decide_eq_false_2 by exact Hlatch.
  rewrite (bind_normal (setFixedNow fe true) _ s tt s1 eq_refl).
  fold el. unfold s2. destruct (truthy (top m)); reflexivity.
Qed.

(** The inline top after the step for an element that turned out to be
    fixed. *)
Lemma mutateFixedElement_adjusts fe index m s :
  fixed m = true -> fixedNow (deref s fe) <> Some true ->
  (element (deref s fe) < nextNode (doc s))%nat ->
  styleIs (element (deref s fe)) "top"
    (if truthy (top m) then adjustedTop m (paddingTop_ s)
     else getStyle (doc s) (element (deref s fe)) "top")
    (finalState (mutateFixedElement_ h fe index m s)).
Proof.
  intros Hfixed Hlatch Hnode. set (el := element (deref s fe)) in *.
  rewrite (mutateFixedElement_fixed fe index m s Hfixed Hlatch). fold el.
  set (v := if truthy (top m) then adjustedTop m (paddingTop_ s)
            else getStyle (doc s) el "top").
  assert (Hkeep : forall s2 (tail : JS unit),
            styleIs el "top" v s2 -> preserves (styleIs el "top" v) tail ->
            styleIs el "top" v (finalState (tail s2))).
  { intros s2 tail H2 Htail. apply (Htail s2 H2). }
  apply Hkeep.
  - unfold v. destruct (truthy (top m)); split; simpl; auto.
    apply getStyle_putStyle_eq.
  - destruct (transfer_ s); [|apply preserves_ret].
    destruct (transferrable m).
    + apply keep_transferToFixedLayer_; discriminate.
    + apply keep_returnFromFixedLayer_; discriminate.
Qed.

(** The step for another element leaves the inline top alone. *)
Lemma mutateFixedElement_keeps_top fe index m n v s :
  element (deref s fe) <> n ->
  styleIs n "top" v s ->
  styleIs n "top" v (finalState (mutateFixedElement_ h fe index m s)).
Proof.
  intros Hne Hs. unfold mutateFixedElement_.
  rewrite (bind_normal get _ s s s eq_refl).
  match goal with
  | |- styleIs _ _ _ (finalState (?tail s)) =>
      assert (Hp : preserves (styleIs n "top" v) tail); [|exact (Hp s Hs)]
  end.
  preserves_struct.
  all: first
    [ apply keep_setFixedNow
    | apply keep_putStyle; congruence
    | apply keep_transferToFixedLayer_; discriminate
    | apply keep_returnFromFixedLayer_; discriminate ].
Qed.

(** X14: the step of the mutate phase for an element that is measured as
    fixed, and was not recorded as such before, records the new state and
    writes [calc(top + paddingTop px)] to the inline top of the element when
    the computed top is not empty; the move to the fixed layer that may
    follow, whether it succeeds, is reversed or throws, does not touch that
    value. *)
Theorem fixed_top_is_adjusted (fe : ref) (index : nat) (m : FixedElementStateDef)
    (s : FixedLayer) :
  fixed m = true -> fixedNow (deref s fe) <> Some true ->
  (element (deref s fe) < nextNode (doc s))%nat ->
  let el := element (deref s fe) in
  let c := mutateFixedElement_ h fe index m s in
  fixedNow (deref (finalState c) fe) = Some true /\
  getStyle (doc (finalState c)) el "top" =
    (if truthy (top m) then adjustedTop m (paddingTop_ s)
     else getStyle (doc s) el "top").
Proof.
  intros Hfixed Hlatch Hnode el c. split.
  - unfold c. rewrite <- Hfixed. apply mutateFixedElement_sets.
  - apply (mutateFixedElement_adjusts fe index m s Hfixed Hlatch Hnode).
Qed.

End AdjustTop.

(** X14, on an input: the banner is registered and measured as fixed with
    the computed top [0px]; the inset of the viewer is 0. *)
Lemma fixed_top_is_adjusted_witness :
  let c := mutateFixedElement_ browser 0 0 (measureElement browser (doc registered) 3)
             registered in
  fixedNow (deref (finalState c) 0%nat) = Some true /\
  getStyle (doc (finalState c)) 3 "top" = "calc(0px + 0px)".
Proof.
  refine (fixed_top_is_adjusted browser 0 0
            (measureElement browser (doc registered) 3) registered eq_refl _ _).
  - vm_compute. discriminate.
  - vm_compute. lia.
Defined.

(* ===================================================================== *)
(** ** A transfer that stays *)
(* ===================================================================== *)

(** The z-index that [transferToFixedLayer_] writes is on the element when
    the move ends, however it ends. *)
Lemma transferMove_zIndex fe index m s :
  (element (deref s fe) < nextNode (doc s))%nat ->
  getStyle (doc (finalState (transferMove fe index m s))) (element (deref s fe))
    "zIndex" = transferZIndex index m.
Proof.
  intros Hnode. set (el := element (deref s fe)).
  set (v := transferZIndex index m).
  assert (Htail : forall ph s1,
            (el < nextNode (doc s1))%nat ->
            styleIs el "zIndex" v
              (finalState
                 (bind (modifyDoc (putStyle el "zIndex" v)) (fun _ =>
                    bind (viaParentElement el (fun parent => replaceChild parent ph el))
                      (fun _ =>
                         bind getFixedLayer_ (fun layer =>
                           match layer with
                           | Some layer => domCall (appendChild layer el)
                           | None => throw TypeError
                           end))) s1))).
  { intros ph s1 H1.
    rewrite (bind_normal _ _ s1 tt (withDoc (putStyle el "zIndex" v (doc s1)) s1) eq_refl).
    apply (preserves_impl (styleIs el "zIndex" v)); [| |auto].
    - preserves_struct.
      + apply keep_viaParentElement. intros parent d d'.
        apply replaceChild_sameButTrees.
      + apply keep_getFixedLayer_.
      + apply keep_domCall. intros d d'. apply appendChild_sameButTrees.
    - split; [apply getStyle_putStyle_eq|exact H1]. }
  unfold transferMove. rewrite (bind_normal get _ s s s eq_refl). fold el v.
  destruct (placeholder (deref s fe)) as [ph|] eqn:Eph.
  - rewrite (bind_normal (ret ph) _ s ph s eq_refl). apply Htail. exact Hnode.
  - destruct (placeholder_created fe s) as (sc & E & _).
    fold el in E. rewrite (bind_normal _ _ _ _ _ E). apply Htail.
    match type of E with
    | ?block s = _ =>
        assert (Hp : preserves (fun s0 => (el < nextNode (doc s0))%nat) block)
    end.
    { unfold setStyle. preserves_struct;
        try (apply preserves_modify; intros s0 H0; simpl; exact H0).
      intros s0 H0. simpl. lia. }
    exact (preserves_normal _ _ s _ sc Hp Hnode E).
Qed.

Section Stays.

Variable h : Host.

(** The element stays in the fixed layer when a selector still matches. *)
Lemma transferToFixedLayer_stays (fe : ref) (index : nat)
    (m : FixedElementStateDef) (s : FixedLayer) (layer : node) :
  readyForTransfer s fe layer ->
  let el := element (deref s fe) in
  let moved := finalState (transferMove fe index m s) in
  (exists selector matcherFn,
     selector ∈ selectors (deref s fe) /\
     matcher h (doc moved) el = Some matcherFn /\
     matcherFn selector = Returns true) ->
  let c := transferToFixedLayer_ h fe index m s in
  threw c = false /\
  parentElement (doc (finalState c)) el = Some layer /\
  getStyle (doc (finalState c)) el "zIndex" = transferZIndex index m /\
  exists ph,
    placeholder (deref (finalState c) fe) = Some ph /\
    parentElement (doc (finalState c)) ph = parentElement (doc s) el /\
    documentElement (doc (finalState c)) =
      appendTo layer (subtreeOf (doc s) el)
        (graft el (Node ph []) (documentElement (doc s))).
Proof.
  intros Hready el moved Hyes c.
  destruct (transferMove_moves fe index m s layer Hready)
    as (s4 & ph & parent & E & Hph & Hel4 & Hsel4 & HT4 & HphT & Hpar & Hl4).
  destruct Hready as (Hwf & Hfresh & Hl & Hcl & Hel & Hout & Hnot & _).
  fold el in Hel, Hout, Hnot, HT4, Hpar, Hel4.
  pose proof (wfDocument_tree _ Hwf) as Hnd.
  pose proof (subtreeOf_contained _ el Hel) as Hsub.
  assert (Hnode : (el < nextNode (doc s))%nat).
  { apply Hfresh. apply list_elem_of_In, in_flat_map.
    exists (documentElement (doc s)). split; [left; reflexivity|].
    apply list_elem_of_In, memb_elem, Hel. }
  pose proof (transferMove_zIndex fe index m s Hnode) as Hz. fold el in Hz.
  apply memb_elem in Hcl. apply memb_not_elem in Hout.
  assert (Em : moved = s4) by (unfold moved; rewrite E; reflexivity).
  rewrite Em in Hyes. rewrite E in Hz. cbn [finalState] in Hz.
  destruct (someMatches_result h el (selectors (deref s fe)) s4)
    as (b & s5 & E5 & Hd5 & Ho5 & _ & _ & Hb).
  assert (b = true) by (apply Hb, Hyes). subst b.
  destruct (replaceChild_restores (doc s4) (documentElement (doc s)) parent el ph
              (subtreeOf (doc s) el) layer HT4 Hnd HphT Hsub Hpar Hcl Hout)
    as (_ & _ & Hpph & Hpel & _).
  assert (Ec : c = Normal tt s5).
  { unfold c, transferToFixedLayer_. rewrite (bind_normal get _ s s s eq_refl).
    fold el. rewrite bool_decide_eq_false_2 by (rewrite Hl; exact Hnot).
    rewrite (bind_normal _ _ _ _ _ E).
    unfold transferRematch. rewrite (bind_normal get _ s4 s4 s4 eq_refl).
    rewrite Hel4, Hsel4. rewrite (bind_normal _ _ _ _ _ E5). reflexivity. }
  rewrite Ec. cbn [threw finalState]. rewrite Hd5.
  split; [reflexivity|]. split; [exact Hpel|]. split; [exact Hz|].
  exists ph. split; [|split].
  - unfold deref. rewrite Ho5. exact Hph.
  - rewrite Hpph. symmetry. apply parentElement_first, Hpar.
  - exact HT4.
Qed.

(** X15: an element is moved to the fixed layer, and in its new place the
    matcher accepts one of the selectors recorded for it.  Then the element
    stays: [transferToFixedLayer_] ends normally, the element is the last
    child of the fixed layer and has the z-index of the transfer, and its
    placeholder is in the place that the element had. *)
Theorem transfer_stays_when_matching (fe : ref) (index : nat)
    (m : FixedElementStateDef) (s : FixedLayer) (layer : node) :
  readyForTransfer s fe layer ->
  let el := element (deref s fe) in
  let moved := finalState (transferMove fe index m s) in
  (exists selector matcherFn,
     selector ∈ selectors (deref s fe) /\
     matcher h (doc moved) el = Some matcherFn /\
     matcherFn selector = Returns true) ->
  let c := transferToFixedLayer_ h fe index m s in
  threw c = false /\
  parentElement (doc (finalState c)) el = Some layer /\
  getStyle (doc (finalState c)) el "zIndex" = transferZIndex index m /\
  exists ph,
    placeholder (deref (finalState c) fe) = Some ph /\
    parentElement (doc (finalState c)) ph = parentElement (doc s) el /\
    documentElement (doc (finalState c)) =
      appendTo layer (subtreeOf (doc s) el)
        (graft el (Node ph []) (documentElement (doc s))).
Proof. apply transferToFixedLayer_stays. Qed.

End Stays.

Lemma layered_ready : readyForTransfer layered 0 5.
Proof.
  unfold readyForTransfer. repeat split.
  - unfold wfDocument. vm_compute. repeat constructor; vm_compute;
      intros H; repeat (apply elem_of_cons in H as [H|H]; [discriminate|]);
      inversion H.
  - vm_compute. intros n H.
    repeat (apply elem_of_cons in H as [->|H]; [lia|]). inversion H.
  - vm_compute. discriminate.
  - vm_compute in H. discriminate.
  - vm_compute in H. discriminate.
Qed.

(** X15, on an input: the banner is registered and the fixed layer (node 5)
    exists; the matcher of the browser accepts every selector. *)
Lemma transfer_stays_when_matching_witness :
  let m := measureElement browser (doc layered) 3 in
  let c := transferToFixedLayer_ browser 0 0 m layered in
  threw c = false /\
  parentElement (doc (finalState c)) 3 = Some 5%nat /\
  getStyle (doc (finalState c)) 3 "zIndex" = "calc(10000 + 0)".
Proof.
  destruct (transfer_stays_when_matching browser 0 0
              (measureElement browser (doc layered) 3) layered 5 layered_ready)
    as (Ht & Hp & Hz & _).
  - exists "div .banner", (fun _ => Returns true).
    split; [vm_compute; left|]. split; reflexivity.
  - split; [exact Ht|]. split; [exact Hp|exact Hz].
Defined.

(* ===================================================================== *)
(** ** A FixedLayer with transfer disabled *)
(* ===================================================================== *)

Lemma preserves_bind_get {B} (P : FixedLayer -> Prop) (k : FixedLayer -> JS B) :
  (forall s, P s -> P (finalState (k s s))) -> preserves P (bind get k).
Proof. intros H s Hs. apply H, Hs. Qed.

Lemma preserves_forEachFrom (P : FixedLayer -> Prop) count f : forall i,
  (forall fe j, preserves P (f fe j)) -> preserves P (forEachFrom count i f).
Proof.
  induction count as [|count IH]; intros i Hf; simpl; preserves_struct; auto.
Qed.

(** A property that the steps of the public methods keep is kept by every
    call. *)
Section InvokePreserves.

Variable P : FixedLayer -> Prop.
Hypothesis P_setupFixedElement_ :
  forall el selector, preserves P (setupFixedElement_ el selector).
Hypothesis P_removeFixedElement_ : forall el, preserves P (removeFixedElement_ el).
Hypothesis P_sortInDomOrder_ : preserves P sortInDomOrder_.
Hypothesis P_update : forall h, preserves P (update h).
Hypothesis P_setVisible : forall visible, preserves P (setVisible visible).
Hypothesis P_uncaught : forall s u, P s -> P (withUncaught u s).
Hypothesis P_paddingTop : forall s p, P s -> P (withPaddingTop p s).

Lemma P_registerMatches rest : forall i selector,
  preserves P (registerMatches rest i selector).
Proof.
  induction rest as [|el rest IH]; intros i selector; simpl; preserves_struct; auto.
Qed.

Lemma P_registerSelectors h sels : preserves P (registerSelectors h sels).
Proof.
  induction sels as [|selector sels IH]; simpl; preserves_struct;
    auto using P_registerMatches.
Qed.

Lemma P_discoverAll sheets found : preserves P (discoverAll sheets found).
Proof.
  intros s H.
  destruct (discoverAll_cases sheets found s) as [(sels & ->)|(e & sh & -> & _)];
    exact H.
Qed.

Lemma invoke_preserves h c : preserves P (invoke h c).
Proof.
  destruct c; simpl; auto;
    unfold setup, updatePaddingTop, addElement, removeElement,
      vsyncMutate, setTimeoutThrow;
    preserves_struct;
    first [ apply P_update
          | apply P_sortInDomOrder_
          | apply P_setupFixedElement_
          | apply P_removeFixedElement_
          | apply P_discoverAll
          | apply P_registerSelectors
          | apply preserves_modify; intros ? H; auto
          | intros s H; rewrite returnFromFixedLayer_element; exact H ].
Qed.

End InvokePreserves.

Lemma setupFixedElement_placeholder el selector s r :
  placeholder (deref s r) = None ->
  (forall fe, fe ∈ fixedElements_ s -> placeholder (deref s fe) = None) ->
  placeholder (deref (finalState (setupFixedElement_ el selector s)) r) = None.
Proof.
  intros Hr Hall. unfold setupFixedElement_.
  destruct (findElement s el (fixedElements_ s) O) as [[i fe]|] eqn:E; cbn [finalState].
  - rewrite deref_withObjects_insert. destruct (decide (fe = r)) as [->|]; auto.
  - unfold deref. simpl.
    destruct (decide (counter_ s = r)) as [->|Hne].
    + rewrite lookup_total_insert_eq. reflexivity.
    + rewrite lookup_total_insert_ne by exact Hne. exact Hr.
Qed.

Section Disabled.

Variable T : tree.
Variable D : list tree.
Variable W : list (nat * string * string).

Lemma nothingMoved_sameDoc s s' :
  transfer_ s' = transfer_ s -> fixedLayer_ s' = fixedLayer_ s ->
  objects s' = objects s -> doc s' = doc s ->
  nothingMoved T D W s -> nothingMoved T D W s'.
Proof.
  intros Ht Hl Ho Hd ((H1 & H2 & H3) & H4 & H5 & H6).
  unfold nothingMoved, noTransfer, deref. rewrite Ht, Hl, Ho, Hd.
  repeat split; auto.
Qed.

Lemma nothingMoved_setupFixedElement_ el selector :
  preserves (nothingMoved T D W) (setupFixedElement_ el selector).
Proof.
  intros s ((H1 & H2 & H3) & H4 & H5 & H6).
  pose proof (setupFixedElement_trees el selector s) as [HT HD].
  assert (Hph : forall r,
            placeholder (deref (finalState (setupFixedElement_ el selector s)) r)
            = None).
  { intros r. apply setupFixedElement_placeholder; auto. }
  split; [|split; [congruence|split; [congruence|]]].
  - split; [|split; [|exact Hph]];
      unfold setupFixedElement_;
      destruct (findElement s el (fixedElements_ s) O) as [[i fe]|]; assumption.
  - unfold setupFixedElement_.
    destruct (findElement s el (fixedElements_ s) O) as [[i fe]|]; exact H6.
Qed.

Lemma nothingMoved_removeFixedElement_ el :
  preserves (nothingMoved T D W) (removeFixedElement_ el).
Proof.
  intros s H. unfold removeFixedElement_.
  destruct (findElement s el (fixedElements_ s) O) as [[i fe]|]; exact H.
Qed.

Lemma nothingMoved_removeAll toRemove :
  preserves (nothingMoved T D W) (removeAll toRemove).
Proof.
  induction toRemove as [|fe rest IH]; simpl; preserves_struct;
    auto using nothingMoved_removeFixedElement_.
Qed.

Lemma nothingMoved_top el value s :
  nothingMoved T D W s ->
  nothingMoved T D W (withDoc (putStyle el "top" value (doc s)) s).
Proof.
  intros (H1 & H4 & H5 & H6). split; [exact H1|]. split; [exact H4|].
  split; [exact H5|]. intros n prop v Hin. simpl in Hin.
  apply elem_of_app in Hin as [Hin|Hin]; [auto|].
  apply list_elem_of_singleton in Hin. injection Hin as -> -> ->. auto.
Qed.

Lemma nothingMoved_mutateFixedElement_ h fe index m :
  preserves (nothingMoved T D W) (mutateFixedElement_ h fe index m).
Proof.
  unfold mutateFixedElement_. apply preserves_bind_get. intros s H.
  destruct (bool_decide _); [exact H|].
  set (s1 := finalState (setFixedNow fe (fixed m) s)).
  rewrite (bind_normal (setFixedNow fe (fixed m)) _ s tt s1 eq_refl).
  assert (H1 : nothingMoved T D W s1).
  { destruct H as ((Ht & Hl & Hph) & HT & HD & HW).
    repeat split; auto. intros r. unfold s1. simpl.
    rewrite deref_withObjects_insert. destruct (decide (fe = r)) as [->|]; auto.
    simpl. apply Hph. }
  assert (Hnone : placeholder (deref s1 fe) = None) by apply H1.
  assert (Hreturn : forall s2, objects s2 = objects s1 ->
            returnFromFixedLayer_ (ArgFixedElement fe) s2 = Normal tt s2).
  { intros s2 Ho. unfold returnFromFixedLayer_.
    rewrite (bind_normal get _ _ _ _ eq_refl).
    change (argPlaceholder s2 (ArgFixedElement fe)) with (placeholder (deref s2 fe)).
    unfold deref. rewrite Ho. fold (deref s1 fe). rewrite Hnone. reflexivity. }
  destruct (fixed m).
  - assert (Ht : transfer_ s = false) by apply H. rewrite Ht.
    destruct (truthy (top m)); unfold bind, modifyDoc, modify, ret;
      cbn [finalState]; [apply nothingMoved_top|]; exact H1.
  - destruct (truthy (getStyle (doc s) (element (deref s fe)) "top"));
      unfold bind, modifyDoc, modify, ret; cbv beta iota;
      rewrite Hreturn by reflexivity; cbn [finalState];
      [apply nothingMoved_top|]; exact H1.
Qed.

Lemma nothingMoved_update h : preserves (nothingMoved T D W) (update h).
Proof.
  unfold update. preserves_struct.
  - unfold removeDetached. preserves_struct. apply nothingMoved_removeAll.
  - unfold vsyncRunPromise, measure. preserves_struct.
    unfold mutate. preserves_struct.
    + unfold prepareFixedLayer. apply preserves_bind_get. intros s H.
      assert (Ht : transfer_ s = false) by apply H.
      rewrite Ht, andb_false_r. exact H.
    + unfold forEachFixedElement. preserves_struct.
      apply preserves_forEachFrom. intros fe j.
      unfold mutateEach. preserves_struct.
      apply nothingMoved_mutateFixedElement_.
  - apply preserves_modify. intros s H. exact H.
Qed.

Lemma nothingMoved_invoke h c : preserves (nothingMoved T D W) (invoke h c).
Proof.
  apply invoke_preserves.
  - apply nothingMoved_setupFixedElement_.
  - apply nothingMoved_removeFixedElement_.
  - intros s H. exact H.
  - apply nothingMoved_update.
  - intros visible. unfold setVisible. apply preserves_bind_get. intros s H.
    assert (Hl : fixedLayer_ s = None) by apply H. rewrite Hl. exact H.
  - intros s u H. exact H.
  - intros s p H. exact H.
Qed.

End Disabled.

Lemma transfer_invoke h c b :
  preserves (fun s => transfer_ s = b) (invoke h c).
Proof.
  apply invoke_preserves.
  - intros el selector s H. unfold setupFixedElement_.
    destruct (findElement s el (fixedElements_ s) O) as [[i fe]|]; exact H.
  - intros el s H. unfold removeFixedElement_.
    destruct (findElement s el (fixedElements_ s) O) as [[i fe]|]; exact H.
  - intros s H. exact H.
  - intros h' s H. destruct (update_decompose h' s) as (s1 & E & Hf).
    destruct (removeDetached_normal s) as (s1' & E' & _ & _ & _ & Ht & _).
    rewrite E in E'. injection E' as <-.
    rewrite (frame_transfer _ _ Hf). congruence.
  - intros visible.
    unfold setVisible, vsyncMutate, setStyle, modifyDoc, setTimeoutThrow.
    preserves_struct; apply preserves_modify; intros ? H; exact H.
  - intros s u H. exact H.
  - intros s p H. exact H.
Qed.

Lemma nothingMoved_start s :
  noTransfer s ->
  nothingMoved (documentElement (doc s)) (detached (doc s)) (styleWrites (doc s)) s.
Proof. intros H. repeat split; try apply H. auto. Qed.

Lemma reachable_noTransfer s : reachable s -> transfer_ s = false -> noTransfer s.
Proof.
  induction 1 as [d p t|h c s _ IH|d s _ IH]; intros Ht.
  - simpl in Ht. subst t. split; [reflexivity|]. split; [reflexivity|].
    intros r. unfold deref. simpl. rewrite lookup_total_empty. reflexivity.
  - assert (Hs : transfer_ s = false).
    { pose proof (transfer_invoke h c (transfer_ s) s eq_refl) as H.
      simpl in H. congruence. }
    apply (nothingMoved_invoke _ _ _ h c s (nothingMoved_start s (IH Hs))).
  - exact (IH Ht).
Qed.

(** X16: as long as transfer is disabled no call of a public method
    creates the fixed layer or moves an element: the trees of the document
    are after the call what they were before, and the only inline styles
    that the call writes are [top] styles. *)
Theorem transfer_disabled_never_moves (h : Host) (c : Call) (s : FixedLayer) :
  reachable s -> transfer_ s = false ->
  let s' := finalState (invoke h c s) in
  fixedLayer_ s' = None /\
  documentElement (doc s') = documentElement (doc s) /\
  detached (doc s') = detached (doc s) /\
  forall n prop value,
    (n, prop, value) ∈ styleWrites (doc s') ->
    (n, prop, value) ∈ styleWrites (doc s) \/ prop = "top".
Proof.
  intros Hr Ht s'.
  pose proof (nothingMoved_invoke _ _ _ h c s
                (nothingMoved_start s (reachable_noTransfer s Hr Ht)))
    as ((_ & Hl & _) & HT & HD & HW).
  auto.
Qed.

Lemma adjusted_reachable : reachable adjusted.
Proof.
  exact (reachable_call browser (CallAddElement 3) (constructor page 0 false)
           (reachable_new page 0 false)).
Qed.

(** X16, on an input: the banner was added with transfer disabled, and the
    inset of the viewer changes. *)
Lemma transfer_disabled_never_moves_witness :
  let s' := finalState (updatePaddingTop browser 20 adjusted) in
  fixedLayer_ s' = None /\
  documentElement (doc s') = documentElement (doc adjusted) /\
  detached (doc s') = detached (doc adjusted).
Proof.
  destruct (transfer_disabled_never_moves browser (CallUpdatePaddingTop 20) adjusted
              adjusted_reachable eq_refl) as (H1 & H2 & H3 & _).
  split; [exact H1|]. split; [exact H2|exact H3].
Defined.

(* ===================================================================== *)
(** ** The offsets that [isAllowedCoord_] accepts *)
(* ===================================================================== *)

Lemma digitValue_pretty_N_char (x : N) :
  (x < 10)%N -> digitValue (pretty_N_char x) = Some (Z.of_N x).
Proof.
  intros H.
  assert (x = 0 \/ x = 1 \/ x = 2 \/ x = 3 \/ x = 4 \/ x = 5 \/ x = 6 \/
          x = 7 \/ x = 8 \/ x = 9)%N as Hx by lia.
  repeat (destruct Hx as [->|Hx]; [reflexivity|]). subst. reflexivity.
Qed.

Lemma isWhiteSpace_pretty_N_char (x : N) :
  (x < 10)%N -> isWhiteSpace (pretty_N_char x) = false.
Proof.
  intros H.
  assert (x = 0 \/ x = 1 \/ x = 2 \/ x = 3 \/ x = 4 \/ x = 5 \/ x = 6 \/
          x = 7 \/ x = 8 \/ x = 9)%N as Hx by lia.
  repeat (destruct Hx as [->|Hx]; [reflexivity|]). subst. reflexivity.
Qed.

Lemma pretty_N_go_app (x : N) : forall s rest,
  (pretty_N_go x s ++ rest)%string = pretty_N_go x (s ++ rest)%string.
Proof.
  induction (N.lt_wf_0 x) as [x _ IH]; intros s rest.
  assert (x = 0 \/ 0 < x)%N as [->|Hx] by lia.
  - rewrite !pretty_N_go_0. reflexivity.
  - rewrite (pretty_N_go_step x s), (pretty_N_go_step x (s ++ rest)) by exact Hx.
    rewrite IH by (apply N.div_lt; lia). reflexivity.
Qed.

(** The digits that [pretty] writes are read back by [readDigits]. *)
Lemma readDigits_pretty_N_go (x : N) : forall s acc count,
  exists k : nat,
    readDigits (pretty_N_go x s) acc count =
      readDigits s (acc * 10 ^ Z.of_nat k + Z.of_N x) (count + k) /\
    ((0 < x)%N -> (0 < k)%nat).
Proof.
  induction (N.lt_wf_0 x) as [x _ IH]; intros s acc count.
  assert (x = 0 \/ 0 < x)%N as [->|Hx] by lia.
  - exists O. rewrite pretty_N_go_0. split; [|intros ?; lia].
    replace (acc * 10 ^ Z.of_nat 0 + Z.of_N 0) with acc by (simpl; lia).
    replace (count + 0)%nat with count by lia. reflexivity.
  - rewrite pretty_N_go_step by exact Hx.
    destruct (IH (x `div` 10)%N (N.div_lt x 10 Hx eq_refl)
                (String (pretty_N_char (x `mod` 10)) s) acc count)
      as (k & E & _).
    exists (S k). split; [|intros ?; lia]. rewrite E. cbn [readDigits].
    rewrite digitValue_pretty_N_char by (apply N.mod_lt; lia).
    replace (count + S k)%nat with (S (count + k)) by lia. f_equal.
    rewrite Nat2Z.inj_succ, Z.pow_succ_r by lia.
    rewrite (N.div_mod x 10) at 3 by lia.
    rewrite N2Z.inj_add, N2Z.inj_mul. simpl Z.of_N. ring.
Qed.

(** What [pretty] writes for a number that is not zero starts with a
    digit. *)
Lemma pretty_N_go_head (x : N) : forall s,
  (0 < x)%N ->
  exists c r, pretty_N_go x s = String c r /\
              isWhiteSpace c = false /\ is_Some (digitValue c).
Proof.
  induction (N.lt_wf_0 x) as [x _ IH]; intros s Hx.
  rewrite pretty_N_go_step by exact Hx.
  destruct (N.eq_0_gt_0_cases (x `div` 10)) as [E|Hd].
  - rewrite E, pretty_N_go_0. eexists _, _. split; [reflexivity|].
    split; [apply isWhiteSpace_pretty_N_char, N.mod_lt; lia|].
    rewrite digitValue_pretty_N_char by (apply N.mod_lt; lia). eauto.
  - apply IH; [apply N.div_lt; lia|exact Hd].
Qed.

Lemma readDigits_stops s acc count :
  noDigitAhead s -> readDigits s acc count = (acc, count, s).
Proof. destruct s as [|c r]; simpl; [reflexivity|]. intros ->. reflexivity. Qed.

Lemma parseInt_digits (x : N) (rest : string) :
  noDigitAhead rest ->
  (0 < x)%N ->
  parseInt (pretty_N_go x "" ++ rest) = Some (Z.of_N x).
Proof.
  intros Hrest Hx. rewrite pretty_N_go_app.
  change ("" ++ rest)%string with rest.
  destruct (pretty_N_go_head x rest Hx) as (c & r & E & Hws & [d Hd]).
  destruct (readDigits_pretty_N_go x rest 0 0) as (k & Ek & Hk).
  rewrite (readDigits_stops rest _ _ Hrest) in Ek.
  unfold parseInt. rewrite E. cbn [trimStart]. rewrite Hws.
  assert (Hsign : readSign (String c r) = (false, String c r)).
  { unfold readSign. destruct c as [[] [] [] [] [] [] [] []]; try reflexivity;
      simpl in Hd; discriminate. }
  rewrite Hsign, <- E, Ek.
  destruct k as [|k]; [specialize (Hk Hx); lia|].
  simpl; f_equal; lia.
Qed.

Lemma parseInt_toString (z : Z) (rest : string) :
  noDigitAhead rest -> parseInt (toString z ++ rest) = Some z.
Proof.
  intros Hrest. destruct z as [|p|p].
  - change (toString 0 ++ rest)%string with (String "0" rest).
    unfold parseInt. simpl. rewrite (readDigits_stops rest _ _ Hrest). reflexivity.
  - assert (Es : (toString (Z.pos p) ++ rest)%string =
                 (pretty_N_go (N.pos p) "" ++ rest)%string).
    { unfold toString, pretty, pretty_Z, pretty, pretty_positive, pretty, pretty_N.
      destruct (decide (N.pos p = 0%N)) as [E|_]; [discriminate|reflexivity]. }
    rewrite Es. apply parseInt_digits; [exact Hrest|lia].
  - assert (Es : (toString (Z.neg p) ++ rest)%string =
                 String "-" (pretty_N_go (N.pos p) rest)).
    { unfold toString, pretty, pretty_Z, pretty, pretty_positive, pretty, pretty_N.
      destruct (decide (N.pos p = 0%N)) as [E|_]; [discriminate|].
      change (String "-" (pretty_N_go (N.pos p) "" ++ rest)%string =
              String "-" (pretty_N_go (N.pos p) rest)).
      rewrite pretty_N_go_app. reflexivity. }
    rewrite Es.
    destruct (readDigits_pretty_N_go (N.pos p) rest 0 0) as (k & Ek & Hk).
    rewrite (readDigits_stops rest _ _ Hrest) in Ek.
    set (digits := pretty_N_go (N.pos p) rest) in *.
    unfold parseInt. simpl. rewrite Ek.
    destruct k as [|k]; [assert (0 < 0)%nat by (apply Hk; lia); lia|].
    simpl; f_equal; lia.
Qed.

(** X17: [parseInt] reads back the integer of an offset that is written as
    an integer and a unit, so that [isAllowedCoord_] accepts such an offset
    exactly when the integer is 0. *)
Theorem integer_offset_allowed (z : Z) (unit : string) :
  noDigitAhead unit ->
  parseInt (toString z ++ unit) = Some z /\
  (isAllowedCoord_ (toString z ++ unit) = true <-> z = 0).
Proof.
  intros Hunit. pose proof (parseInt_toString z unit Hunit) as E.
  split; [exact E|]. rewrite isAllowedCoord_spec, E. split.
  - intros [_ H]. congruence.
  - intros ->. split; [|reflexivity]. discriminate.
Qed.

(** X17, on an input: an offset of 10 pixels. *)
Lemma integer_offset_allowed_witness :
  parseInt "10px" = Some 10 /\ (isAllowedCoord_ "10px" = true <-> 10 = 0).
Proof. exact (integer_offset_allowed 10 "px" eq_refl). Defined.

(* ===================================================================== *)
(** ** Registering an element again, the comparison of the sort, and the
       class of the fixed layer *)
(* ===================================================================== *)

Lemma NoDup_map_inj_on {A B} (f : A -> B) (l : list A) x y :
  NoDup (List.map f l) -> x ∈ l -> y ∈ l -> f x = f y -> x = y.
Proof.
  induction l as [|a l IH]; intros Hnd Hx Hy E; [inversion Hx|].
  simpl in Hnd. apply NoDup_cons in Hnd as [Ha Hnd].
  assert (Hin : forall z, z ∈ l -> f z ∈ List.map f l).
  { intros z Hz. apply list_elem_of_In, in_map, list_elem_of_In, Hz. }
  apply elem_of_cons in Hx as [->|Hx]; apply elem_of_cons in Hy as [->|Hy]; auto.
  - exfalso. apply Ha. rewrite E. apply Hin, Hy.
  - exfalso. apply Ha. rewrite <- E. apply Hin, Hx.
Qed.

Lemma findElement_tracked s fe :
  NoDup (trackedElements s) -> fe ∈ fixedElements_ s ->
  exists j, findElement s (element (deref s fe)) (fixedElements_ s) O = Some (j, fe).
Proof.
  intros Hnd Hfe.
  destruct (findElement s (element (deref s fe)) (fixedElements_ s) O)
    as [[j fe']|] eqn:E.
  - exists j. pose proof (findElement_elem _ _ _ _ _ _ E) as Hfe'.
    apply findElement_Some in E as (_ & _ & He & _).
    assert (fe' = fe); [|subst; reflexivity].
    exact (NoDup_map_inj_on _ _ fe' fe Hnd Hfe' Hfe He).
  - exfalso. exact (proj1 (findElement_None _ _ _ _) E fe Hfe eq_refl).
Qed.

(** X18: [setupFixedElement_] for an element that is tracked adds the
    selector at the end of the selectors of its object and changes nothing
    else: no entry and no id is added, the document is not touched.  For an
    element that is not tracked it adds one entry at the end of the array,
    with the id that the counter gives, the selector as its only selector and
    no placeholder, and writes the id to the attribute [i-amp-fixedid] of the
    element. *)
Theorem setupFixedElement_records (s : FixedLayer) (el : node) (selector : string) :
  reachable s ->
  let s' := finalState (setupFixedElement_ el selector s) in
  (forall fe, fe ∈ fixedElements_ s -> element (deref s fe) = el ->
     fixedElements_ s' = fixedElements_ s /\
     counter_ s' = counter_ s /\ doc s' = doc s /\
     selectors (deref s' fe) = (selectors (deref s fe) ++ [selector])%list /\
     id (deref s' fe) = id (deref s fe) /\
     forall r, r <> fe -> deref s' r = deref s r) /\
  (el ∉ trackedElements s ->
     fixedElements_ s' = (fixedElements_ s ++ [counter_ s])%list /\
     counter_ s' = S (counter_ s) /\
     deref s' (counter_ s) =
       {| id := "F" ++ natToString (counter_ s); element := el;
          selectors := [selector]; placeholder := None; fixedNow := None |} /\
     attributes (doc s') !! (el, "i-amp-fixedid") =
       Some ("F" ++ natToString (counter_ s)) /\
     forall r, r ∈ fixedElements_ s -> deref s' r = deref s r).
Proof.
  intros Hr s'. apply reachable_registryOk in Hr as (Hwf & _ & Hnd & _). split.
  - intros fe Hfe He.
    destruct (findElement_tracked s fe Hnd Hfe) as (j & E). rewrite He in E.
    unfold s', setupFixedElement_. rewrite E. cbn [finalState].
    repeat split.
    + rewrite deref_withObjects_insert, decide_True by reflexivity. reflexivity.
    + rewrite deref_withObjects_insert, decide_True by reflexivity. reflexivity.
    + intros r Hne. rewrite deref_withObjects_insert, decide_False by congruence.
      reflexivity.
  - intros Hnew. unfold s', setupFixedElement_.
    rewrite (findElement_untracked s el Hnew). cbn [finalState].
    split; [reflexivity|]. split; [reflexivity|]. split; [|split].
    + unfold deref. simpl. rewrite lookup_total_insert_eq. reflexivity.
    + simpl. apply lookup_insert_eq.
    + intros r Hin. unfold deref. simpl.
      rewrite lookup_total_insert_ne by (apply Hwf in Hin; lia). reflexivity.
Qed.

(** X18, on an input: the banner was found by [.banner] and is then
    added. *)
Lemma setupFixedElement_records_witness :
  let s := finalState (setup browser fresh) in
  let s' := finalState (setupFixedElement_ 3 "*" s) in
  fixedElements_ s' = fixedElements_ s /\
  selectors (deref s' 0%nat) = (selectors (deref s 0%nat) ++ ["*"])%list.
Proof.
  destruct (proj1 (setupFixedElement_records (finalState (setup browser fresh)) 3 "*"
                     (reachable_call browser CallSetup fresh (reachable_new page 0 true)))
              0%nat) as (H1 & _ & _ & H2 & _).
  - vm_compute. left.
  - reflexivity.
  - split; [exact H1|exact H2].
Defined.

(** X19: the comparison function of [sortInDomOrder_] answers 1 exactly
    when the lowest bit of the document position (the two elements are not in
    one tree) is set; the bits for [preceding] and [contains] play no role.
    For two elements of the document it answers -1 in both orders. *)
Theorem comparator_tests_bit_0 (s : FixedLayer) (fe1 fe2 : ref) :
  let position :=
    compareDocumentPosition (doc s) (element (deref s fe1)) (element (deref s fe2)) in
  (domOrderCompare s fe1 fe2 = 1 <-> Z.testbit position 0 = true) /\
  (domOrderCompare s fe1 fe2 = -1 <-> Z.testbit position 0 = false) /\
  (contains (doc s) (element (deref s fe1)) = true ->
   contains (doc s) (element (deref s fe2)) = true ->
   domOrderCompare s fe1 fe2 = -1 /\ domOrderCompare s fe2 fe1 = -1).
Proof.
  intros position. split; [|split].
  - rewrite Z.bit0_odd, (domOrderCompare_bit0 s fe1 fe2). fold position.
    destruct (Z.odd position); split; congruence.
  - rewrite Z.bit0_odd, (domOrderCompare_bit0 s fe1 fe2). fold position.
    destruct (Z.odd position); split; congruence.
  - intros H1 H2. split; apply domOrderCompare_connected; assumption.
Qed.

Example comparator_on_the_page :
  let s := finalState (setupFixedElement_ 3 "*"
                         (finalState (setupFixedElement_ 4 "*" fresh))) in
  trackedElements s = [4%nat; 3%nat] /\
  compareDocumentPosition (doc s) 4 3 = DOCUMENT_POSITION_PRECEDING /\
  domOrderCompare s 0 1 = -1 /\ domOrderCompare s 1 0 = -1.
Proof. repeat split; vm_compute; reflexivity. Qed.

Lemma getFixedLayer_classes s :
  classNames (doc (finalState (getFixedLayer_ s))) = classNames (doc s) /\
  body (doc (finalState (getFixedLayer_ s))) = body (doc s).
Proof.
  apply (stable_getFixedLayer_
           (fun s' => classNames (doc s') = classNames (doc s) /\
                      body (doc s') = body (doc s))).
  - intros s0 d [H1 H2] Hb Hc. simpl. split; congruence.
  - intros s0 l H. exact H.
  - auto.
Qed.

(** X20: at the start of the mutate callback, when an element was measured
    as transferrable and transfer is enabled, the fixed layer exists (it is
    created if need be) and has the class name of the body; the class name
    of the body is not changed.  Otherwise the callback starts without
    touching or creating the layer. *)
Theorem prepareFixedLayer_copies_class (st : CycleState) (s : FixedLayer) :
  (fixedLayer_ s = None ->
   forall n, n ∈ flat_map nodes (allTrees (doc s)) -> (n < nextNode (doc s))%nat) ->
  (hasTransferables st && transfer_ s = false -> prepareFixedLayer st s = Normal tt s) /\
  (hasTransferables st && transfer_ s = true ->
   exists layer s',
     prepareFixedLayer st s = Normal tt s' /\
     fixedLayer_ s' = Some layer /\
     getClassName (doc s') layer = getClassName (doc s) (body (doc s)) /\
     getClassName (doc s') (body (doc s')) = getClassName (doc s) (body (doc s))).
Proof.
  intros Hfresh. split.
  - intros Hc. unfold prepareFixedLayer.
    rewrite (bind_normal get _ s s s eq_refl), Hc. reflexivity.
  - intros Hc. apply andb_true_iff in Hc as Hc'. destruct Hc' as [_ Ht].
    assert (Hlayer : exists layer s1, getFixedLayer_ s = Normal (Some layer) s1 /\
                                      fixedLayer_ s1 = Some layer).
    { destruct (fixedLayer_ s) as [layer|] eqn:El.
      - exists layer, s. split; [apply getFixedLayer_existing, El|exact El].
      - destruct (getFixedLayer_created s Ht El (Hfresh eq_refl))
          as (s1 & E & Hl & _).
        eauto. }
    destruct Hlayer as (layer & s1 & E & Hl).
    pose proof (getFixedLayer_classes s) as [Hcls Hbody].
    rewrite E in Hcls, Hbody. cbn [finalState] in Hcls, Hbody.
    assert (Hb1 : getClassName (doc s1) (body (doc s1)) =
                  getClassName (doc s) (body (doc s))).
    { unfold getClassName. rewrite Hcls, Hbody. reflexivity. }
    exists layer. unfold prepareFixedLayer.
    rewrite (bind_normal get _ s s s eq_refl), Hc.
    rewrite (bind_normal _ _ _ _ _ E). rewrite (bind_normal get _ s1 s1 s1 eq_refl).
    destruct (String.eqb_spec (getClassName (doc s1) layer)
                (getClassName (doc s1) (body (doc s1)))) as [Heq|Hne]; cbn [negb].
    + exists s1. split; [reflexivity|]. split; [exact Hl|]. split; congruence.
    + eexists. split; [reflexivity|]. split; [exact Hl|]. rewrite <- Hb1.
      unfold getClassName. simpl. rewrite lookup_insert_eq. simpl.
      split; [reflexivity|]. rewrite lookup_insert. case_decide; reflexivity.
Qed.

(** X20, on an input: the body of the page has the class [dark]; the banner
    is registered and measured as transferrable. *)
Lemma prepareFixedLayer_copies_class_witness :
  let s := withDoc (putClassName 1 "dark" (doc registered)) registered in
  let st := {| state := ∅; hasTransferables := true |} in
  exists layer s',
    prepareFixedLayer st s = Normal tt s' /\
    fixedLayer_ s' = Some layer /\
    getClassName (doc s') layer = "dark".
Proof.
  destruct (prepareFixedLayer_copies_class
              {| state := ∅; hasTransferables := true |}
              (withDoc (putClassName 1 "dark" (doc registered)) registered))
    as [_ H].
  - intros _. vm_compute. intros n Hn.
    repeat (apply elem_of_cons in Hn as [->|Hn]; [lia|]). inversion Hn.
  - destruct (H eq_refl) as (layer & s' & E & Hl & Hc & _).
    exists layer, s'. split; [exact E|]. split; [exact Hl|exact Hc].
Defined.

(* ===================================================================== *)
(** ** The latch after an error, and the first transfer *)
(* ===================================================================== *)

(** X21: [mutateFixedElement_] records the measured state before it does
    anything else: when it ends, normally or not, [fixedNow] is the fixed
    flag of the measurement, and a later call with a measurement of the same
    flag changes nothing.  So a transfer that threw is not tried again as
    long as the element stays fixed. *)
Theorem failed_transfer_is_not_retried (h : Host) (fe : ref) (index index' : nat)
    (m m' : FixedElementStateDef) (s : FixedLayer) :
  fixed m' = fixed m ->
  let s1 := finalState (mutateFixedElement_ h fe index m s) in
  fixedNow (deref s1 fe) = Some (fixed m) /\
  mutateFixedElement_ h fe index' m' s1 = Normal tt s1.
Proof.
  intros Hsame s1.
  assert (H : fixedNow (deref s1 fe) = Some (fixed m))
    by apply mutateFixedElement_sets.
  split; [exact H|]. apply mutateFixedElement_latched. rewrite Hsame. exact H.
Qed.

(** X21, on an input: the transfer of the document element throws, as it
    has no parent element; the next cycle does not try again. *)
Lemma failed_transfer_is_not_retried_witness :
  let m := measureElement browser (doc rootRegistered) 0 in
  let c := mutateFixedElement_ browser 0 0 m rootRegistered in
  threw c = true /\
  fixedNow (deref (finalState c) 0%nat) = Some true /\
  mutateFixedElement_ browser 0 0 m (finalState c) = Normal tt (finalState c).
Proof.
  split; [vm_compute; reflexivity|].
  exact (failed_transfer_is_not_retried browser 0 0 0
           (measureElement browser (doc rootRegistered) 0)
           (measureElement browser (doc rootRegistered) 0)
           rootRegistered eq_refl).
Defined.

Example failed_cycle_is_not_retried :
  let s1 := finalState (addElement browser 0 fresh) in
  uncaught s1 = [TypeError] /\
  parentElement (doc s1) 0 = None /\
  update browser s1 = Normal tt s1.
Proof.
  split; [vm_compute; reflexivity|]. split; vm_compute; reflexivity.
Qed.

Lemma sameButTrees_attributes d d' : sameButTrees d d' -> attributes d' = attributes d.
Proof. intros ->. reflexivity. Qed.

Section FirstTransfer.

Variable layer : node.
Variable next : nat.
Variable attrs : gmap (nat * string) string.
Variable objs : gmap nat FixedElementDef.
Variable styles : gmap (nat * string) string.

Lemma configured_sameButTrees s d :
  configured layer next attrs objs styles s -> sameButTrees (doc s) d ->
  configured layer next attrs objs styles (withDoc d s).
Proof.
  intros (Hl & Hn & Ha & Ho & Hs) Hd. rewrite Hd.
  exact (conj Hl (conj Hn (conj Ha (conj Ho Hs)))).
Qed.

(** The rest of the move, once the placeholder is ready, writes the z-index
    and changes the trees. *)
Lemma configured_move el ph v :
  preserves (configured layer next attrs objs styles)
    (bind (modifyDoc (putStyle el "zIndex" v)) (fun _ =>
       bind (viaParentElement el (fun parent => replaceChild parent ph el)) (fun _ =>
         bind getFixedLayer_ (fun l =>
           match l with
           | Some l => domCall (appendChild l el)
           | None => throw TypeError
           end)))).
Proof.
  preserves_struct.
  - apply preserves_modify. intros s (Hl & Hn & Ha & Ho & Hs).
    repeat split; auto. intros n prop Hp. simpl.
    rewrite lookup_insert_ne by congruence. apply Hs, Hp.
  - apply preserves_viaParentElement_doc.
    + apply configured_sameButTrees.
    + intros parent d d'. apply replaceChild_sameButTrees.
  - intros s H. rewrite (getFixedLayer_existing s layer) by apply H. exact H.
  - apply preserves_domCall. intros s d H E.
    apply configured_sameButTrees; [exact H|].
    apply (appendChild_sameButTrees _ _ _ _ E).
Qed.

End FirstTransfer.

(** X22: the first transfer of an element makes it ready: a placeholder is
    created and recorded, with the id of the object as its [i-amp-fixedid]
    attribute and [display: none], and the element gets
    [pointer-events: initial].  A later transfer uses the recorded
    placeholder: no node is created, and no attribute and no inline style
    other than the z-index is written.  Both hold however the move ends. *)
Theorem placeholder_is_created_once (fe : ref) (index : nat)
    (m : FixedElementStateDef) (s : FixedLayer) (layer : node) :
  fixedLayer_ s = Some layer ->
  let el := element (deref s fe) in
  let s' := finalState (transferMove fe index m s) in
  (placeholder (deref s fe) = None ->
     placeholder (deref s' fe) = Some (nextNode (doc s)) /\
     nextNode (doc s') = S (nextNode (doc s)) /\
     getStyle (doc s') el "pointer-events" = "initial" /\
     getStyle (doc s') (nextNode (doc s)) "display" = "none" /\
     attributes (doc s') !! (nextNode (doc s), "i-amp-fixedid") =
       Some (id (deref s fe))) /\
  (forall ph, placeholder (deref s fe) = Some ph ->
     placeholder (deref s' fe) = Some ph /\
     nextNode (doc s') = nextNode (doc s) /\
     attributes (doc s') = attributes (doc s) /\
     forall n prop, prop <> "zIndex" ->
                    getStyle (doc s') n prop = getStyle (doc s) n prop).
Proof.
  intros Hl el s'. split.
  - intros Hnone. set (p := nextNode (doc s)).
    assert (Hblock : exists sc,
              bind (setStyle el "pointer-events" "initial") (fun _ =>
                bind docCreateElement (fun p =>
                  bind (setPlaceholder fe p) (fun _ =>
                    bind (modifyDoc (setAttribute p "i-amp-fixedid" (id (deref s fe))))
                      (fun _ => bind (setStyle p "display" "none")
                                  (fun _ => ret p))))) s
              = Normal p sc /\
              configured layer (S p)
                (<[(p, "i-amp-fixedid") := id (deref s fe)]> (attributes (doc s)))
                (<[fe := {| id := id (deref s fe); element := el;
                            selectors := selectors (deref s fe);
                            placeholder := Some p;
                            fixedNow := fixedNow (deref s fe) |}]> (objects s))
                (<[(p, "display") := "none"]>
                   (<[(el, "pointer-events") := "initial"]> (inlineStyle (doc s))))
                sc).
    { eexists. split; [reflexivity|]. repeat split; auto. }
    destruct Hblock as (sc & E & Hsc).
    assert (Hs' : configured layer (S p)
                (<[(p, "i-amp-fixedid") := id (deref s fe)]> (attributes (doc s)))
                (<[fe := {| id := id (deref s fe); element := el;
                            selectors := selectors (deref s fe);
                            placeholder := Some p;
                            fixedNow := fixedNow (deref s fe) |}]> (objects s))
                (<[(p, "display") := "none"]>
                   (<[(el, "pointer-events") := "initial"]> (inlineStyle (doc s))))
                s').
    { unfold s', transferMove. rewrite (bind_normal get _ s s s eq_refl).
      rewrite Hnone. fold el. rewrite (bind_normal _ _ _ _ _ E).
      apply configured_move, Hsc. }
    destruct Hs' as (_ & Hn & Ha & Ho & Hs).
    split; [unfold deref; rewrite Ho, lookup_total_insert_eq; reflexivity|].
    split; [exact Hn|].
    unfold getStyle. rewrite !Hs by discriminate. rewrite Ha.
    split; [|split; [|apply lookup_insert_eq]].
    + rewrite lookup_insert_ne by congruence. rewrite lookup_insert_eq. reflexivity.
    + rewrite lookup_insert_eq. reflexivity.
  - intros ph Hph.
    assert (Hs' : configured layer (nextNode (doc s)) (attributes (doc s))
                    (objects s) (inlineStyle (doc s)) s').
    { unfold s', transferMove. rewrite (bind_normal get _ s s s eq_refl).
      rewrite Hph. fold el. rewrite (bind_normal (ret ph) _ s ph s eq_refl).
      apply configured_move. repeat split; auto. }
    destruct Hs' as (_ & Hn & Ha & Ho & Hs).
    split; [unfold deref; rewrite Ho; exact Hph|].
    split; [exact Hn|]. split; [exact Ha|].
    intros n prop Hp. unfold getStyle. rewrite Hs by exact Hp. reflexivity.
Qed.

(** X22, on an input: the first transfer of the banner creates node 6. *)
Lemma placeholder_is_created_once_witness :
  let m := measureElement browser (doc layered) 3 in
  let s' := finalState (transferMove 0 0 m layered) in
  placeholder (deref s' 0%nat) = Some 6%nat /\
  getStyle (doc s') 3 "pointer-events" = "initial" /\
  getStyle (doc s') 6 "display" = "none" /\
  attributes (doc s') !! (6%nat, "i-amp-fixedid") = Some "F0".
Proof.
  destruct (placeholder_is_created_once 0 0 (measureElement browser (doc layered) 3)
              layered 5 eq_refl) as [H _].
  destruct (H eq_refl) as (H1 & _ & H2 & H3 & H4).
  split; [exact H1|]. split; [exact H2|]. split; [exact H3|exact H4].
Defined.

(* ===================================================================== *)
(** ** The inline top after a cycle *)
(* ===================================================================== *)

Section CycleTop.

Variable h : Host.

(** A cycle that reports no error ran its two callbacks to the end. *)
Lemma update_quiet s s1 :
  fixedElements_ s <> [] -> removeDetached s = Normal tt s1 ->
  uncaught (finalState (update h s)) = uncaught s ->
  exists s2,
    mutate h (fold_left (measureStep h s1) (fixedElements_ s1)
                {| state := ∅; hasTransferables := false |}) s1 = Normal tt s2 /\
    finalState (update h s) = s2.
Proof.
  intros Hne E Hunc.
  destruct (removeDetached_normal s) as (s1' & E' & _ & _ & Hu & _).
  rewrite E in E'. injection E' as <-.
  rewrite (update_nonempty h s s1 Hne E) in Hunc |- *. unfold tryCatch in *.
  set (st := fold_left (measureStep h s1) (fixedElements_ s1) _) in *.
  pose proof (preserves_frame_mutate h s1 st s1 (frame_refl s1)) as Hf.
  destruct (mutate h st s1) as [[] s2|e s2]; cbn [finalState] in *.
  - exists s2. auto.
  - exfalso. apply frame_uncaught, prefix_length in Hf. rewrite Hu in Hf.
    apply (f_equal List.length) in Hunc. simpl in Hunc.
    rewrite length_app in Hunc. simpl in Hunc. lia.
Qed.

Lemma mutateEach_keeps_top st fe i n v s :
  element (deref s fe) <> n ->
  styleIs n "top" v s ->
  styleIs n "top" v (finalState (mutateEach h st fe i s)).
Proof.
  intros Hne Hs. unfold mutateEach. rewrite (bind_normal get _ s s s eq_refl).
  destruct (state st !! id (deref s fe)); [|exact Hs].
  apply mutateFixedElement_keeps_top; assumption.
Qed.

Lemma mutateEach_other st fe i s r :
  r <> fe ->
  fixedNow (deref (finalState (mutateEach h st fe i s)) r) = fixedNow (deref s r).
Proof.
  intros Hne. unfold mutateEach. rewrite (bind_normal get _ s s s eq_refl).
  destruct (state st !! id (deref s fe)); [|reflexivity].
  apply mutateFixedElement_other, Hne.
Qed.

Lemma prepareFixedLayer_keeps st fe n v s :
  styleIs n "top" v s ->
  styleIs n "top" v (finalState (prepareFixedLayer st s)) /\
  fixedNow (deref (finalState (prepareFixedLayer st s)) fe) = fixedNow (deref s fe).
Proof.
  intros Hs.
  apply (preserves_impl
           (fun s' => styleIs n "top" v s' /\ objects s' = objects s)).
  - unfold prepareFixedLayer. preserves_struct.
    + intros s0 [H1 H2]. split; [apply keep_getFixedLayer_, H1|].
      apply (stable_getFixedLayer_ (fun s' => objects s' = objects s)); auto.
    + apply preserves_modify. intros s0 [H1 H2]. split; [|exact H2].
      apply (keep_putClassName n "top" v _ _ s0 H1).
  - auto.
  - intros s' [H1 H2]. split; [exact H1|]. unfold deref. rewrite H2. reflexivity.
Qed.

Variable st : CycleState.
Variable s1 : FixedLayer.
Variable fe0 : ref.
Variable k0 : nat.
Variable m0 : FixedElementStateDef.

Hypothesis registry : registryOk s1.
Hypothesis position : fixedElements_ s1 !! k0 = Some fe0.
Hypothesis measured : state st !! id (deref s1 fe0) = Some m0.
Hypothesis is_fixed : fixed m0 = true.
Hypothesis has_top : truthy (top m0) = true.

(** The loop of the mutate callback: the element of [fe0] gets its top when
    its index is reached, and the steps for the other elements leave it
    alone. *)
Lemma forEachFrom_adjusts count : forall i s s',
  frame s1 s ->
  forEachFrom count i (mutateEach h st) s = Normal tt s' ->
  ((i <= k0)%nat ->
   fixedNow (deref s fe0) <> Some true /\
   (element (deref s1 fe0) < nextNode (doc s))%nat) ->
  ((k0 < i)%nat ->
   styleIs (element (deref s1 fe0)) "top" (adjustedTop m0 (paddingTop_ s1)) s) ->
  (k0 < i + count)%nat ->
  styleIs (element (deref s1 fe0)) "top" (adjustedTop m0 (paddingTop_ s1)) s'.
Proof.
  set (el0 := element (deref s1 fe0)). set (v := adjustedTop m0 (paddingTop_ s1)).
  destruct registry as (_ & Hnd & Hne & _).
  induction count as [|count IH]; intros i s s' Hf E Hbefore Hafter Hk.
  - simpl in E. injection E as <-. apply Hafter. lia.
  - rewrite forEachFrom_S in E. rewrite (frame_elements _ _ Hf) in E.
    destruct (fixedElements_ s1 !! i) as [fe|] eqn:Hi.
    + apply bind_normal_inv in E as ([] & sa & Ea & E).
      pose proof (frame_mutateEach h st fe i s) as Hfa.
      rewrite Ea in Hfa. cbn [finalState] in Hfa.
      assert (Hf' : frame s1 sa) by (eapply frame_trans; eassumption).
      apply (IH (S i) sa s' Hf' E); [| |lia].
      * intros Hle. assert (Hlt : (i < k0)%nat) by lia.
        destruct (Hbefore ltac:(lia)) as [Hnow Hnode].
        assert (Hfe : fe <> fe0).
        { intros ->. pose proof (NoDup_lookup _ _ _ _ Hnd Hi position). lia. }
        assert (Hel : element (deref s fe) <> el0).
        { rewrite (frame_element _ _ Hf). intros Heq. apply Hfe.
          apply (NoDup_map_inj_on _ _ fe fe0 Hne); auto.
          - eapply list_elem_of_lookup_2, Hi.
          - eapply list_elem_of_lookup_2, position. }
        pose proof (mutateEach_other st fe i s fe0 (not_eq_sym Hfe)) as Hkeep.
        pose proof (mutateEach_keeps_top st fe i el0 _ s Hel
                      (conj eq_refl Hnode)) as [_ Hnode'].
        rewrite Ea in Hkeep, Hnode'. cbn [finalState] in Hkeep, Hnode'.
        split; [rewrite Hkeep; exact Hnow|exact Hnode'].
      * intros Hlt. destruct (decide (i = k0)) as [->|Hik].
        -- assert (fe = fe0) by congruence. subst fe.
           destruct (Hbefore ltac:(lia)) as [Hnow Hnode].
           unfold mutateEach in Ea. rewrite (bind_normal get _ s s s eq_refl) in Ea.
           rewrite (frame_id _ _ Hf), measured in Ea.
           pose proof (mutateFixedElement_adjusts h fe0 k0 m0 s is_fixed Hnow) as Ha.
           rewrite (frame_element _ _ Hf), (frame_padding _ _ Hf), has_top, Ea in Ha.
           apply Ha. exact Hnode.
        -- assert (Hfe : fe <> fe0).
           { intros ->. pose proof (NoDup_lookup _ _ _ _ Hnd Hi position). lia. }
           assert (Hel : element (deref s fe) <> el0).
           { rewrite (frame_element _ _ Hf). intros Heq. apply Hfe.
             apply (NoDup_map_inj_on _ _ fe fe0 Hne); auto.
             - eapply list_elem_of_lookup_2, Hi.
             - eapply list_elem_of_lookup_2, position. }
           pose proof (mutateEach_keeps_top st fe i el0 v s Hel
                         (Hafter ltac:(lia))) as Hkeep.
           rewrite Ea in Hkeep. exact Hkeep.
    + apply (IH (S i) s s' Hf E); [| |lia].
      * intros Hle. exfalso. apply lookup_lt_Some in position.
        apply lookup_ge_None in Hi. lia.
      * intros _. apply Hafter. apply lookup_lt_Some in position.
        apply lookup_ge_None in Hi. lia.
Qed.

End CycleTop.

(** X23: after a cycle that reports no error, every tracked element of the
    document that is measured as fixed with a computed top, and was not
    recorded as fixed before, has [calc(top + paddingTop px)] as its inline
    top and is recorded as fixed, whatever the cycle did for the other
    elements. *)
Theorem update_adjusts_top (h : Host) (s : FixedLayer) (fe : ref) :
  reachable s -> fe ∈ fixedElements_ s ->
  let el := element (deref s fe) in
  let m := measureElement h (doc s) el in
  let s' := finalState (update h s) in
  contains (doc s) el = true -> (el < nextNode (doc s))%nat ->
  fixed m = true -> top m <> "" -> fixedNow (deref s fe) <> Some true ->
  uncaught s' = uncaught s ->
  getStyle (doc s') el "top" = adjustedTop m (paddingTop_ s) /\
  fixedNow (deref s' fe) = Some true.
Proof.
  intros Hr Hfe el m s' Hc Hnode Hfixed Htop Hnow Hunc.
  apply reachable_registryOk in Hr as Hreg.
  assert (Hne : fixedElements_ s <> []) by (intros E; rewrite E in Hfe; inversion Hfe).
  destruct (removeDetached_normal s) as (s1 & E & Ho & Hd & _ & _ & _ & Hp).
  destruct (update_quiet h s s1 Hne E Hunc) as (s2 & Em & Es').
  fold s' in Es'. rewrite Es'.
  set (st := fold_left (measureStep h s1) (fixedElements_ s1) _) in *.
  assert (Hreg1 : registryOk s1).
  { pose proof (registryOk_removeDetached s Hreg) as H. rewrite E in H. exact H. }
  assert (Hderef : forall r, deref s1 r = deref s r)
    by (intros r; unfold deref; rewrite Ho; reflexivity).
  assert (Hfe1 : fe ∈ fixedElements_ s1).
  { pose proof (removeDetached_filter s (proj1 (proj2 (proj2 Hreg)))) as Hfilter.
    rewrite E in Hfilter. cbn [finalState] in Hfilter.
    assert (Hin : el ∈ trackedElements s1).
    { rewrite Hfilter. apply list_elem_of_In, filter_In. split; [|exact Hc].
      apply list_elem_of_In, trackedElements_elem. eauto. }
    apply trackedElements_elem in Hin as (r & Hr1 & Her).
    assert (r = fe); [|subst; exact Hr1].
    apply (NoDup_map_inj_on _ _ r fe (proj1 (proj2 (proj2 Hreg)))); auto.
    - pose proof (removeAll_subseteq
                    (List.filter (fun fe => negb (contains (doc s) (element (deref s fe))))
                       (fixedElements_ s)) s r) as Hsub.
      unfold removeDetached in E. rewrite (bind_normal get _ s s s eq_refl) in E.
      rewrite E in Hsub. apply Hsub, Hr1.
    - rewrite <- Hderef. exact Her. }
  apply list_elem_of_lookup_1 in Hfe1 as [k0 Hk0].
  destruct (measure_each h s1 (fixedElements_ s1)
              {| state := ∅; hasTransferables := false |}
              (registryOk_ids s1 Hreg1)) as (_ & Heach & _).
  assert (Hm : state st !! id (deref s1 fe) = Some m).
  { unfold st. rewrite (Heach fe (list_elem_of_lookup_2 _ _ _ Hk0)).
    rewrite Hderef, Hd. reflexivity. }
  unfold mutate in Em. apply bind_normal_inv in Em as ([] & sp & Ep & Em).
  unfold forEachFixedElement in Em. rewrite (bind_normal get _ sp sp sp eq_refl) in Em.
  assert (Hfp : frame s1 sp).
  { apply (preserves_normal (frame s1) (prepareFixedLayer st) s1 tt sp).
    - apply preserves_frame_prepareFixedLayer.
    - apply frame_refl.
    - exact Ep. }
  destruct (prepareFixedLayer_keeps st fe el (getStyle (doc s1) el "top") s1)
    as [[_ Hnodep] Hnowp].
  { split; [reflexivity|]. rewrite Hd. exact Hnode. }
  rewrite Ep in Hnodep, Hnowp. cbn [finalState] in Hnodep, Hnowp.
  assert (Htruthy : truthy (top m) = true) by (apply truthy_nonempty, Htop).
  pose proof (forEachFrom_adjusts h st s1 fe k0 m Hreg1 Hk0 Hm Hfixed Htruthy
                (List.length (fixedElements_ sp)) O sp s2 Hfp Em) as Hadj.
  rewrite Hderef, Hp in Hadj. fold el in Hadj. split.
  - apply Hadj.
    + intros _. split; [rewrite Hnowp, Hderef; exact Hnow|exact Hnodep].
    + intros Hlt. lia.
    + rewrite (frame_elements _ _ Hfp). apply lookup_lt_Some in Hk0. lia.
  - assert (Hlatch : forall r, r ∈ fixedElements_ s1 ->
              is_Some (state st !! id (deref s1 r))).
    { intros r Hr1. unfold st. rewrite (Heach r Hr1). eauto. }
    assert (Em' : mutate h st s1 = Normal tt s2).
    { unfold mutate. rewrite (bind_normal _ _ _ _ _ Ep).
      unfold forEachFixedElement. rewrite (bind_normal get _ sp sp sp eq_refl).
      exact Em. }
    destruct (mutate_latches h st s1 s2 Hlatch Em') as (Hf2 & Hl & _).
    destruct (Hl fe) as (m' & Hm' & Hnow').
    { rewrite (frame_elements _ _ Hf2). eapply list_elem_of_lookup_2, Hk0. }
    rewrite (frame_id _ _ Hf2), Hm in Hm'. injection Hm' as <-.
    rewrite Hnow', Hfixed. reflexivity.
Qed.

Lemma foundInFlow_reachable : reachable foundInFlow.
Proof.
  exact (reachable_call (browserWith (fun _ _ => inFlow)) CallSetup fresh
           (reachable_new page 0 true)).
Qed.

(** X23, on an input: the banner was found while it was in the normal flow;
    the browser then lays it out as fixed at the top. *)
Lemma update_adjusts_top_witness :
  let s' := finalState (update browser foundInFlow) in
  getStyle (doc s') 3 "top" = "calc(0px + 0px)" /\
  fixedNow (deref s' 0%nat) = Some true.
Proof.
  refine (update_adjusts_top browser foundInFlow 0 foundInFlow_reachable
            _ _ _ eq_refl _ _ _).
  - vm_compute. left.
  - vm_compute. reflexivity.
  - vm_compute. lia.
  - discriminate.
  - vm_compute. discriminate.
  - vm_compute. reflexivity.
Defined.

(* ===================================================================== *)
(** ** A cycle that moves an element to the fixed layer *)
(* ===================================================================== *)

Lemma readyForTransfer_same s s' fe layer :
  documentElement (doc s') = documentElement (doc s) ->
  detached (doc s') = detached (doc s) ->
  nextNode (doc s') = nextNode (doc s) ->
  fixedLayer_ s' = fixedLayer_ s ->
  element (deref s' fe) = element (deref s fe) ->
  placeholder (deref s' fe) = placeholder (deref s fe) ->
  readyForTransfer s fe layer -> readyForTransfer s' fe layer.
Proof.
  intros HT HD HN HL He Hp (H1 & H2 & H3 & H4 & H5 & H6 & H7 & H8).
  destruct (sameTrees_facts (doc s) (doc s') HT HD) as (Hwf & Hc & Hpar & Hsub).
  unfold readyForTransfer. rewrite He, Hp, HL, HN, !Hc, Hpar, Hsub.
  unfold allTrees in *. rewrite HT, HD.
  split; [apply Hwf, H1|]. split; [exact H2|]. split; [exact H3|].
  split; [exact H4|]. split; [exact H5|]. split; [exact H6|]. split; [exact H7|].
  intros ph Hph. rewrite Hc, Hsub. apply H8, Hph.
Qed.

Section OneStep.

Variable h : Host.
Variable st : CycleState.
Variable fe0 : ref.
Variable k0 : nat.
Variables sA sB : FixedLayer.

Hypothesis same_array : fixedElements_ sB = fixedElements_ sA.
Hypothesis no_duplicates : NoDup (fixedElements_ sA).
Hypothesis position : fixedElements_ sA !! k0 = Some fe0.
Hypothesis step : mutateEach h st fe0 k0 sA = Normal tt sB.
Hypothesis others_before : forall i r,
  fixedElements_ sA !! i = Some r -> r <> fe0 ->
  mutateEach h st r i sA = Normal tt sA.
Hypothesis others_after : forall i r,
  fixedElements_ sA !! i = Some r -> r <> fe0 ->
  mutateEach h st r i sB = Normal tt sB.

(** A loop in which only the step for [fe0] does something. *)
Lemma forEachFrom_one_step count : forall i,
  ((k0 < i)%nat -> forEachFrom count i (mutateEach h st) sB = Normal tt sB) /\
  ((i <= k0 < i + count)%nat ->
   forEachFrom count i (mutateEach h st) sA = Normal tt sB).
Proof.
  induction count as [|count IH]; intros i.
  - split; [reflexivity|lia].
  - destruct (IH (S i)) as [IHafter IHbefore]. split.
    + intros Hlt. rewrite forEachFrom_S, same_array.
      destruct (fixedElements_ sA !! i) as [r|] eqn:Hi; [|apply IHafter; lia].
      assert (Hne : r <> fe0).
      { intros ->. pose proof (NoDup_lookup _ _ _ _ no_duplicates Hi position). lia. }
      rewrite (bind_normal _ _ _ _ _ (others_after i r Hi Hne)).
      apply IHafter. lia.
    + intros Hrange. rewrite forEachFrom_S.
      destruct (decide (i = k0)) as [->|Hik].
      * rewrite position, (bind_normal _ _ _ _ _ step). apply IHafter. lia.
      * destruct (fixedElements_ sA !! i) as [r|] eqn:Hi; [|apply IHbefore; lia].
        assert (Hne : r <> fe0).
        { intros ->. pose proof (NoDup_lookup _ _ _ _ no_duplicates Hi position). lia. }
        rewrite (bind_normal _ _ _ _ _ (others_before i r Hi Hne)).
        apply IHbefore. lia.
Qed.

End OneStep.

Section CycleTransfer.

Variable h : Host.

(** The step for an object whose recorded state is the measured one does
    nothing. *)
Lemma mutateEach_latched st r i s m :
  state st !! id (deref s r) = Some m -> fixedNow (deref s r) = Some (fixed m) ->
  mutateEach h st r i s = Normal tt s.
Proof.
  intros Hm Hnow. unfold mutateEach. rewrite (bind_normal get _ s s s eq_refl), Hm.
  apply mutateFixedElement_latched, Hnow.
Qed.

(** With the fixed layer in place, the start of the mutate callback changes
    class names at most. *)
Lemma prepareFixedLayer_existing st s layer :
  fixedLayer_ s = Some layer ->
  exists sp,
    prepareFixedLayer st s = Normal tt sp /\
    objects sp = objects s /\ fixedElements_ sp = fixedElements_ s /\
    fixedLayer_ sp = fixedLayer_ s /\ transfer_ sp = transfer_ s /\
    paddingTop_ sp = paddingTop_ s /\
    documentElement (doc sp) = documentElement (doc s) /\
    detached (doc sp) = detached (doc s) /\
    nextNode (doc sp) = nextNode (doc s).
Proof.
  intros Hl. unfold prepareFixedLayer. rewrite (bind_normal get _ s s s eq_refl).
  destruct (hasTransferables st && transfer_ s).
  - rewrite (bind_normal _ _ _ _ _ (getFixedLayer_existing s layer Hl)).
    rewrite (bind_normal get _ s s s eq_refl).
    destruct (negb _); eexists; (split; [reflexivity|]); repeat split; reflexivity.
  - exists s. repeat split; reflexivity.
Qed.

(** X24: a cycle moves a tracked element into the fixed layer.  The layer
    exists and the element is in the document outside of it; the element is
    measured as transferrable and was not recorded as fixed; it was added
    with the universal selector, which the matcher accepts; and the other
    tracked elements are in the document and in the state that is recorded
    for them.  Then after [update] the element is a child of the fixed
    layer and recorded as fixed, it has the z-index of its index in the
    array, and its placeholder is where the element was. *)
Theorem update_moves_into_layer (s : FixedLayer) (fe0 : ref) (layer : node) :
  reachable s -> transfer_ s = true -> fe0 ∈ fixedElements_ s ->
  readyForTransfer s fe0 layer ->
  let el := element (deref s fe0) in
  let m := measureElement h (doc s) el in
  let s' := finalState (update h s) in
  transferrable m = true -> fixedNow (deref s fe0) <> Some true ->
  "*" ∈ selectors (deref s fe0) -> matchesUniversal h el ->
  (forall r, r ∈ fixedElements_ s -> r <> fe0 ->
     contains (doc s) (element (deref s r)) = true /\
     fixedNow (deref s r) =
       Some (fixed (measureElement h (doc s) (element (deref s r))))) ->
  parentElement (doc s') el = Some layer /\
  fixedNow (deref s' fe0) = Some true /\
  fixedElements_ s' = fixedElements_ s /\
  (exists k, fixedElements_ s !! k = Some fe0 /\
             getStyle (doc s') el "zIndex" = transferZIndex k m) /\
  (exists ph, placeholder (deref s' fe0) = Some ph /\
              parentElement (doc s') ph = parentElement (doc s) el).
Proof.
  intros Hr Htr Hfe Hready el m s' Htrans Hnow Hstar Huniv Hothers.
  apply reachable_registryOk in Hr as Hreg.
  destruct Hreg as (Hwfr & Hnd & Hnde & Hids).
  assert (Hlayer : fixedLayer_ s = Some layer) by apply Hready.
  assert (Hcel : contains (doc s) el = true) by apply Hready.
  assert (Hfixed : fixed m = true).
  { apply (measureElement_transferrable h (doc s) el) in Htrans. apply Htrans. }
  (* The elements are in the document: nothing is removed. *)
  assert (Hne : fixedElements_ s <> []) by (intros E; rewrite E in Hfe; inversion Hfe).
  assert (Eremove : removeDetached s = Normal tt s).
  { apply removeDetached_all_contained. intros r Hin.
    destruct (decide (r = fe0)) as [->|Hne0]; [exact Hcel|apply (Hothers r Hin Hne0)]. }
  (* What is measured. *)
  set (st := fold_left (measureStep h s) (fixedElements_ s)
               {| state := ∅; hasTransferables := false |}).
  destruct (measure_each h s (fixedElements_ s)
              {| state := ∅; hasTransferables := false |}
              (registryOk_ids s (conj Hwfr (conj Hnd (conj Hnde Hids)))))
    as (_ & Heach & _).
  fold st in Heach.
  (* The start of the mutate callback. *)
  destruct (prepareFixedLayer_existing st s layer Hlayer)
    as (sp & Ep & Hop & Hfp & Hlp & Htp & Hpp & HTp & HDp & HNp).
  assert (Hderefp : forall r, deref sp r = deref s r)
    by (intros r; unfold deref; rewrite Hop; reflexivity).
  apply list_elem_of_lookup_1 in Hfe as [k0 Hk0].
  (* The step for the element. *)
  set (s1 := finalState (setFixedNow fe0 true sp)).
  set (s2 := if truthy (top m)
             then withDoc (putStyle el "top" (adjustedTop m (paddingTop_ sp)) (doc s1)) s1
             else s1).
  assert (Hderef2 : element (deref s2 fe0) = el /\
                    placeholder (deref s2 fe0) = placeholder (deref s fe0) /\
                    selectors (deref s2 fe0) = selectors (deref s fe0)).
  { assert (H1 : deref s1 fe0 =
                 {| id := id (deref sp fe0); element := element (deref sp fe0);
                    selectors := selectors (deref sp fe0);
                    placeholder := placeholder (deref sp fe0);
                    fixedNow := Some true |}).
    { unfold s1. simpl. rewrite deref_withObjects_insert, decide_True by reflexivity.
      reflexivity. }
    assert (H2 : deref s2 fe0 = deref s1 fe0)
      by (unfold s2; destruct (truthy (top m)); reflexivity).
    rewrite H2, H1, Hderefp. auto. }
  destruct Hderef2 as (Hel2 & Hph2 & Hsel2).
  assert (Hready2 : readyForTransfer s2 fe0 layer).
  { apply (readyForTransfer_same s s2); auto;
      unfold s2; destruct (truthy (top m)); simpl; auto. }
  assert (Estep : mutateEach h st fe0 k0 sp =
                  transferToFixedLayer_ h fe0 k0 m s2).
  { unfold mutateEach. rewrite (bind_normal get _ sp sp sp eq_refl).
    rewrite Hderefp, (Heach fe0 (list_elem_of_lookup_2 _ _ _ Hk0)). fold el m.
    rewrite (mutateFixedElement_fixed h fe0 k0 m sp Hfixed)
      by (rewrite Hderefp; exact Hnow).
    rewrite Htp, Htr, Htrans, Hderefp. reflexivity. }
  destruct (transferToFixedLayer_stays h fe0 k0 m s2 layer Hready2)
    as (Hthrew & Hparent & Hz & ph & Hph & Hpph & _).
  { rewrite Hel2, Hsel2.
    destruct (Huniv (doc (finalState (transferMove fe0 k0 m s2))))
      as (matcherFn & Hm1 & Hm2).
    exists "*", matcherFn. auto. }
  rewrite Hel2 in Hparent, Hz, Hpph.
  set (sB := finalState (transferToFixedLayer_ h fe0 k0 m s2)) in *.
  assert (EstepB : mutateEach h st fe0 k0 sp = Normal tt sB).
  { rewrite Estep. unfold sB.
    destruct (transferToFixedLayer_ h fe0 k0 m s2) as [[] s3|e s3];
      [reflexivity|discriminate]. }
  pose proof (frame_mutateEach h st fe0 k0 sp) as HfB.
  rewrite EstepB in HfB. cbn [finalState] in HfB.
  (* The steps for the other elements. *)
  assert (Hlatched : forall sX i r,
            (forall x, id (deref sX x) = id (deref s x)) ->
            fixedNow (deref sX r) = fixedNow (deref s r) ->
            fixedElements_ sp !! i = Some r -> r <> fe0 ->
            mutateEach h st r i sX = Normal tt sX).
  { intros sX i r Hid HnowX Hi Hne0. rewrite Hfp in Hi.
    pose proof (list_elem_of_lookup_2 _ _ _ Hi) as Hin.
    apply (mutateEach_latched st r i sX
             (measureElement h (doc s) (element (deref s r)))).
    - rewrite Hid. apply Heach, Hin.
    - rewrite HnowX. apply (Hothers r Hin Hne0). }
  destruct (forEachFrom_one_step h st fe0 k0 sp sB) with
    (count := List.length (fixedElements_ sp)) (i := O) as [_ Hloop].
  { apply (frame_elements _ _ HfB). }
  { rewrite Hfp. exact Hnd. }
  { rewrite Hfp. exact Hk0. }
  { exact EstepB. }
  { intros i r Hi Hne0. apply Hlatched; auto; intros; rewrite Hderefp; reflexivity. }
  { intros i r Hi Hne0. apply Hlatched; auto.
    - intros x. rewrite (frame_id _ _ HfB), Hderefp. reflexivity.
    - pose proof (mutateEach_other h st fe0 k0 sp r Hne0) as Hkeep.
      rewrite EstepB in Hkeep. cbn [finalState] in Hkeep.
      rewrite Hkeep, Hderefp. reflexivity. }
  assert (Eupdate : update h s = Normal tt sB).
  { rewrite (update_nonempty h s s Hne Eremove). fold st. unfold tryCatch, mutate.
    rewrite (bind_normal _ _ _ _ _ Ep). unfold forEachFixedElement.
    rewrite (bind_normal get _ sp sp sp eq_refl).
    rewrite Hloop; [reflexivity|].
    rewrite Hfp. apply lookup_lt_Some in Hk0. lia. }
  unfold s'. rewrite Eupdate. cbn [finalState].
  split; [exact Hparent|]. split.
  { pose proof (mutateFixedElement_sets h fe0 k0 m sp) as Hset.
    unfold mutateEach in EstepB. rewrite (bind_normal get _ sp sp sp eq_refl) in EstepB.
    rewrite Hderefp, (Heach fe0 (list_elem_of_lookup_2 _ _ _ Hk0)) in EstepB.
    fold el m in EstepB. rewrite EstepB, Hfixed in Hset. exact Hset. }
  split; [rewrite (frame_elements _ _ HfB); exact Hfp|].
  split; [exists k0; split; [exact Hk0|exact Hz]|].
  exists ph. split; [exact Hph|]. rewrite Hpph.
  assert (HT2 : documentElement (doc s2) = documentElement (doc s) /\
                detached (doc s2) = detached (doc s)).
  { unfold s2. destruct (truthy (top m)); simpl; auto. }
  destruct HT2 as [HT2 HD2].
  apply (sameTrees_facts (doc s) (doc s2) HT2 HD2).
Qed.

End CycleTransfer.

Lemma footerAdded_reachable : reachable footerAdded.
Proof.
  exact (reachable_call (browserWith (fun _ _ => inFlow)) (CallAddElement 4)
           transferred transferred_reachable).
Qed.

Lemma footerAdded_ready : readyForTransfer footerAdded 1 5.
Proof.
  unfold readyForTransfer. repeat split.
  - unfold wfDocument. vm_compute. repeat constructor; vm_compute;
      intros H; repeat (apply elem_of_cons in H as [H|H]; [discriminate|]);
      inversion H.
  - vm_compute. intros n H.
    repeat (apply elem_of_cons in H as [->|H]; [lia|]). inversion H.
  - vm_compute. discriminate.
  - vm_compute in H. discriminate.
  - vm_compute in H. discriminate.
Qed.

(** X24, on an input: the footer was added while it was in the normal flow;
    the browser then lays it out as fixed, and the banner stays in the
    flow. *)
Lemma update_moves_into_layer_witness :
  let s' := finalState (update footerBrowser footerAdded) in
  parentElement (doc s') 4 = Some 5%nat /\
  fixedNow (deref s' 1%nat) = Some true /\
  fixedElements_ s' = fixedElements_ footerAdded.
Proof.
  destruct (update_moves_into_layer footerBrowser footerAdded 1 5
              footerAdded_reachable eq_refl) as (H1 & H2 & H3 & _).
  - vm_compute. right. left.
  - exact footerAdded_ready.
  - vm_compute. reflexivity.
  - vm_compute. discriminate.
  - vm_compute. left.
  - intros d. eexists. split; reflexivity.
  - intros r Hin Hne. vm_compute in Hin.
    apply elem_of_cons in Hin as [->|Hin].
    + split; vm_compute; reflexivity.
    + apply list_elem_of_singleton in Hin. contradiction.
  - split; [exact H1|]. split; [exact H2|exact H3].
Defined.
